(** * Family matching: exact 0/1 formulation and heuristic local search

    A shallow embedding of [matcher.py] (the exact strategy, which hands a
    0/1 program to an external solver) and of [old-matcher.py] (the
    heuristic strategy of families, constraints and improvement passes),
    with the properties of both that the specification states. *)

From Stdlib Require Import ZArith QArith Ascii String List Lia.
From stdpp Require Import base option list gmap strings fin_maps fin_sets.

Local Open Scope Z_scope.

#[local] Set Warnings "-clear-no-such-hyp".

(** ** Python exceptions and the error monad *)

Inductive exn : Set :=
| AssertionError
| AttributeError
| KeyError
| IndexError
| TypeError
| ValueError.

Inductive result (A : Type) : Type :=
| Ok (a : A)
| Raise (e : exn).
Arguments Ok {A} a.
Arguments Raise {A} e.

Definition rbind {A B : Type} (r : result A) (k : A -> result B) : result B :=
  match r with
  | Ok a => k a
  | Raise e => Raise e
  end.

Declare Scope result_scope.
Delimit Scope result_scope with result.
Notation "x <~ r ;; k" := (rbind r (fun x => k))
  (at level 100, r at next level, right associativity) : result_scope.
Local Open Scope result_scope.

Definition is_ok {A : Type} (r : result A) : bool :=
  match r with Ok _ => true | Raise _ => false end.

(** [for x in l: acc = body(acc, x)], where the body may raise. *)
Fixpoint for_each {A S : Type} (l : list A) (body : S -> A -> result S)
    (s : S) : result S :=
  match l with
  | [] => Ok s
  | x :: l' => s' <~ body s x ;; for_each l' body s'
  end.

(** * The exact strategy ([matcher.py]) *)

Module Matcher.

(** [EPS = 1e-6] *)
Definition EPS : Q := 1 # 1000000.

Record User : Set := {
  u_id : string;
  u_name : string;
  sociability : Z
}.

Record JMPreference : Set := {
  user_id : string;
  slot_id : string;
  value : Z
}.

Record Slot : Set := {
  s_id : string;
  time : string;
  sm_list : list string
}.

Record MatcherConfig : Set := {
  min_family_size : Z;
  max_family_size : Z;
  sociability_bias : Q
}.

(** Keys of the dictionaries [preference_map] and [assignment]: the tuple
    [(user_id, slot_id)]. *)
Abbreviation key := (string * string)%type.

(** What [assignment] holds: [cp.Constant(0)] or a boolean [cp.Variable].
    A variable is an object; the dictionary keeps one per key, so the key
    stands for its identity. *)
Inductive expr : Set :=
| CpConstant (c : Z)
| CpVariable (k : key).

(** The three shapes of constraint that [get_optimization] appends; a sum
    of dictionary entries is kept as the list of its summands. *)
Inductive constraint : Set :=
| SumEq (lhs : list expr) (rhs : Z)     (* total_assigned == 1 *)
| LowerBound (lo : Z) (rhs : list expr) (* min_family_size <= total_assigned *)
| UpperBound (lhs : list expr) (hi : Z) (* total_assigned <= max_family_size *).

Definition preference_map (preferences : list JMPreference) : gmap key Z :=
  foldl (fun m p => <[(user_id p, slot_id p) := value p]> m) ∅ preferences.

(** The first pair of loops of [get_optimization]. *)
Definition assign_cell (pm : gmap key Z) (uid sid : string) : expr :=
  let pref := default 0 (pm !! (uid, sid)) in
  if pref <=? 0 then CpConstant 0 else CpVariable (uid, sid).

Definition build_assignment (pm : gmap key Z) (jm_users : list User)
    (slots : list Slot) : gmap key expr :=
  foldl (fun a user =>
           foldl (fun a slot =>
                    <[(u_id user, s_id slot) :=
                        assign_cell pm (u_id user) (s_id slot)]> a)
                 a slots)
        ∅ jm_users.

(** [assignment[k]]: a subscript of a dictionary raises KeyError on a
    missing key. *)
Definition subscript {V : Type} (m : gmap key V) (k : key) : result V :=
  match m !! k with
  | Some v => Ok v
  | None => Raise KeyError
  end.

(** [sum(assignment[...] for x in xs)] *)
Fixpoint summands {A : Type} (assignment : gmap key expr) (mk : A -> key)
    (xs : list A) : result (list expr) :=
  match xs with
  | [] => Ok []
  | x :: xs' =>
      e <~ subscript assignment (mk x) ;;
      es <~ summands assignment mk xs' ;;
      Ok (e :: es)
  end.

Definition user_constraints (assignment : gmap key expr)
    (jm_users : list User) (slots : list Slot) : result (list constraint) :=
  for_each jm_users
    (fun cs user =>
       total_assigned <~ summands assignment (fun slot => (u_id user, s_id slot)) slots ;;
       Ok (cs ++ [SumEq total_assigned 1]))
    [].

Definition slot_constraints (assignment : gmap key expr)
    (jm_users : list User) (slots : list Slot) (config : MatcherConfig)
    (cs0 : list constraint) : result (list constraint) :=
  for_each slots
    (fun cs slot =>
       total_assigned <~ summands assignment (fun user => (u_id user, s_id slot)) jm_users ;;
       Ok (cs ++ [LowerBound (min_family_size config) total_assigned;
                  UpperBound total_assigned (max_family_size config)]))
    cs0.

(** The objective: the terms [preference_map[k] * variable] over the items
    of [assignment] whose key is in [preference_map].  A weight is kept as
    the integer of the record; what the solver library makes of it (a
    double) is on its side of the call. *)
Definition objective_terms (pm : gmap key Z) (assignment : gmap key expr)
    : list (Z * expr) :=
  omap (fun kv : key * expr => (fun p => (p, kv.2)) <$> pm !! kv.1)
       (map_to_list assignment).

Definition get_optimization (jm_users : list User)
    (preferences : list JMPreference) (slots : list Slot)
    (config : MatcherConfig)
    : result (list (Z * expr) * list constraint * gmap key expr) :=
  let pm := preference_map preferences in
  let assignment := build_assignment pm jm_users slots in
  cs1 <~ user_constraints assignment jm_users slots ;;
  constraints <~ slot_constraints assignment jm_users slots config cs1 ;;
  Ok (objective_terms pm assignment, constraints, assignment).

(** *** The external solver

    [problem.solve] belongs to cvxpy.  After the call, every variable of
    the problem carries a value when the problem was solved, and [None]
    when it was found infeasible; the code reads nothing else. *)
Abbreviation valuation := (key -> Q).

Definition Qltb (x y : Q) : bool := negb (Qle_bool y x).

Section RunMatcher.

Variable solve : list (Z * expr) -> list constraint -> option valuation.

(** The inner loop of [run_matcher] for one user. *)
Definition matched_slot_ids (assignment : gmap key expr)
    (values : option valuation) (user : User) (slots : list Slot)
    : result (gset string) :=
  for_each slots
    (fun matched slot =>
       assignment_obj <~ subscript assignment (u_id user, s_id slot) ;;
       match assignment_obj with
       | CpConstant _ => Ok matched
       | CpVariable k =>
           match values with
           | None => Raise TypeError (* None > EPS *)
           | Some v =>
               if Qltb EPS (v k) then Ok ({[s_id slot]} ∪ matched)
               else Ok matched
           end
       end)
    ∅.

Definition slots_by_id (slots : list Slot) : gmap string Slot :=
  foldl (fun m slot => <[s_id slot := slot]> m) ∅ slots.

(** The body of the last loop of [run_matcher] for one user: the slot that
    [final_assignment[user.id]] receives. *)
Definition match_user (assignment : gmap key expr)
    (values : option valuation) (by_id : gmap string Slot)
    (slots : list Slot) (user : User) : result Slot :=
  matched <~ matched_slot_ids assignment values user slots ;;
  if negb (size matched =? 1)%nat then Raise AssertionError
  else
    match elements matched with
    | [] => Raise IndexError
    | matched_slot_id :: _ =>
        match by_id !! matched_slot_id with
        | None => Raise KeyError
        | Some slot => Ok slot
        end
    end.

Definition run_matcher (jm_users : list User)
    (preferences : list JMPreference) (slots : list Slot)
    (config : MatcherConfig) : result (gmap string Slot) :=
  optimization <~ get_optimization jm_users preferences slots config ;;
  let '(objective, constraints, assignment) := optimization in
  let by_id := slots_by_id slots in
  let values := solve objective constraints in
  for_each jm_users
    (fun final_assignment user =>
       slot <~ match_user assignment values by_id slots user ;;
       Ok (<[u_id user := slot]> final_assignment))
    ∅.

End RunMatcher.

(** *** What the solver is trusted for

    A value for every variable, 0 or 1, under which every constraint
    holds. *)
Definition eval (v : valuation) (e : expr) : Q :=
  match e with
  | CpConstant c => inject_Z c
  | CpVariable k => v k
  end.

Definition total (v : valuation) (es : list expr) : Q :=
  fold_right Qplus 0%Q (map (eval v) es).

Definition constraint_exprs (c : constraint) : list expr :=
  match c with
  | SumEq l _ => l
  | LowerBound _ l => l
  | UpperBound l _ => l
  end.

Definition holdsb (v : valuation) (c : constraint) : bool :=
  match c with
  | SumEq l r => Qeq_bool (total v l) (inject_Z r)
  | LowerBound lo l => Qle_bool (inject_Z lo) (total v l)
  | UpperBound l hi => Qle_bool (total v l) (inject_Z hi)
  end.

Definition is_01 (q : Q) : bool := Qeq_bool q 0 || Qeq_bool q 1.

Definition boolean_on (v : valuation) (e : expr) : bool :=
  match e with
  | CpConstant _ => true
  | CpVariable k => is_01 (v k)
  end.

Definition feasibleb (constraints : list constraint) (v : valuation) : bool :=
  forallb (fun c => forallb (boolean_on v) (constraint_exprs c) && holdsb v c)
          constraints.

(** A reference solver by enumeration, for running the model. *)
Definition expr_vars (e : expr) : list key :=
  match e with
  | CpConstant _ => []
  | CpVariable k => [k]
  end.

Definition problem_vars (constraints : list constraint) : list key :=
  remove_dups (flat_map (fun c => flat_map expr_vars (constraint_exprs c))
                        constraints).

Fixpoint subsets {A : Type} (l : list A) : list (list A) :=
  match l with
  | [] => [[]]
  | x :: l' => let r := subsets l' in r ++ map (cons x) r
  end.

Definition indicator (ones : list key) : valuation :=
  fun k => if bool_decide (k ∈ ones) then 1%Q else 0%Q.

Definition cost (objective : list (Z * expr)) (v : valuation) : Q :=
  fold_right Qplus 0%Q
    (map (fun t : Z * expr => (inject_Z t.1 * eval v t.2)%Q) objective).

Fixpoint cheapest (objective : list (Z * expr)) (cands : list (list key))
    : option (list key) :=
  match cands with
  | [] => None
  | c :: cands' =>
      match cheapest objective cands' with
      | None => Some c
      | Some b =>
          if Qle_bool (cost objective (indicator c))
                      (cost objective (indicator b))
          then Some c else Some b
      end
  end.

Definition brute_solve (objective : list (Z * expr))
    (constraints : list constraint) : option valuation :=
  indicator <$>
    cheapest objective
      (List.filter (fun ones => feasibleb constraints (indicator ones))
                   (subsets (problem_vars constraints))).

End Matcher.

(** * The heuristic strategy ([old-matcher.py]) *)

Module OldMatcher.

Local Open Scope string_scope.
Local Open Scope Z_scope.
Local Open Scope list_scope.

(** ** Python values and built-ins used by the script *)

(** A cell of a CSV row is a string; [JM.load_data] collects the cells of a
    preference dimension into a dictionary from option to rating. *)
Inductive pyvalue : Type :=
| PyStr (s : string)
| PyDict (d : gmap string string).

(** The blanks that [int] skips around the digits of an ASCII string:
    tab to carriage return, and space. *)
Definition is_space (a : ascii) : bool :=
  let n := nat_of_ascii a in
  ((9 <=? n) && (n <=? 13) || (n =? 32))%nat.

Fixpoint lstrip (l : list ascii) : list ascii :=
  match l with
  | a :: l' => if is_space a then lstrip l' else l
  | [] => []
  end.

Definition strip (l : list ascii) : list ascii :=
  rev (lstrip (rev (lstrip l))).

Definition digit (a : ascii) : option Z :=
  let n := nat_of_ascii a in
  if ((48 <=? n) && (n <=? 57))%nat then Some (Z.of_nat n - 48) else None.

(** Decimal digits, where single underscores may separate digits. *)
Fixpoint digits (l : list ascii) (acc : Z) (after_digit : bool) : option Z :=
  match l with
  | [] => if after_digit then Some acc else None
  | a :: l' =>
      match digit a with
      | Some d => digits l' (10 * acc + d) true
      | None =>
          if Ascii.eqb a "_"%char && after_digit then digits l' acc false
          else None
      end
  end.

(** [int(s)] for a string of ASCII characters: surrounding white space, an
    optional sign, decimal digits. *)
Definition int_of_string (s : string) : option Z :=
  match strip (list_ascii_of_string s) with
  | a :: l =>
      if Ascii.eqb a "-"%char then Z.opp <$> digits l 0 false
      else if Ascii.eqb a "+"%char then digits l 0 false
      else digits (a :: l) 0 false
  | [] => None
  end.

Definition py_int (v : pyvalue) : result Z :=
  match v with
  | PyStr s =>
      match int_of_string s with
      | Some n => Ok n
      | None => Raise ValueError
      end
  | PyDict _ => Raise TypeError
  end.

(** [container[index]] *)
Definition py_getitem (container index : pyvalue) : result pyvalue :=
  match container, index with
  | PyDict d, PyStr k =>
      match d !! k with
      | Some s => Ok (PyStr s)
      | None => Raise KeyError
      end
  | PyDict _, PyDict _ => Raise TypeError (* unhashable *)
  | PyStr _, _ => Raise TypeError (* string indices must be integers *)
  end.

(** [needle in haystack] on strings *)
Fixpoint py_in (needle haystack : string) : bool :=
  String.prefix needle haystack ||
  match haystack with
  | EmptyString => false
  | String _ rest => py_in needle rest
  end.

(** [len(l)] *)
Definition len {A : Type} (l : list A) : Z := Z.of_nat (length l).

(** [all(compatible)] *)
Definition all (l : list bool) : bool := forallb (fun b => b) l.

(** [o.attribute] where [o] may be [None] *)
Definition attr {A : Type} (o : option A) : result A :=
  match o with
  | Some a => Ok a
  | None => Raise AttributeError
  end.

(** [[f(x) for x in l]], where [f] may raise *)
Fixpoint comprehension {A B : Type} (f : A -> result B) (l : list A)
    : result (list B) :=
  match l with
  | [] => Ok []
  | x :: l' =>
      y <~ f x ;;
      ys <~ comprehension f l' ;;
      Ok (y :: ys)
  end.

(** ** Constraints *)

Class Constraint (C : Type) := constraint_header : C -> string.

Module PreferenceConstraint.
Record t : Set := { header : string; max_pref : Z }.
Definition is_satisfied (self : t) (pref : pyvalue) : result bool :=
  n <~ py_int pref ;; Ok (n <=? max_pref self).
End PreferenceConstraint.

Module CountConstraint.
Record t : Set := {
  header : string;
  value : string;
  min_count : Z;
  max_count : Z
}.
Definition is_match (self : t) (v : pyvalue) : bool :=
  match v with
  | PyStr s => String.eqb s (value self)
  | PyDict _ => false
  end.
Definition is_satisfied (self : t) (count : Z) : bool :=
  (min_count self <=? count) && (count <=? max_count self).
Definition can_be_satisfied (self : t) (count availability : Z) : bool :=
  min_count self <=? count + availability.
End CountConstraint.

(** A [CountConstraint] with header "JM Count", value "" and its own
    [can_be_satisfied]. *)
Module JMCountConstraint.
Definition make (min_count max_count : Z) : CountConstraint.t :=
  {| CountConstraint.header := "JM Count";
     CountConstraint.value := "";
     CountConstraint.min_count := min_count;
     CountConstraint.max_count := max_count |}.
Definition can_be_satisfied (self : CountConstraint.t)
    (count availability : Z) : bool :=
  count + availability =? CountConstraint.max_count self.
End JMCountConstraint.

Module DifferenceConstraint.
Record t : Set := { header : string; max_diff : Z }.
Definition is_satisfied (self : t) (val1 val2 : pyvalue) : result bool :=
  n1 <~ py_int val1 ;;
  n2 <~ py_int val2 ;;
  Ok (Z.abs (n1 - n2) <=? max_diff self).
End DifferenceConstraint.

#[export] Instance PreferenceConstraint_header : Constraint PreferenceConstraint.t :=
  PreferenceConstraint.header.
#[export] Instance CountConstraint_header : Constraint CountConstraint.t :=
  CountConstraint.header.
#[export] Instance DifferenceConstraint_header : Constraint DifferenceConstraint.t :=
  DifferenceConstraint.header.

(** The module-level inputs of the script, passed explicitly. *)
Record Config : Set := {
  jm_count_constraint : CountConstraint.t;
  preference_constraints : list PreferenceConstraint.t;
  count_constraints : list CountConstraint.t;
  difference_constraints : list DifferenceConstraint.t
}.

(** The values that the script ships with. *)
Definition default_config : Config :=
  {| jm_count_constraint := JMCountConstraint.make 4 5;
     preference_constraints :=
       [ {| PreferenceConstraint.header :=
              "Please fill in your family meeting availability";
            PreferenceConstraint.max_pref := 2 |} ];
     count_constraints :=
       [ {| CountConstraint.header := "Gender";
            CountConstraint.value := "Female";
            CountConstraint.min_count := 2;
            CountConstraint.max_count := 3 |} ];
     difference_constraints :=
       [ {| DifferenceConstraint.header :=
              "How social do you want your family to be?";
            DifferenceConstraint.max_diff := 1 |} ] |}.

Definition MAX_ITERS : nat := 100.

Section Utils.

Variable config : Config.

Definition is_preference (header : string) : bool :=
  existsb (fun c => py_in (constraint_header c) header)
          (preference_constraints config).

Definition is_count (header : string) : bool :=
  existsb (fun c => String.eqb header (constraint_header c))
          (count_constraints config).

Definition is_difference (header : string) : bool :=
  existsb (fun c => String.eqb header (constraint_header c))
          (difference_constraints config).

End Utils.

Definition get_constraint {C : Type} `{Constraint C} (header : string)
    (constraints : list C) : option C :=
  List.find (fun c => String.eqb header (constraint_header c)) constraints.

(** ** Data models *)

Module DataValue.
Record t : Type := { header : string; value : pyvalue }.
End DataValue.

Definition find_datavalue (data : list DataValue.t) (header : string)
    : option DataValue.t :=
  List.find (fun dv => String.eqb (DataValue.header dv) header) data.

Module SMs.
Record t : Type := { sms : list string; data : list DataValue.t }.
Definition init : t := {| sms := []; data := [] |}.
Definition get_datavalue (self : t) (header : string) : option DataValue.t :=
  find_datavalue (data self) header.
End SMs.

(** A junior mentor.  The class defines no equality, so [==], [in] and
    [list.remove] compare objects by identity: [oid] stands for the
    identity of the object. *)
Module JM.
Record t : Type := { oid : nat; name : string; data : list DataValue.t }.
Definition get_datavalue (self : t) (header : string) : option DataValue.t :=
  find_datavalue (data self) header.
(** [a is b] *)
Definition is_ (a b : t) : bool := Nat.eqb (oid a) (oid b).
End JM.

(** [jm in l] *)
Definition jm_in (jm : JM.t) (l : list JM.t) : bool :=
  existsb (JM.is_ jm) l.

(** [l.remove(x)]: the list without the first element equal to [x], or
    nothing when there is none (ValueError). *)
Fixpoint list_remove {A : Type} (eqb : A -> A -> bool) (x : A) (l : list A)
    : option (list A) :=
  match l with
  | [] => None
  | y :: l' =>
      if eqb y x then Some l' else cons y <$> list_remove eqb x l'
  end.

Definition jms_remove (jm : JM.t) (l : list JM.t) : option (list JM.t) :=
  list_remove JM.is_ jm l.

Inductive FamilyStatus : Set := INCOMPLETE | COMPLETE.

Definition status_eqb (a b : FamilyStatus) : bool :=
  match a, b with
  | INCOMPLETE, INCOMPLETE | COMPLETE, COMPLETE => true
  | _, _ => false
  end.

Inductive cell : Type :=
| CellStr (s : string)
| CellBool (b : bool).

Module Family.

Record t : Type := {
  sms : SMs.t;
  jms : list JM.t;
  status : FamilyStatus
}.

Definition init : t :=
  {| sms := SMs.init; jms := []; status := INCOMPLETE |}.

Definition set_jms (self : t) (l : list JM.t) : t :=
  {| sms := sms self; jms := l; status := status self |}.

Definition set_status (self : t) (st : FamilyStatus) : t :=
  {| sms := sms self; jms := jms self; status := st |}.

Section Methods.

Variable config : Config.

Definition get_availability (self : t) : Z :=
  CountConstraint.max_count (jm_count_constraint config) - len (jms self).

(** [constraint.is_satisfied(dv.value[sm_dv.value])] with [constraint]
    looked up among the preference constraints *)
Definition preference_compatible (sm_dv : option DataValue.t)
    (dv : DataValue.t) : result bool :=
  constraint <~ attr (get_constraint (DataValue.header dv)
                        (preference_constraints config)) ;;
  sm <~ attr sm_dv ;;
  pref <~ py_getitem (DataValue.value dv) (DataValue.value sm) ;;
  PreferenceConstraint.is_satisfied constraint pref.

(** [constraint.is_satisfied(sm_dv.value, dv.value)] with [constraint]
    looked up among the difference constraints *)
Definition difference_compatible (sm_dv : option DataValue.t)
    (dv : DataValue.t) : result bool :=
  constraint <~ attr (get_constraint (DataValue.header dv)
                        (difference_constraints config)) ;;
  sm <~ attr sm_dv ;;
  DifferenceConstraint.is_satisfied constraint
    (DataValue.value sm) (DataValue.value dv).

(** [sum([constraint.is_match(j.get_datavalue(header).value) for j in jms])] *)
Definition count_matches (constraint : CountConstraint.t) (header : string)
    (jms : list JM.t) : result Z :=
  matches <~ comprehension
               (fun j => dv <~ attr (JM.get_datavalue j header) ;;
                         Ok (CountConstraint.is_match constraint
                               (DataValue.value dv)))
               jms ;;
  Ok (len (List.filter (fun b => b) matches)).

(** The loop [for dv in jm.data] shared by the four checks: it appends
    one verdict to [compatible] per data value that a constraint
    governs.  [on_count] is what the check does with a count
    constraint. *)
Definition check_data (self : t)
    (on_count : CountConstraint.t -> DataValue.t -> result bool)
    (jm : JM.t) (compatible : list bool) : result (list bool) :=
  for_each (JM.data jm)
    (fun compatible dv =>
       let sm_dv := SMs.get_datavalue (sms self) (DataValue.header dv) in
       if is_preference config (DataValue.header dv) then
         b <~ preference_compatible sm_dv dv ;; Ok (compatible ++ [b])
       else if is_count config (DataValue.header dv) then
         constraint <~ attr (get_constraint (DataValue.header dv)
                               (count_constraints config)) ;;
         b <~ on_count constraint dv ;; Ok (compatible ++ [b])
       else if is_difference config (DataValue.header dv) then
         b <~ difference_compatible sm_dv dv ;; Ok (compatible ++ [b])
       else Ok compatible)
    compatible.

Definition jm_steal_check (self : t) (jm : JM.t) (jms : list JM.t)
    : result bool :=
  compatible <~
    check_data self
      (fun constraint dv =>
         count <~ count_matches constraint (DataValue.header dv) jms ;;
         Ok (CountConstraint.is_satisfied constraint count))
      jm [] ;;
  Ok (all compatible).

Definition jm_swap_check (self : t) (jm : JM.t) (jms : list JM.t)
    : result bool :=
  let good_family_size :=
    JMCountConstraint.can_be_satisfied (jm_count_constraint config)
      (len (Family.jms self)) (get_availability self) in
  compatible <~
    check_data self
      (fun constraint dv =>
         count <~ count_matches constraint (DataValue.header dv) jms ;;
         if status_eqb (status self) COMPLETE
         then Ok (CountConstraint.is_satisfied constraint count)
         else Ok (CountConstraint.can_be_satisfied constraint count
                    (get_availability self)))
      jm [good_family_size] ;;
  Ok (all compatible).

Definition jm_add_check (self : t) (jm : JM.t) : result bool :=
  let good_family_size :=
    JMCountConstraint.can_be_satisfied (jm_count_constraint config)
      (len (jms self) + 1) (Z.max (get_availability self - 1) 0) in
  compatible <~
    check_data self
      (fun constraint dv =>
         count <~ count_matches constraint (DataValue.header dv) (jms self) ;;
         let count :=
           count + (if CountConstraint.is_match constraint (DataValue.value dv)
                    then 1 else 0) in
         Ok (CountConstraint.can_be_satisfied constraint count
               (Z.max (get_availability self - 1) 0)))
      jm [good_family_size] ;;
  Ok (all compatible).

Definition full_check (self : t) : result bool :=
  compatible <~
    for_each (jms self)
      (fun compatible jm =>
         check_data self
           (fun constraint dv =>
              count <~ count_matches constraint (DataValue.header dv)
                         (jms self) ;;
              Ok (CountConstraint.is_satisfied constraint count))
           jm compatible)
      [CountConstraint.is_satisfied (jm_count_constraint config)
         (len (jms self))] ;;
  Ok (all compatible).

(** [update_status] returns nothing; it either stores the new status or
    lets the exception of [full_check] through, the object untouched. *)
Definition update_status (self : t) : result t :=
  ok <~ full_check self ;;
  Ok (set_status self (if ok then COMPLETE else INCOMPLETE)).

(** The three mutators.  Each returns the object as it is left, with
    what the call returned or raised: a mutation made before an
    exception stays. *)
Definition add_jm (self : t) (jm : JM.t) : t * result bool :=
  let self1 := set_jms self (jms self ++ [jm]) in
  match update_status self1 with
  | Ok self2 => (self2, Ok true)
  | Raise _ =>
      let self2 :=
        if jm_in jm (jms self1)
        then match jms_remove jm (jms self1) with
             | Some l => set_jms self1 l
             | None => self1
             end
        else self1 in
      match update_status self2 with
      | Ok self3 => (self3, Ok false)
      | Raise e => (self2, Raise e)
      end
  end.

(** The [try] block of [swap_jm]. *)
Definition swap_attempt (self : t) (jm_outgoing jm_incoming : JM.t)
    : t * result bool :=
  match jms_remove jm_outgoing (jms self) with
  | None => (self, Raise ValueError)
  | Some l =>
      let self1 := set_jms self (l ++ [jm_incoming]) in
      match update_status self1 with
      | Ok self2 => (self2, Ok true)
      | Raise e => (self1, Raise e)
      end
  end.

Definition swap_jm (self : t) (jm_outgoing jm_incoming : JM.t)
    : t * result bool :=
  match swap_attempt self jm_outgoing jm_incoming with
  | (self1, Ok b) => (self1, Ok b)
  | (self1, Raise _) =>
      let self2 :=
        if negb (jm_in jm_outgoing (jms self1))
        then set_jms self1 (jms self1 ++ [jm_outgoing]) else self1 in
      let self3 :=
        if jm_in jm_incoming (jms self2)
        then match jms_remove jm_incoming (jms self2) with
             | Some l => set_jms self2 l
             | None => self2
             end
        else self2 in
      match update_status self3 with
      | Ok self4 => (self4, Ok false)
      | Raise e => (self3, Raise e)
      end
  end.

(** The [try] block of [remove_jm]. *)
Definition remove_attempt (self : t) (jm : JM.t) : t * result bool :=
  match jms_remove jm (jms self) with
  | None => (self, Raise ValueError)
  | Some l =>
      let self1 := set_jms self l in
      match update_status self1 with
      | Ok self2 => (self2, Ok true)
      | Raise e => (self1, Raise e)
      end
  end.

Definition remove_jm (self : t) (jm : JM.t) : t * result bool :=
  match remove_attempt self jm with
  | (self1, Ok b) => (self1, Ok b)
  | (self1, Raise _) =>
      let self2 :=
        if negb (jm_in jm (jms self1))
        then set_jms self1 (jms self1 ++ [jm]) else self1 in
      match update_status self2 with
      | Ok self3 => (self3, Ok false)
      | Raise e => (self2, Raise e)
      end
  end.

Definition allow_steal (self : t) (jm : JM.t) : result bool :=
  let without_jm := List.filter (fun j => negb (JM.is_ j jm)) (jms self) in
  checks <~ comprehension (fun j => jm_steal_check self j without_jm)
              without_jm ;;
  Ok (all checks &&
      CountConstraint.is_satisfied (jm_count_constraint config)
        (len (jms self) - 1)).

Definition allow_swap (self : t) (jm_outgoing jm_incoming : JM.t)
    : result bool :=
  let with_swapped_jms :=
    map (fun j => if JM.is_ j jm_outgoing then jm_incoming else j)
        (jms self) in
  checks <~ comprehension (fun j => jm_swap_check self j with_swapped_jms)
              with_swapped_jms ;;
  Ok (all checks).

End Methods.

(** The row of a family in the short report. *)
Definition short_output (self : t) : list cell :=
  map CellStr (SMs.sms (sms self))
  ++ [CellBool (status_eqb (status self) COMPLETE)]
  ++ map (fun j => CellStr (JM.name j)) (jms self).

End Family.

(** ** The controller *)

Module FamilyMatcher.

(** [self.families] holds the family objects, and the lists
    [incomplete_families] and [complete_families] of [iterate] hold
    references to the same objects.  A reference is the position of the
    object in [self.families], a list that no pass changes. *)
Record t : Type := { families : list Family.t; stray_jms : list JM.t }.

Definition family (self : t) (ref : nat) : Family.t :=
  default Family.init (families self !! ref).

Definition set_family (self : t) (ref : nat) (f : Family.t) : t :=
  {| families := <[ref := f]> (families self);
     stray_jms := stray_jms self |}.

Definition set_stray_jms (self : t) (l : list JM.t) : t :=
  {| families := families self; stray_jms := l |}.

(** [for family in self.families] visits these references. *)
Definition refs (self : t) : list nat := seq 0 (length (families self)).

(** A call [family.method(...)] as the controller makes it: the object is
    updated in place, the returned flag is dropped, an exception goes
    through. *)
Definition call (self : t) (ref : nat)
    (method : Family.t -> Family.t * result bool) : result t :=
  match method (family self ref) with
  | (f, Ok _) => Ok (set_family self ref f)
  | (_, Raise e) => Raise e
  end.

(** [for assigned_jm in assigned: self.stray_jms.remove(assigned_jm)] *)
Definition remove_strays (self : t) (assigned : list JM.t) : result t :=
  for_each assigned
    (fun self assigned_jm =>
       match jms_remove assigned_jm (stray_jms self) with
       | Some l => Ok (set_stray_jms self l)
       | None => Raise ValueError
       end)
    self.

Definition split_families_by_status (self : t)
    (incomplete_families complete_families : list nat)
    : list nat * list nat :=
  foldl (fun '((incomplete_families, complete_families)
                : list nat * list nat) f =>
           if status_eqb (Family.status (family self f)) COMPLETE
           then (incomplete_families, complete_families ++ [f])
           else (incomplete_families ++ [f], complete_families))
        (incomplete_families, complete_families) (refs self).

Definition promote_families_by_status (self : t)
    (incomplete_families complete_families : list nat)
    : result (list nat * list nat) :=
  let '(complete_families, promoted) :=
    foldl (fun '((complete_families, promoted) : list nat * list nat) f =>
             if status_eqb (Family.status (family self f)) COMPLETE
             then (complete_families ++ [f], promoted ++ [f])
             else (complete_families, promoted))
          (complete_families, []) incomplete_families in
  incomplete_families <~
    for_each promoted
      (fun incomplete_families promoted_family =>
         match list_remove Nat.eqb promoted_family incomplete_families with
         | Some l => Ok l
         | None => Raise ValueError
         end)
      incomplete_families ;;
  Ok (incomplete_families, complete_families).

Section Methods.

Variable config : Config.

Definition size_satisfied (f : Family.t) : bool :=
  CountConstraint.is_satisfied (jm_count_constraint config)
    (len (Family.jms f)).

(** The body of the loop [for jm in self.stray_jms] of
    [assign_perfect_fits]. *)
Definition assign_fit (self : t) (assigned : list JM.t) (jm : JM.t)
    : result (t * list JM.t) :=
  r <~ for_each (refs self)
         (fun '((self, fit_found, assigned) : t * bool * list JM.t) family =>
            if fit_found then Ok (self, fit_found, assigned)
            else
              fits <~ Family.jm_add_check config
                        (FamilyMatcher.family self family) jm ;;
              if fits then
                self' <~ call self family
                           (fun f => Family.add_jm config f jm) ;;
                Ok (self', true, assigned ++ [jm])
              else Ok (self, fit_found, assigned))
         (self, false, assigned) ;;
  Ok (r.1.1, r.2).

Definition assign_perfect_fits (self : t) : result t :=
  r <~ for_each (stray_jms self)
         (fun '((self, assigned) : t * list JM.t) jm =>
            assign_fit self assigned jm)
         (self, []) ;;
  remove_strays r.1 r.2.

(** The body of the loop [for i in incomplete_families] of
    [perfect_stray_adds]. *)
Definition stray_adds_into (self : t) (i : nat) : result t :=
  r <~ for_each (stray_jms self)
         (fun '((self, assigned) : t * list JM.t) jm =>
            if size_satisfied (family self i) then Ok (self, assigned)
            else
              fits <~ Family.jm_add_check config (family self i) jm ;;
              if fits then
                self' <~ call self i (fun f => Family.add_jm config f jm) ;;
                Ok (self', assigned ++ [jm])
              else Ok (self, assigned))
         (self, []) ;;
  remove_strays r.1 r.2.

Definition perfect_stray_adds (self : t)
    (incomplete_families complete_families : list nat)
    : result (t * (list nat * list nat)) :=
  self' <~ for_each incomplete_families stray_adds_into self ;;
  lists <~ promote_families_by_status self'
             incomplete_families complete_families ;;
  Ok (self', lists).

(** The loop [for jm in c.jms] of [perfect_steals]: the first member of
    [c] that passes the four tests, if any. *)
Definition find_stolen (self : t) (i c : nat) : result (option JM.t) :=
  for_each (Family.jms (family self c))
    (fun stolen jm =>
       match stolen with
       | Some _ => Ok stolen
       | None =>
           if size_satisfied (family self i) then Ok None
           else
             fits <~ Family.jm_add_check config (family self i) jm ;;
             if fits then
               allowed <~ Family.allow_steal config (family self c) jm ;;
               Ok (if allowed then Some jm else None)
             else Ok None
       end)
    None.

(** The loop [for c in complete_families] of [perfect_steals], which
    [break] leaves after the first steal. *)
Fixpoint steal_for (self : t) (i : nat) (complete_families : list nat)
    : result t :=
  match complete_families with
  | [] => Ok self
  | c :: rest =>
      stolen <~ find_stolen self i c ;;
      match stolen with
      | Some jm =>
          self1 <~ call self i (fun f => Family.add_jm config f jm) ;;
          call self1 c (fun f => Family.remove_jm config f jm)
      | None => steal_for self i rest
      end
  end.

Definition perfect_steals (self : t)
    (incomplete_families complete_families : list nat)
    : result (t * (list nat * list nat)) :=
  self' <~ for_each incomplete_families
             (fun self i => steal_for self i complete_families) self ;;
  lists <~ promote_families_by_status self'
             incomplete_families complete_families ;;
  Ok (self', lists).

(** The two loops [for jm in i.jms: for other_jm in f.jms] of
    [perfect_swaps]. *)
Definition find_swap (self : t) (i f : nat)
    : result (option (JM.t * JM.t)) :=
  for_each (Family.jms (family self i))
    (fun found jm =>
       for_each (Family.jms (family self f))
         (fun found other_jm =>
            match found with
            | Some _ => Ok found
            | None =>
                this_way <~ Family.allow_swap config (family self i)
                              jm other_jm ;;
                if this_way then
                  that_way <~ Family.allow_swap config (family self f)
                                other_jm jm ;;
                  Ok (if that_way then Some (jm, other_jm) else None)
                else Ok None
            end)
         found)
    None.

Definition swap_between (self : t) (i f : nat) : result t :=
  found <~ find_swap self i f ;;
  match found with
  | Some (swap_this, swap_other) =>
      self1 <~ call self i
                 (fun x => Family.swap_jm config x swap_this swap_other) ;;
      call self1 f (fun x => Family.swap_jm config x swap_other swap_this)
  | None => Ok self
  end.

Definition perfect_swaps (self : t)
    (incomplete_families complete_families : list nat)
    : result (t * (list nat * list nat)) :=
  self' <~ for_each incomplete_families
             (fun self i =>
                for_each (refs self)
                  (fun self f => swap_between self i f) self)
             self ;;
  lists <~ promote_families_by_status self'
             incomplete_families complete_families ;;
  Ok (self', lists).

Definition stray_swap (self : t) (jm_from_family jm_to_family : JM.t)
    : result t :=
  match jms_remove jm_to_family (stray_jms self) with
  | Some l => Ok (set_stray_jms self (l ++ [jm_from_family]))
  | None => Raise ValueError
  end.

Definition find_stray_swap (self : t) (f : nat)
    : result (option (JM.t * JM.t)) :=
  for_each (Family.jms (family self f))
    (fun found jm =>
       for_each (stray_jms self)
         (fun found stray =>
            match found with
            | Some _ => Ok found
            | None =>
                allowed <~ Family.allow_swap config (family self f)
                             jm stray ;;
                Ok (if allowed then Some (jm, stray) else None)
            end)
         found)
    None.

Definition swap_with_stray (self : t) (f : nat) : result t :=
  found <~ find_stray_swap self f ;;
  match found with
  | Some (swap_family, swap_stray) =>
      self1 <~ call self f
                 (fun x => Family.swap_jm config x swap_family swap_stray) ;;
      stray_swap self1 swap_family swap_stray
  | None => Ok self
  end.

Definition perfect_stray_swaps (self : t)
    (incomplete_families complete_families : list nat)
    : result (t * (list nat * list nat)) :=
  self' <~ for_each (refs self) swap_with_stray self ;;
  lists <~ promote_families_by_status self'
             incomplete_families complete_families ;;
  Ok (self', lists).

(** The body of the loop of [iterate]: one full pass. *)
Definition pass (self : t) : result t :=
  self <~ assign_perfect_fits self ;;
  let lists := split_families_by_status self [] [] in
  r <~ perfect_stray_adds self lists.1 lists.2 ;;
  r <~ perfect_steals r.1 r.2.1 r.2.2 ;;
  r <~ perfect_swaps r.1 r.2.1 r.2.2 ;;
  r <~ perfect_stray_swaps r.1 r.2.1 r.2.2 ;;
  Ok r.1.

(** [for _ in range(MAX_ITERS)] *)
Definition iterate (self : t) : result t :=
  for_each (seq 0 MAX_ITERS) (fun self _ => pass self) self.

End Methods.

End FamilyMatcher.

End OldMatcher.

(** * What the properties are stated with *)

Module MatcherSpec.

Import Matcher.

(** The identities of the agents and of the slots of an input. *)
Definition user_ids (jm_users : list User) : list string := map u_id jm_users.
Definition slot_ids (slots : list Slot) : list string := map s_id slots.

(** The preference that [get_optimization] reads for a pair: the value of
    the last record of the pair, 0 when there is none. *)
Definition recorded (preferences : list JMPreference) (uid sid : string) : Z :=
  default 0 (preference_map preferences !! (uid, sid)).

(** The constraints that [get_optimization] builds, written out. *)
Definition row (pm : gmap key Z) (slots : list Slot) (user : User)
    : list expr :=
  map (fun slot => assign_cell pm (u_id user) (s_id slot)) slots.

Definition column (pm : gmap key Z) (jm_users : list User) (slot : Slot)
    : list expr :=
  map (fun user => assign_cell pm (u_id user) (s_id slot)) jm_users.

Definition built_constraints (pm : gmap key Z) (jm_users : list User)
    (slots : list Slot) (config : MatcherConfig) : list constraint :=
  map (fun user => SumEq (row pm slots user) 1) jm_users
  ++ flat_map (fun slot =>
                 [LowerBound (min_family_size config) (column pm jm_users slot);
                  UpperBound (column pm jm_users slot) (max_family_size config)])
              slots.

(** The inner loop of [build_assignment] for one user. *)
Definition fill_row (pm : gmap key Z) (uid : string) (a : gmap key expr)
    (slots : list Slot) : gmap key expr :=
  foldl (fun a slot => <[(uid, s_id slot) := assign_cell pm uid (s_id slot)]> a)
        a slots.

Definition cell_ok (pm : gmap key Z) (a : gmap key expr) (k : key) : Prop :=
  a !! k = Some (assign_cell pm k.1 k.2).

(** Whether the solver's values select a slot for an agent: the test of the
    inner loop of [run_matcher]. *)
Definition selects (pm : gmap key Z) (v : valuation) (uid sid : string)
    : bool :=
  match assign_cell pm uid sid with
  | CpConstant _ => false
  | CpVariable k => Qltb EPS (v k)
  end.

(** Whether a mapping sends an agent to the slot of a given identity, and
    the number of agents of the input that it sends there. *)
Definition sent_to (m : gmap string Slot) (sid : string) (user : User)
    : bool :=
  match m !! u_id user with
  | Some slot => String.eqb (s_id slot) sid
  | None => false
  end.

Definition family_size (m : gmap string Slot) (jm_users : list User)
    (sid : string) : Z :=
  Z.of_nat (length (List.filter (sent_to m sid) jm_users)).

(** A solver is trusted when what it returns is feasible. *)
Definition sound_on (solve : list (Z * expr) -> list constraint -> option valuation)
    (objective : list (Z * expr)) (constraints : list constraint) : Prop :=
  forall v, solve objective constraints = Some v ->
            feasibleb constraints v = true.

(** No 0/1 values satisfy the constraints. *)
Definition infeasible (constraints : list constraint) : Prop :=
  forall v, feasibleb constraints v = false.

(** A preference record that names an agent and a slot of the input. *)
Definition known (jm_users : list User) (slots : list Slot)
    (p : JMPreference) : bool :=
  bool_decide (user_id p ∈ user_ids jm_users)
  && bool_decide (slot_id p ∈ slot_ids slots).

End MatcherSpec.

(** * Sample inputs *)

Module MatcherExamples.

Import Matcher.

Local Open Scope string_scope.

Definition user (id : string) : User :=
  {| u_id := id; u_name := "JM " ++ id; sociability := 3 |}.

Definition slot (id : string) : Slot :=
  {| s_id := id; time := "slot " ++ id; sm_list := ["SM " ++ id] |}.

Definition pref (uid sid : string) (rank : Z) : JMPreference :=
  {| user_id := uid; slot_id := sid; value := rank |}.

Definition sizes (lo hi : Z) : MatcherConfig :=
  {| min_family_size := lo; max_family_size := hi; sociability_bias := 1 |}.

(** Four agents and two slots of two members each. *)
Definition four_users : list User := [user "a"; user "b"; user "c"; user "d"].
Definition two_slots : list Slot := [slot "0"; slot "1"].
Definition eight_prefs : list JMPreference :=
  [pref "a" "0" 1; pref "a" "1" 2; pref "b" "0" 1; pref "b" "1" 2;
   pref "c" "0" 2; pref "c" "1" 1; pref "d" "0" 2; pref "d" "1" 1].
Definition four_matched : gmap string Slot :=
  <["a" := slot "0"]> (<["b" := slot "0"]>
    (<["c" := slot "1"]> (<["d" := slot "1"]> ∅))).

(** Two agents, the second of which has a positive rank for no slot. *)
Definition picky_users : list User := [user "a"; user "b"].
Definition picky_prefs : list JMPreference :=
  [pref "a" "0" 1; pref "b" "0" 0; pref "b" "1" (-1)].

(** Agent "a" rules slot "1" out, and agent "b" has no record for
    slot "0". *)
Definition apart_prefs : list JMPreference :=
  [pref "a" "0" 1; pref "a" "1" 0; pref "b" "1" 2].
Definition apart_matched : gmap string Slot :=
  <["a" := slot "0"]> (<["b" := slot "1"]> ∅).

(** One agent who wants the only slot, which needs two members. *)
Definition lonely_users : list User := [user "a"].
Definition lonely_prefs : list JMPreference := [pref "a" "0" 1].

(** The same agent listed twice. *)
Definition twin_users : list User := [user "a"; user "a"].

(** Records that name an agent and a slot that the input does not have. *)
Definition stray_prefs : list JMPreference :=
  [pref "a" "0" 1; pref "zz" "0" 1; pref "a" "9" 1].

End MatcherExamples.

Module OldMatcherExamples.

Import OldMatcher.

Local Open Scope string_scope.

(** The three headers of the sample sheets. *)
Definition availability : string :=
  "Please fill in your family meeting availability".
Definition gender : string := "Gender".
Definition social : string := "How social do you want your family to be?".

Definition datavalue (header : string) (value : pyvalue) : DataValue.t :=
  {| DataValue.header := header; DataValue.value := value |}.

(** A junior mentor as [JM.load_data] builds it from a row: the ratings of
    the availability options, the gender and the sociability. *)
Definition mentor (oid : nat) (name : string)
    (ratings : list (string * string)) (g s : string) : JM.t :=
  {| JM.oid := oid; JM.name := name;
     JM.data := [datavalue availability (PyDict (list_to_map ratings));
                 datavalue gender (PyStr g);
                 datavalue social (PyStr s)] |}.

(** A pair of senior mentors as [SMs.load_data] builds it. *)
Definition pair (sm1 sm2 day s : string) : SMs.t :=
  {| SMs.sms := [sm1; sm2];
     SMs.data := [datavalue availability (PyStr day);
                  datavalue social (PyStr s)] |}.

Definition family_of (sms : SMs.t) (jms : list JM.t)
    (status : FamilyStatus) : Family.t :=
  {| Family.sms := sms; Family.jms := jms; Family.status := status |}.

Definition monday : SMs.t := pair "Ada" "Bob" "Mon" "3".
Definition tuesday : SMs.t := pair "Eve" "Fay" "Tue" "3".
Definition friday : SMs.t := pair "Gus" "Hal" "Fri" "3".

Definition amy : JM.t := mentor 1 "Amy" [("Mon", "1")] "Female" "3".
Definition ben : JM.t := mentor 2 "Ben" [("Mon", "2")] "Male" "2".
(** Cat has no rating for Monday. *)
Definition cat : JM.t := mentor 3 "Cat" [("Tue", "1")] "Female" "3".
(** Dan rates Monday above the threshold of 2. *)
Definition dan : JM.t := mentor 4 "Dan" [("Mon", "3")] "Male" "3".
(** Zed rates Monday 0: no positive rating for any family. *)
Definition zed : JM.t := mentor 0 "Zed" [("Mon", "0")] "Male" "3".

Definition eva : JM.t := mentor 5 "Eva" [("Mon", "1")] "Female" "4".
Definition fin : JM.t := mentor 6 "Fin" [("Mon", "2")] "Male" "3".

(** Four mentors that make a complete Monday family. *)
Definition monday_four : list JM.t := [amy; ben; eva; fin].

Definition ida : JM.t := mentor 8 "Ida" [("Mon", "2")] "Female" "3".

(** Five mentors that make a complete Monday family, which stays complete
    without Ben. *)
Definition monday_five : list JM.t := [amy; ben; eva; fin; ida].

(** Gil's sheet has a column whose header contains the header of the
    preference constraint and more. *)
Definition gil : JM.t :=
  {| JM.oid := 7; JM.name := "Gil";
     JM.data := [datavalue (availability ++ " (evenings)")
                   (PyDict (list_to_map [("Mon", "1")]))] |}.

Definition matcher_of (families : list Family.t) (stray_jms : list JM.t)
    : FamilyMatcher.t :=
  {| FamilyMatcher.families := families;
     FamilyMatcher.stray_jms := stray_jms |}.

(** A configuration with room between the bounds of the family size and
    no other constraint. *)
Definition one_to_three : Config :=
  {| jm_count_constraint := JMCountConstraint.make 1 3;
     preference_constraints := [];
     count_constraints := [];
     difference_constraints := [] |}.

End OldMatcherExamples.

Module OldMatcherSpec.

Import OldMatcher.

Local Open Scope list_scope.

(** The senior mentors of the families of a matcher, in order. *)
Definition sms_of (self : FamilyMatcher.t) : list SMs.t :=
  map Family.sms (FamilyMatcher.families self).

(** The status of a family is current when it is what [full_check] says
    of its members. *)
Definition current (config : Config) (f : Family.t) : Prop :=
  Family.status f = COMPLETE <-> Family.full_check config f = Ok true.

(** A configuration with the constraint on the family size only. *)
Definition size_only (config : Config) : Prop :=
  preference_constraints config = []
  /\ count_constraints config = []
  /\ difference_constraints config = [].

(** The members of a family without those that are the object [jm]. *)
Definition without (jm : JM.t) (jms : list JM.t) : list JM.t :=
  List.filter (fun j => negb (JM.is_ j jm)) jms.

(** One iteration of the loop [for dv in jm.data] of the checks. *)
Definition check_step (config : Config) (self : Family.t)
    (on_count : CountConstraint.t -> DataValue.t -> result bool)
    (compatible : list bool) (dv : DataValue.t) : result (list bool) :=
  let sm_dv := SMs.get_datavalue (Family.sms self) (DataValue.header dv) in
  if is_preference config (DataValue.header dv) then
    b <~ Family.preference_compatible config sm_dv dv ;;
    Ok (compatible ++ [b])
  else if is_count config (DataValue.header dv) then
    constraint <~ attr (get_constraint (DataValue.header dv)
                          (count_constraints config)) ;;
    b <~ on_count constraint dv ;; Ok (compatible ++ [b])
  else if is_difference config (DataValue.header dv) then
    b <~ Family.difference_compatible config sm_dv dv ;;
    Ok (compatible ++ [b])
  else Ok compatible.

(** A mentor rates the option of a pair of senior mentors above the
    threshold of a preference constraint. *)
Definition rated_too_high (config : Config) (sms : SMs.t) (jm : JM.t)
    : Prop :=
  exists dv,
    dv ∈ JM.data jm
    /\ is_preference config (DataValue.header dv) = true
    /\ Family.preference_compatible config
         (SMs.get_datavalue sms (DataValue.header dv)) dv = Ok false.

End OldMatcherSpec.

Module MatcherCount.

Import Matcher.

(** The members of the family of a slot in a returned mapping: the number
    of entries of the mapping whose slot has the identity of that slot. *)
Definition members (m : gmap string Slot) (sid : string) : Z :=
  Z.of_nat (length (List.filter
                      (fun kv : string * Slot => String.eqb (s_id kv.2) sid)
                      (map_to_list m))).

End MatcherCount.

Module OldMatcherState.

Import OldMatcher.

Local Open Scope Z_scope.
Local Open Scope list_scope.

(** Every mentor of a matcher, stray or member of a family, has a
    property. *)
Definition all_mentors (P : JM.t -> Prop) (self : FamilyMatcher.t) : Prop :=
  Forall P (FamilyMatcher.stray_jms self)
  /\ Forall (fun f => Forall P (Family.jms f)) (FamilyMatcher.families self).

(** The identities of the mentors of a matcher, stray mentors first. *)
Definition mentor_ids (self : FamilyMatcher.t) : list nat :=
  map JM.oid (FamilyMatcher.stray_jms self)
  ++ concat (map (fun f => map JM.oid (Family.jms f))
                 (FamilyMatcher.families self)).

(** A record with the identity of the object [jm] is [jm]: the identity
    names one object. *)
Definition same_object (jm x : JM.t) : Prop :=
  JM.is_ jm x = true -> x = jm.

(** A family with the status COMPLETE passes [full_check]. *)
Definition sound_status (config : Config) (f : Family.t) : Prop :=
  Family.status f = COMPLETE -> Family.full_check config f = Ok true.

(** One visit of a receiver [i] in the pass of steals: nothing changes, no
    donor having a member to give, or one member goes from the first donor
    that has one to the receiver. *)
Definition steal_visit (config : Config) (complete : list nat)
    (self : FamilyMatcher.t) (i : nat) (self' : FamilyMatcher.t) : Prop :=
  (self' = self
   /\ Forall (fun c => FamilyMatcher.find_stolen config self i c = Ok None)
             complete)
  \/ exists before c after jm self1,
       complete = before ++ c :: after
       /\ Forall (fun c' => FamilyMatcher.find_stolen config self i c'
                            = Ok None) before
       /\ FamilyMatcher.find_stolen config self i c = Ok (Some jm)
       /\ FamilyMatcher.size_satisfied config (FamilyMatcher.family self i)
          = false
       /\ Family.jm_add_check config (FamilyMatcher.family self i) jm
          = Ok true
       /\ Family.allow_steal config (FamilyMatcher.family self c) jm
          = Ok true
       /\ (exists earlier later,
             Family.jms (FamilyMatcher.family self c)
             = earlier ++ jm :: later
             /\ Forall (fun j =>
                          Family.jm_add_check config
                            (FamilyMatcher.family self i) j = Ok false
                          \/ Family.allow_steal config
                               (FamilyMatcher.family self c) j = Ok false)
                       earlier)
       /\ FamilyMatcher.call self i (fun f => Family.add_jm config f jm)
          = Ok self1
       /\ FamilyMatcher.call self1 c (fun f => Family.remove_jm config f jm)
          = Ok self'.

(** The visits of the receivers of a list, one after the other. *)
Fixpoint steal_visits (config : Config) (complete : list nat)
    (self : FamilyMatcher.t) (incomplete : list nat)
    (self' : FamilyMatcher.t) : Prop :=
  match incomplete with
  | [] => self' = self
  | i :: rest =>
      exists self1,
        steal_visit config complete self i self1
        /\ steal_visits config complete self1 rest self'
  end.

(** The test of one value of a mentor against a pair of senior mentors
    returns a verdict: the value is not under a preference or a difference
    constraint, or the test of that constraint raises nothing. *)
Definition value_checks (config : Config) (sms : SMs.t) (dv : DataValue.t)
    : bool :=
  let sm_dv := SMs.get_datavalue sms (DataValue.header dv) in
  if is_preference config (DataValue.header dv) then
    is_ok (Family.preference_compatible config sm_dv dv)
  else if is_count config (DataValue.header dv) then true
  else if is_difference config (DataValue.header dv) then
    is_ok (Family.difference_compatible config sm_dv dv)
  else true.

Definition checkable (config : Config) (sms : SMs.t) (jm : JM.t) : bool :=
  forallb (value_checks config sms) (JM.data jm).

(** The mentor has a value under the header of every count constraint. *)
Definition counted (config : Config) (jm : JM.t) : bool :=
  forallb (fun c : CountConstraint.t =>
             match JM.get_datavalue jm (CountConstraint.header c) with
             | Some _ => true
             | None => false
             end)
          (count_constraints config).

(** The data of a mentor can be checked against each of the pairs of
    senior mentors. *)
Definition fits_all (config : Config) (pairs : list SMs.t) (jm : JM.t)
    : Prop :=
  counted config jm = true
  /\ Forall (fun sms => checkable config sms jm = true) pairs.

(** A matcher whose families have the given pairs of senior mentors,
    whose mentors can be checked against each of them, and whose families
    have a current status. *)
Definition settled (config : Config) (pairs : list SMs.t)
    (self : FamilyMatcher.t) : Prop :=
  OldMatcherSpec.sms_of self = pairs
  /\ all_mentors (fits_all config pairs) self
  /\ Forall (OldMatcherSpec.current config) (FamilyMatcher.families self).

(** [n] passes, each on the result of the one before. *)
Definition passes (config : Config) (n : nat) (self : FamilyMatcher.t)
    : result FamilyMatcher.t :=
  Nat.iter n (fun r => rbind r (FamilyMatcher.pass config)) (Ok self).

(** How often a family is listed. *)
Definition listed (ref : nat) (l : list nat) : Z :=
  Z.of_nat (length (List.filter (Nat.eqb ref) l)).

(** The number of members of a family of a matcher. *)
Definition family_len (self : FamilyMatcher.t) (ref : nat) : Z :=
  len (Family.jms (FamilyMatcher.family self ref)).

End OldMatcherState.

(** * Loops *)

Lemma for_each_app {A S : Type} (l1 l2 : list A) (body : S -> A -> result S)
    (s : S) :
  for_each (l1 ++ l2) body s = (s' <~ for_each l1 body s ;; for_each l2 body s').
Proof.
  revert s. induction l1 as [|x l1 IH]; intros s; simpl; [done|].
  destruct (body s x); simpl; auto.
Qed.

(** What every iteration that returns keeps, holds when the loop returns. *)
Lemma for_each_invariant {A S : Type} (P : S -> Prop) (l : list A)
    (body : S -> A -> result S) (s s' : S) :
  (forall s0 x s1, x ∈ l -> P s0 -> body s0 x = Ok s1 -> P s1) ->
  P s -> for_each l body s = Ok s' -> P s'.
Proof.
  revert s. induction l as [|x l IH]; intros s Hstep Hs Hrun; simpl in Hrun.
  - injection Hrun as <-. exact Hs.
  - destruct (body s x) as [s1|e] eqn:Hb; simpl in Hrun; [|done].
    apply (IH s1); [|eapply Hstep; [left| |]; eauto|done].
    intros s0 y s2 Hy. apply Hstep. by right.
Qed.

Lemma for_each_ext {A S : Type} (l : list A) (f g : S -> A -> result S)
    (s : S) :
  (forall s0 x, x ∈ l -> f s0 x = g s0 x) ->
  for_each l f s = for_each l g s.
Proof.
  revert s. induction l as [|x l IH]; intros s Hfg; simpl; [done|].
  rewrite Hfg by left. destruct (g s x); simpl; [|done].
  apply IH. intros s0 y Hy. apply Hfg. by right.
Qed.

Lemma rbind_ok {A B : Type} (r : result A) (k : A -> result B) (y : B) :
  rbind r k = Ok y -> exists x, r = Ok x /\ k x = Ok y.
Proof. destruct r as [x|e]; [|done]. intros Hk. by exists x. Qed.

(** A loop raises what one of its iterations raises. *)
Lemma for_each_raise {A S : Type} (l : list A) (body : S -> A -> result S)
    (s : S) e :
  for_each l body s = Raise e ->
  exists s0 x, x ∈ l /\ body s0 x = Raise e.
Proof.
  revert s. induction l as [|x l IH]; intros s Hrun; simpl in Hrun;
    [discriminate|].
  destruct (body s x) as [s1|e1] eqn:Hb; simpl in Hrun.
  - apply IH in Hrun as (s0 & y & Hy & Hbody).
    exists s0, y. split; [by right|done].
  - injection Hrun as ->. exists s, x. split; [left|done].
Qed.

(** * The exact strategy *)

Module MatcherProofs.

Import Matcher MatcherSpec.

(** ** The dictionaries *)

Section Assignment.

Variable pm : gmap key Z.

Lemma fill_row_preserve uid slots a k :
  cell_ok pm a k -> cell_ok pm (fill_row pm uid a slots) k.
Proof.
  revert a. induction slots as [|s slots IH]; intros a Ha; simpl; [done|].
  apply IH. unfold cell_ok. destruct (decide ((uid, s_id s) = k)) as [<-|Hne].
  - by rewrite lookup_insert_eq.
  - by rewrite lookup_insert_ne.
Qed.

Lemma fill_row_establish uid slots a s :
  s ∈ slots -> cell_ok pm (fill_row pm uid a slots) (uid, s_id s).
Proof.
  revert a. induction slots as [|s' slots IH]; intros a Hs; simpl.
  - by apply elem_of_nil in Hs.
  - apply elem_of_cons in Hs as [->|Hs]; [|by apply IH].
    apply fill_row_preserve. unfold cell_ok. by rewrite lookup_insert_eq.
Qed.

Lemma fill_row_keys uid slots a k :
  is_Some (fill_row pm uid a slots !! k) ->
  is_Some (a !! k) \/ exists s, s ∈ slots /\ k = (uid, s_id s).
Proof.
  revert a. induction slots as [|s slots IH]; intros a Hk; simpl in *; [by left|].
  apply IH in Hk as [Hk|(s' & Hs' & ->)].
  - destruct (decide ((uid, s_id s) = k)) as [<-|Hne].
    + right. exists s. split; [left|done].
    + rewrite lookup_insert_ne in Hk by done. by left.
  - right. exists s'. split; [by right|done].
Qed.

Lemma build_assignment_fold users slots a :
  foldl (fun a user =>
           foldl (fun a slot =>
                    <[(u_id user, s_id slot) :=
                        assign_cell pm (u_id user) (s_id slot)]> a)
                 a slots) a users
  = foldl (fun a user => fill_row pm (u_id user) a slots) a users.
Proof. done. Qed.

Lemma build_assignment_lookup users slots u s :
  u ∈ users -> s ∈ slots ->
  build_assignment pm users slots !! (u_id u, s_id s)
  = Some (assign_cell pm (u_id u) (s_id s)).
Proof.
  unfold build_assignment. rewrite build_assignment_fold.
  generalize (∅ : gmap key expr).
  induction users as [|u' users IH]; intros a Hu Hs; simpl.
  - by apply elem_of_nil in Hu.
  - apply elem_of_cons in Hu as [->|Hu]; [|by apply IH].
    assert (Hk : cell_ok pm (fill_row pm (u_id u') a slots) (u_id u', s_id s))
      by by apply fill_row_establish.
    revert Hk. generalize (fill_row pm (u_id u') a slots).
    clear. induction users as [|u users IH]; intros a Ha; simpl; [done|].
    apply IH. by apply fill_row_preserve.
Qed.

Lemma build_assignment_keys users slots k :
  is_Some (build_assignment pm users slots !! k) ->
  exists u s, u ∈ users /\ s ∈ slots /\ k = (u_id u, s_id s).
Proof.
  unfold build_assignment. rewrite build_assignment_fold.
  assert (Hgen : forall a,
    is_Some (foldl (fun a user => fill_row pm (u_id user) a slots) a users !! k) ->
    is_Some (a !! k)
    \/ exists u s, u ∈ users /\ s ∈ slots /\ k = (u_id u, s_id s)).
  { induction users as [|u users IH]; intros a Hk; simpl in *; [by left|].
    apply IH in Hk as [Hk|(u' & s & Hu' & Hs & ->)].
    - apply fill_row_keys in Hk as [Hk|(s & Hs & ->)]; [by left|].
      right. exists u, s. split; [left|done].
    - right. exists u', s. split; [by right|done]. }
  intros Hk. apply Hgen in Hk as [Hk|Hk]; [|done].
  rewrite lookup_empty in Hk. by destruct Hk.
Qed.

End Assignment.


(** ** The formulation *)

Lemma subscript_lookup {V : Type} (m : gmap key V) (k : key) (x : V) :
  m !! k = Some x -> subscript m k = Ok x.
Proof. unfold subscript. by intros ->. Qed.

Lemma summands_ok {A : Type} (a : gmap key expr) (mk : A -> key)
    (f : A -> expr) (xs : list A) :
  (forall x, x ∈ xs -> a !! mk x = Some (f x)) ->
  summands a mk xs = Ok (map f xs).
Proof.
  induction xs as [|x xs IH]; intros Hxs; simpl; [done|].
  rewrite (subscript_lookup _ _ (f x)) by (apply Hxs; left). simpl.
  rewrite IH; [done|]. intros y Hy. apply Hxs. by right.
Qed.

Lemma user_constraints_loop (a : gmap key expr) pm slots (l : list User) cs :
  (forall u s, u ∈ l -> s ∈ slots ->
     a !! (u_id u, s_id s) = Some (assign_cell pm (u_id u) (s_id s))) ->
  for_each l
    (fun cs user =>
       total_assigned <~ summands a (fun slot => (u_id user, s_id slot)) slots ;;
       Ok (cs ++ [SumEq total_assigned 1]))
    cs
  = Ok (cs ++ map (fun user => SumEq (row pm slots user) 1) l).
Proof.
  revert cs. induction l as [|u l IH]; intros cs Ha; simpl.
  - by rewrite app_nil_r.
  - rewrite (summands_ok _ _
      (fun slot => assign_cell pm (u_id u) (s_id slot))).
    + simpl. rewrite IH.
      * by rewrite <- app_assoc.
      * intros u' s Hu' Hs. apply Ha; [by right|done].
    + intros s Hs. apply Ha; [left|done].
Qed.

Lemma slot_constraints_loop (a : gmap key expr) pm users config
    (l : list Slot) cs :
  (forall u s, u ∈ users -> s ∈ l ->
     a !! (u_id u, s_id s) = Some (assign_cell pm (u_id u) (s_id s))) ->
  for_each l
    (fun cs slot =>
       total_assigned <~ summands a (fun user => (u_id user, s_id slot)) users ;;
       Ok (cs ++ [LowerBound (min_family_size config) total_assigned;
                  UpperBound total_assigned (max_family_size config)]))
    cs
  = Ok (cs ++ flat_map
          (fun slot =>
             [LowerBound (min_family_size config) (column pm users slot);
              UpperBound (column pm users slot) (max_family_size config)])
          l).
Proof.
  revert cs. induction l as [|s l IH]; intros cs Ha; simpl.
  - by rewrite app_nil_r.
  - rewrite (summands_ok _ _
      (fun user => assign_cell pm (u_id user) (s_id s))).
    + simpl. rewrite IH.
      * by rewrite <- app_assoc.
      * intros u s' Hu Hs'. apply Ha; [done|by right].
    + intros u Hu. apply Ha; [done|left].
Qed.

(** [get_optimization] rejects no input: it returns the dictionary of
    cells, the constraints as written out, and the objective. *)
Lemma get_optimization_eq users prefs slots config :
  get_optimization users prefs slots config
  = Ok (objective_terms (preference_map prefs)
          (build_assignment (preference_map prefs) users slots),
        built_constraints (preference_map prefs) users slots config,
        build_assignment (preference_map prefs) users slots).
Proof.
  unfold get_optimization, user_constraints, slot_constraints. cbv zeta.
  rewrite (user_constraints_loop _ (preference_map prefs))
    by (intros; by apply build_assignment_lookup).
  simpl.
  rewrite (slot_constraints_loop _ (preference_map prefs))
    by (intros; by apply build_assignment_lookup).
  done.
Qed.

Lemma get_optimization_inv users prefs slots config objective constraints
    assignment :
  get_optimization users prefs slots config
  = Ok (objective, constraints, assignment) ->
  objective = objective_terms (preference_map prefs)
                (build_assignment (preference_map prefs) users slots)
  /\ constraints = built_constraints (preference_map prefs) users slots config
  /\ assignment = build_assignment (preference_map prefs) users slots.
Proof.
  rewrite get_optimization_eq. intros Hopt. by injection Hopt as <- <- <-.
Qed.

(** ** Reading the values back *)

Lemma slots_by_id_loop (l : list Slot) (m0 : gmap string Slot) k s :
  foldl (fun m slot => <[s_id slot := slot]> m) m0 l !! k = Some s ->
  m0 !! k = Some s \/ (s ∈ l /\ s_id s = k).
Proof.
  revert m0. induction l as [|x l IH]; intros m0 Hk; simpl in Hk; [by left|].
  apply IH in Hk as [Hk|[Hs Hid]].
  - destruct (decide (s_id x = k)) as [<-|Hne].
    + rewrite lookup_insert_eq in Hk. injection Hk as <-.
      right. split; [left|done].
    + rewrite lookup_insert_ne in Hk by done. by left.
  - right. split; [by right|done].
Qed.

Lemma slots_by_id_lookup slots k s :
  slots_by_id slots !! k = Some s -> s ∈ slots /\ s_id s = k.
Proof.
  intros Hk. apply slots_by_id_loop in Hk as [Hk|Hk]; [|done].
  by rewrite lookup_empty in Hk.
Qed.

Lemma slots_by_id_is_Some slots s :
  s ∈ slots -> is_Some (slots_by_id slots !! s_id s).
Proof.
  unfold slots_by_id. generalize (∅ : gmap string Slot).
  induction slots as [|x l IH]; intros m0 Hs; simpl.
  - by apply elem_of_nil in Hs.
  - apply elem_of_cons in Hs as [->|Hs]; [|by apply IH].
    assert (Hin : is_Some (<[s_id x := x]> m0 !! s_id x))
      by (rewrite lookup_insert_eq; by eexists).
    revert Hin. generalize (<[s_id x := x]> m0). clear.
    induction l as [|y l IH]; intros m Hm; simpl; [done|].
    apply IH. destruct (decide (s_id y = s_id x)) as [->|Hne].
    + rewrite lookup_insert_eq. by eexists.
    + by rewrite lookup_insert_ne.
Qed.

Section Reading.

Variable pm : gmap key Z.
Variable a : gmap key expr.
Variable slots : list Slot.

(** One iteration of the inner loop of [run_matcher], when the cell is the
    one that [get_optimization] stored. *)
Lemma selects_variable v uid sid :
  selects pm v uid sid = true ->
  assign_cell pm uid sid = CpVariable (uid, sid).
Proof.
  unfold selects, assign_cell.
  by destruct (default 0 (pm !! (uid, sid)) <=? 0).
Qed.

Lemma matched_loop_some v user (l : list Slot) (M0 : gset string) :
  (forall s, s ∈ l ->
     a !! (u_id user, s_id s) = Some (assign_cell pm (u_id user) (s_id s))) ->
  exists M,
    for_each l
      (fun matched slot =>
         assignment_obj <~ subscript a (u_id user, s_id slot) ;;
         match assignment_obj with
         | CpConstant _ => Ok matched
         | CpVariable k =>
             match Some v with
             | None => Raise TypeError
             | Some v =>
                 if Qltb EPS (v k) then Ok ({[s_id slot]} ∪ matched)
                 else Ok matched
             end
         end)
      M0 = Ok M
    /\ forall sid, sid ∈ M <->
         sid ∈ M0 \/ (sid ∈ slot_ids l /\ selects pm v (u_id user) sid = true).
Proof.
  revert M0. induction l as [|s l IH]; intros M0 Ha; simpl.
  - exists M0. split; [done|]. intros sid. split; [by left|].
    intros [?|[Hin _]]; [done|]. by apply elem_of_nil in Hin.
  - rewrite (subscript_lookup _ _ _ (Ha s ltac:(left))). simpl.
    assert (Hl : forall s', s' ∈ l ->
      a !! (u_id user, s_id s')
      = Some (assign_cell pm (u_id user) (s_id s')))
      by (intros; apply Ha; by right).
    assert (Hsel : selects pm v (u_id user) (s_id s)
                   = match assign_cell pm (u_id user) (s_id s) with
                     | CpConstant _ => false
                     | CpVariable k => Qltb EPS (v k)
                     end) by done.
    destruct (assign_cell pm (u_id user) (s_id s)) as [c|k]; simpl.
    + destruct (IH M0 Hl) as (M & HM & Hin). exists M. split; [exact HM|].
      intros sid. rewrite Hin. unfold slot_ids. simpl. rewrite elem_of_cons.
      split; [tauto|].
      intros [?|[[->|?] ?]]; [tauto|congruence|tauto].
    + destruct (Qltb EPS (v k)) eqn:Hv.
      * destruct (IH ({[s_id s]} ∪ M0) Hl) as (M & HM & Hin).
        exists M. split; [exact HM|]. intros sid. rewrite Hin.
        unfold slot_ids. simpl.
        rewrite elem_of_cons, elem_of_union, elem_of_singleton.
        split.
        -- intros [[->|?]|[? ?]]; [|tauto|tauto].
           right. split; [by left|congruence].
        -- intros [?|[[->|?] ?]]; [tauto| |tauto].
           left. by left.
      * destruct (IH M0 Hl) as (M & HM & Hin). exists M. split; [exact HM|].
        intros sid. rewrite Hin. unfold slot_ids. simpl. rewrite elem_of_cons.
        split; [tauto|].
        intros [?|[[->|?] ?]]; [tauto|congruence|tauto].
Qed.

Lemma matched_slot_ids_some v user :
  (forall s, s ∈ slots ->
     a !! (u_id user, s_id s) = Some (assign_cell pm (u_id user) (s_id s))) ->
  exists M,
    matched_slot_ids a (Some v) user slots = Ok M
    /\ forall sid, sid ∈ M <->
         sid ∈ slot_ids slots /\ selects pm v (u_id user) sid = true.
Proof.
  intros Ha. destruct (matched_loop_some v user slots ∅ Ha) as (M & HM & Hin).
  exists M. split; [exact HM|]. intros sid. rewrite Hin.
  split; [intros [H|H]; [by apply elem_of_empty in H|done]|by right].
Qed.

(** Without values, the loop stops at the first variable on a comparison
    that [None] does not support. *)
Lemma matched_loop_none user (l : list Slot) (M0 : gset string) :
  (forall s, s ∈ l ->
     a !! (u_id user, s_id s) = Some (assign_cell pm (u_id user) (s_id s))) ->
  let r :=
    for_each l
      (fun matched slot =>
         assignment_obj <~ subscript a (u_id user, s_id slot) ;;
         match assignment_obj with
         | CpConstant _ => Ok matched
         | CpVariable k =>
             match @None valuation with
             | None => Raise TypeError
             | Some v =>
                 if Qltb EPS (v k) then Ok ({[s_id slot]} ∪ matched)
                 else Ok matched
             end
         end)
      M0 in
  r = Ok M0 \/ r = Raise TypeError.
Proof.
  induction l as [|s l IH]; intros Ha; simpl; [by left|].
  rewrite (subscript_lookup _ _ _ (Ha s ltac:(left))). simpl.
  destruct (assign_cell pm (u_id user) (s_id s)); [|by right].
  apply IH. intros; apply Ha; by right.
Qed.

Lemma match_user_none by_id user :
  (forall s, s ∈ slots ->
     a !! (u_id user, s_id s) = Some (assign_cell pm (u_id user) (s_id s))) ->
  match_user a None by_id slots user = Raise AssertionError
  \/ match_user a None by_id slots user = Raise TypeError.
Proof.
  intros Ha. unfold match_user, matched_slot_ids.
  destruct (matched_loop_none user slots ∅ Ha) as [-> | ->]; cbn [rbind].
  - left. by rewrite size_empty.
  - by right.
Qed.

(** When the body of the last loop returns a slot, the values select that
    slot for the agent and no other. *)
Lemma match_user_some values user slot :
  (forall s, s ∈ slots ->
     a !! (u_id user, s_id s) = Some (assign_cell pm (u_id user) (s_id s))) ->
  match_user a values (slots_by_id slots) slots user = Ok slot ->
  exists v,
    values = Some v /\ slot ∈ slots
    /\ selects pm v (u_id user) (s_id slot) = true
    /\ forall sid, sid ∈ slot_ids slots ->
         selects pm v (u_id user) sid = true -> sid = s_id slot.
Proof.
  intros Ha Hm. destruct values as [v|].
  2: { destruct (match_user_none (slots_by_id slots) user Ha) as [H|H];
       rewrite H in Hm; discriminate. }
  exists v. split; [done|].
  unfold match_user in Hm.
  destruct (matched_slot_ids_some v user Ha) as (M & HM & Hin).
  rewrite HM in Hm. simpl in Hm.
  destruct (size M =? 1)%nat eqn:Hsize; simpl in Hm; [|discriminate].
  apply Nat.eqb_eq in Hsize.
  apply size_1_elem_of in Hsize as [x Hx]. apply leibniz_equiv in Hx.
  subst M. rewrite elements_singleton in Hm.
  destruct (slots_by_id slots !! x) as [s|] eqn:Hs; [|discriminate].
  injection Hm as ->. apply slots_by_id_lookup in Hs as [Hs <-].
  split; [done|].
  assert (Hx : s_id slot ∈ ({[s_id slot]} : gset string))
    by by apply elem_of_singleton.
  apply Hin in Hx as [_ Hsel]. split; [done|].
  intros sid Hsid Hsel'.
  assert (Hsid' : sid ∈ ({[s_id slot]} : gset string)) by by apply Hin.
  by apply elem_of_singleton in Hsid'.
Qed.

Lemma match_user_id values by_id user user' :
  u_id user = u_id user' ->
  match_user a values by_id slots user = match_user a values by_id slots user'.
Proof.
  intros Hid. unfold match_user, matched_slot_ids. by rewrite Hid.
Qed.

(** The last loop of [run_matcher]. *)
Lemma final_assignment_loop values by_id (l : list User)
    (fa0 m : gmap string Slot) :
  for_each l
    (fun final_assignment user =>
       slot <~ match_user a values by_id slots user ;;
       Ok (<[u_id user := slot]> final_assignment))
    fa0 = Ok m ->
  (forall u, u ∈ l ->
     exists s, match_user a values by_id slots u = Ok s
               /\ m !! u_id u = Some s)
  /\ (forall k, k ∉ user_ids l -> m !! k = fa0 !! k).
Proof.
  revert fa0. induction l as [|u l IH]; intros fa0 Hrun; simpl in Hrun.
  - injection Hrun as <-. split; [|done].
    intros u Hu. by apply elem_of_nil in Hu.
  - destruct (match_user a values by_id slots u) as [s|e] eqn:Hu;
      simpl in Hrun; [|discriminate].
    apply IH in Hrun as [Hin Hout]. split.
    + intros u' Hu'. apply elem_of_cons in Hu' as [->|Hu']; [|by apply Hin].
      exists s. split; [done|].
      destruct (decide (u_id u ∈ user_ids l)) as [Hdup|Hfresh].
      * unfold user_ids in Hdup. apply list_elem_of_fmap in Hdup
          as (u' & Hid & Hu').
        destruct (Hin u' Hu') as (s' & Hs' & Hm).
        rewrite (match_user_id _ _ u u' Hid) in Hu.
        rewrite Hid, Hm. congruence.
      * rewrite (Hout _ Hfresh). by rewrite lookup_insert_eq.
    + intros k Hk. unfold user_ids in Hk. simpl in Hk.
      apply not_elem_of_cons in Hk as [Hne Hk].
      rewrite (Hout k Hk). by rewrite lookup_insert_ne.
Qed.

End Reading.

(** ** Values 0 and 1, and counting *)

Lemma is_01_cases q : is_01 q = true -> (q == 0)%Q \/ (q == 1)%Q.
Proof.
  unfold is_01. intros H. apply orb_true_iff in H as [H|H];
    apply Qeq_bool_iff in H; auto.
Qed.

Lemma Qltb_EPS_one q : (q == 1)%Q -> Qltb EPS q = true.
Proof.
  intros Hq. unfold Qltb. apply negb_true_iff.
  destruct (Qle_bool q EPS) eqn:H; [|done].
  apply Qle_bool_iff in H. rewrite Hq in H. by vm_compute in H.
Qed.

Lemma Qltb_EPS_zero q : (q == 0)%Q -> Qltb EPS q = false.
Proof.
  intros Hq. unfold Qltb. apply negb_false_iff. apply Qle_bool_iff.
  rewrite Hq. by vm_compute.
Qed.

(** A sum of values that are 1 on the elements that pass a test and 0 on
    the others is the number of elements that pass. *)
Lemma total_count {A : Type} (v : valuation) (f : A -> expr) (p : A -> bool)
    (l : list A) :
  (forall x, x ∈ l -> (eval v (f x) == if p x then 1 else 0)%Q) ->
  (total v (map f l) == inject_Z (Z.of_nat (length (List.filter p l))))%Q.
Proof.
  unfold total. induction l as [|x l IH]; intros Hl; simpl; [reflexivity|].
  rewrite IH by (intros y Hy; apply Hl; by right).
  rewrite (Hl x) by left.
  destruct (p x); simpl length.
  - rewrite Nat2Z.inj_succ, <- Z.add_1_l, inject_Z_plus. reflexivity.
  - apply Qplus_0_l.
Qed.

Lemma feasibleb_elim cs v c :
  feasibleb cs v = true -> c ∈ cs ->
  forallb (boolean_on v) (constraint_exprs c) = true /\ holdsb v c = true.
Proof.
  unfold feasibleb. intros Hcs Hc. apply list_elem_of_In in Hc.
  rewrite forallb_forall in Hcs. specialize (Hcs c Hc).
  by apply andb_true_iff in Hcs.
Qed.

Lemma built_constraints_slot pm users slots config s :
  s ∈ slots ->
  LowerBound (min_family_size config) (column pm users s)
    ∈ built_constraints pm users slots config
  /\ UpperBound (column pm users s) (max_family_size config)
    ∈ built_constraints pm users slots config.
Proof.
  intros Hs. unfold built_constraints.
  split; apply elem_of_app; right; apply list_elem_of_In, in_flat_map;
    exists s; (split; [by apply list_elem_of_In|]); simpl; auto.
Qed.

Lemma built_constraints_user pm users slots config u :
  u ∈ users ->
  SumEq (row pm slots u) 1 ∈ built_constraints pm users slots config.
Proof.
  intros Hu. unfold built_constraints. apply elem_of_app. left.
  by apply (list_elem_of_fmap_2 (fun user => SumEq (row pm slots user) 1)).
Qed.

(** ** The reference solver *)

Lemma cheapest_In objective cands c :
  cheapest objective cands = Some c -> In c cands.
Proof.
  revert c. induction cands as [|x cands IH]; intros c Hc; simpl in Hc;
    [discriminate|].
  destruct (cheapest objective cands) as [b|].
  - destruct (Qle_bool _ _); injection Hc as <-; [by left|].
    right. by apply IH.
  - injection Hc as <-. by left.
Qed.

Lemma brute_solve_sound objective constraints v :
  brute_solve objective constraints = Some v ->
  feasibleb constraints v = true.
Proof.
  unfold brute_solve. intros Hv.
  destruct (cheapest objective _) as [ones|] eqn:Hc; [|discriminate].
  injection Hv as <-. apply cheapest_In, filter_In in Hc. by destruct Hc.
Qed.

(** ** The returned mapping *)

Lemma cell_value pm v slots (m : gmap string Slot) u s su :
  m !! u_id u = Some su ->
  selects pm v (u_id u) (s_id su) = true ->
  (forall sid, sid ∈ slot_ids slots ->
     selects pm v (u_id u) sid = true -> sid = s_id su) ->
  s ∈ slots ->
  boolean_on v (assign_cell pm (u_id u) (s_id s)) = true ->
  (eval v (assign_cell pm (u_id u) (s_id s))
   == if sent_to m (s_id s) u then 1 else 0)%Q.
Proof.
  intros Hm Hsu Honly Hs Hbool. unfold sent_to. rewrite Hm.
  assert (Hsid : s_id s ∈ slot_ids slots)
    by by apply (list_elem_of_fmap_2 s_id).
  destruct (String.eqb (s_id su) (s_id s)) eqn:Heq.
  - apply String.eqb_eq in Heq. rewrite Heq in Hsu.
    unfold selects in Hsu.
    destruct (assign_cell pm (u_id u) (s_id s)) as [c|k]; [discriminate|].
    simpl in *. apply is_01_cases in Hbool as [H0|H1]; [|done].
    by rewrite (Qltb_EPS_zero _ H0) in Hsu.
  - apply String.eqb_neq in Heq.
    assert (Hno : selects pm v (u_id u) (s_id s) = false).
    { destruct (selects pm v (u_id u) (s_id s)) eqn:Hsel; [|done].
      destruct Heq. symmetry. by apply Honly. }
    unfold selects, assign_cell in *.
    destruct (default 0 (pm !! (u_id u, s_id s)) <=? 0); [reflexivity|].
    simpl in *. apply is_01_cases in Hbool as [H0|H1]; [done|].
    by rewrite (Qltb_EPS_one _ H1) in Hno.
Qed.

Lemma forallb_boolean_column pm v users s u :
  forallb (boolean_on v) (column pm users s) = true -> u ∈ users ->
  boolean_on v (assign_cell pm (u_id u) (s_id s)) = true.
Proof.
  intros Hall Hu. rewrite forallb_forall in Hall. apply Hall.
  unfold column. apply in_map_iff. exists u. split; [done|].
  by apply list_elem_of_In.
Qed.

(** What [run_matcher] returns, unfolded down to its last loop. *)
Lemma run_matcher_unfold solve users prefs slots config :
  run_matcher solve users prefs slots config
  = for_each users
      (fun final_assignment user =>
         slot <~ match_user
                   (build_assignment (preference_map prefs) users slots)
                   (solve
                      (objective_terms (preference_map prefs)
                         (build_assignment (preference_map prefs) users slots))
                      (built_constraints (preference_map prefs) users slots
                         config))
                   (slots_by_id slots) slots user ;;
         Ok (<[u_id user := slot]> final_assignment))
      ∅.
Proof. unfold run_matcher. by rewrite get_optimization_eq. Qed.

(** Each agent of a returned mapping has the slot that the values select
    for it, and that slot only. *)
Lemma run_matcher_selected solve users prefs slots config m :
  run_matcher solve users prefs slots config = Ok m ->
  (forall k, is_Some (m !! k) -> k ∈ user_ids users)
  /\ forall u, u ∈ users ->
       exists v su,
         solve (objective_terms (preference_map prefs)
                  (build_assignment (preference_map prefs) users slots))
               (built_constraints (preference_map prefs) users slots config)
         = Some v
         /\ m !! u_id u = Some su /\ su ∈ slots
         /\ selects (preference_map prefs) v (u_id u) (s_id su) = true
         /\ forall sid, sid ∈ slot_ids slots ->
              selects (preference_map prefs) v (u_id u) sid = true ->
              sid = s_id su.
Proof.
  rewrite run_matcher_unfold. intros Hrun.
  apply final_assignment_loop in Hrun as [Hin Hout]. split.
  - intros k Hk. destruct (decide (k ∈ user_ids users)) as [|Hno]; [done|].
    rewrite (Hout k Hno), lookup_empty in Hk. by destruct Hk.
  - intros u Hu. destruct (Hin u Hu) as (su & Hmatch & Hm).
    apply (match_user_some (preference_map prefs)) in Hmatch
      as (v & Hv & Hsu & Hsel & Honly).
    + exists v, su. by rewrite Hv.
    + intros s Hs. by apply build_assignment_lookup.
Qed.

(** ** What [run_matcher] can raise *)

Lemma match_user_raise pm a slots values user e :
  (forall s, s ∈ slots ->
     a !! (u_id user, s_id s) = Some (assign_cell pm (u_id user) (s_id s))) ->
  match_user a values (slots_by_id slots) slots user = Raise e ->
  e = TypeError \/ e = AssertionError.
Proof.
  intros Ha Hm. destruct values as [v|].
  - unfold match_user in Hm.
    destruct (matched_slot_ids_some pm a slots v user Ha) as (M & HM & Hin).
    rewrite HM in Hm. cbn [rbind] in Hm.
    destruct (size M =? 1)%nat eqn:Hsize; cbn [negb] in Hm;
      [|injection Hm as <-; by right].
    apply Nat.eqb_eq, size_1_elem_of in Hsize as [x Hx].
    apply leibniz_equiv in Hx. subst M. rewrite elements_singleton in Hm.
    assert (Hx : x ∈ slot_ids slots).
    { apply (Hin x). by apply elem_of_singleton. }
    apply list_elem_of_fmap in Hx as (s & -> & Hs).
    destruct (slots_by_id_is_Some slots s Hs) as [s' Hs'].
    rewrite Hs' in Hm. discriminate.
  - destruct (match_user_none pm a slots (slots_by_id slots) user Ha)
      as [H|H]; rewrite H in Hm; injection Hm as <-; auto.
Qed.

Lemma run_matcher_raise solve users prefs slots config e :
  run_matcher solve users prefs slots config = Raise e ->
  e = TypeError \/ e = AssertionError.
Proof.
  rewrite run_matcher_unfold. intros Hrun.
  apply for_each_raise in Hrun as (fa & u & Hu & Hbody).
  destruct (match_user _ _ _ _ u) as [s|e'] eqn:Hm; [discriminate|].
  cbn [rbind] in Hbody. injection Hbody as ->.
  apply (match_user_raise (preference_map prefs)) in Hm; [done|].
  intros s Hs. by apply build_assignment_lookup.
Qed.

(** Without values, the first agent already stops the last loop. *)
Lemma run_matcher_no_values solve users prefs slots config :
  users <> [] ->
  solve (objective_terms (preference_map prefs)
           (build_assignment (preference_map prefs) users slots))
        (built_constraints (preference_map prefs) users slots config)
  = None ->
  run_matcher solve users prefs slots config = Raise TypeError
  \/ run_matcher solve users prefs slots config = Raise AssertionError.
Proof.
  intros Hne Hnone. rewrite run_matcher_unfold, Hnone.
  destruct users as [|u users]; [done|]. cbn [for_each].
  destruct (match_user_none (preference_map prefs)
              (build_assignment (preference_map prefs) (u :: users) slots)
              slots (slots_by_id slots) u) as [H|H].
  - intros s Hs. apply build_assignment_lookup; [left|done].
  - right. by rewrite H.
  - left. by rewrite H.
Qed.

(** An agent whose cells are all constants stops the run. *)
Lemma run_matcher_all_constant solve users prefs slots config u :
  u ∈ users ->
  (forall s, s ∈ slots -> recorded prefs (u_id u) (s_id s) <= 0) ->
  (forall s, s ∈ slots ->
     build_assignment (preference_map prefs) users slots !! (u_id u, s_id s)
     = Some (CpConstant 0))
  /\ (run_matcher solve users prefs slots config = Raise TypeError
      \/ run_matcher solve users prefs slots config = Raise AssertionError).
Proof.
  intros Hu Hrank.
  assert (Hcell : forall s, s ∈ slots ->
    assign_cell (preference_map prefs) (u_id u) (s_id s) = CpConstant 0).
  { intros s Hs. specialize (Hrank s Hs). unfold recorded in Hrank.
    unfold assign_cell. apply Z.leb_le in Hrank. by rewrite Hrank. }
  split.
  - intros s Hs. rewrite build_assignment_lookup by done. by rewrite Hcell.
  - destruct (run_matcher solve users prefs slots config) as [m|e] eqn:Hrun.
    + apply run_matcher_selected in Hrun as [_ Hsel].
      destruct (Hsel u Hu) as (v & su & _ & _ & Hsu & Hsel' & _).
      unfold selects in Hsel'. by rewrite (Hcell su Hsu) in Hsel'.
    + apply run_matcher_raise in Hrun as [-> | ->]; auto.
Qed.

(** ** Records that name no agent or no slot of the input *)

Lemma preference_map_filter (P : JMPreference -> bool) prefs k :
  (forall p, (user_id p, slot_id p) = k -> P p = true) ->
  preference_map (List.filter P prefs) !! k = preference_map prefs !! k.
Proof.
  intros HP. unfold preference_map.
  assert (Hgen : forall m m' : gmap key Z, m !! k = m' !! k ->
    foldl (fun m p => <[(user_id p, slot_id p) := value p]> m) m
          (List.filter P prefs) !! k
    = foldl (fun m p => <[(user_id p, slot_id p) := value p]> m) m'
            prefs !! k).
  { induction prefs as [|p prefs IH]; intros m m' Hm; simpl; [done|].
    destruct (decide ((user_id p, slot_id p) = k)) as [Hk|Hk].
    - rewrite (HP p Hk). simpl. apply IH.
      rewrite Hk. by rewrite !lookup_insert_eq.
    - destruct (P p); simpl; apply IH.
      + by rewrite !lookup_insert_ne.
      + by rewrite lookup_insert_ne.
  }
  by apply Hgen.
Qed.

Lemma omap_ext_in {A B : Type} (f g : A -> option B) (l : list A) :
  (forall x, x ∈ l -> f x = g x) -> omap f l = omap g l.
Proof.
  induction l as [|x l IH]; intros Hfg; [done|].
  change (omap f (x :: l)) with
    (match f x with Some y => y :: omap f l | None => omap f l end).
  change (omap g (x :: l)) with
    (match g x with Some y => y :: omap g l | None => omap g l end).
  rewrite (Hfg x) by left. rewrite IH; [done|].
  intros y Hy. apply Hfg. by right.
Qed.

Lemma known_key users slots u s p :
  u ∈ users -> s ∈ slots ->
  (user_id p, slot_id p) = (u_id u, s_id s) -> known users slots p = true.
Proof.
  intros Hu Hs [= Hp1 Hp2]. unfold known. rewrite Hp1, Hp2.
  apply andb_true_iff. split; apply bool_decide_eq_true.
  - by apply (list_elem_of_fmap_2 u_id).
  - by apply (list_elem_of_fmap_2 s_id).
Qed.

Lemma build_assignment_known users prefs slots :
  build_assignment (preference_map (List.filter (known users slots) prefs))
    users slots
  = build_assignment (preference_map prefs) users slots.
Proof.
  apply map_eq. intros k.
  destruct (build_assignment (preference_map prefs) users slots !! k)
    as [e|] eqn:Hk.
  - destruct (build_assignment_keys (preference_map prefs) users slots k)
      as (u & s & Hu & Hs & ->); [by rewrite Hk|].
    rewrite build_assignment_lookup in Hk by done.
    rewrite build_assignment_lookup by done.
    rewrite <- Hk. f_equal. unfold assign_cell.
    rewrite preference_map_filter; [done|].
    intros p Hp. by eapply known_key.
  - destruct (build_assignment
                (preference_map (List.filter (known users slots) prefs))
                users slots !! k) as [e|] eqn:Hk'; [|done].
    destruct (build_assignment_keys _ users slots k
                ltac:(by rewrite Hk')) as (u & s & Hu & Hs & ->).
    by rewrite build_assignment_lookup in Hk by done.
Qed.

Lemma get_optimization_known users prefs slots config :
  get_optimization users (List.filter (known users slots) prefs) slots config
  = get_optimization users prefs slots config.
Proof.
  unfold get_optimization. cbv zeta. rewrite build_assignment_known.
  destruct (user_constraints _ users slots) as [cs1|]; [|done].
  cbn [rbind].
  destruct (slot_constraints _ users slots config cs1) as [cs|]; [|done].
  cbn [rbind]. do 2 f_equal. f_equal.
  unfold objective_terms. apply omap_ext_in. intros [k e] Hke. simpl.
  apply elem_of_map_to_list in Hke.
  destruct (build_assignment_keys _ users slots k ltac:(by rewrite Hke))
    as (u & s & Hu & Hs & ->).
  rewrite preference_map_filter; [done|].
  intros p Hp. by eapply known_key.
Qed.

(** ** The properties of the exact strategy *)

Import MatcherExamples.

(** The count over the agents of the input, which the constraints of the
    formulation bound. *)
Lemma run_matcher_counts_on_list solve users prefs slots config m :
  users <> [] ->
  (forall objective constraints assignment,
     get_optimization users prefs slots config
     = Ok (objective, constraints, assignment) ->
     sound_on solve objective constraints) ->
  run_matcher solve users prefs slots config = Ok m ->
  (forall u, u ∈ users -> exists s, s ∈ slots /\ m !! u_id u = Some s)
  /\ (forall k, is_Some (m !! k) -> k ∈ user_ids users)
  /\ (forall s, s ∈ slots ->
        min_family_size config <= family_size m users (s_id s)
        <= max_family_size config).
Proof.
  intros Hne Hsound Hrun.
  specialize (Hsound _ _ _ (get_optimization_eq users prefs slots config)).
  destruct (run_matcher_selected _ _ _ _ _ _ Hrun) as [Hdom Hsel].
  split; [|split; [done|]].
  - intros u Hu. destruct (Hsel u Hu) as (v & su & _ & Hm & Hsu & _). eauto.
  - intros s Hs.
    assert (Hu0 : exists u0, u0 ∈ users).
    { destruct users as [|u0 ?]; [done|]. exists u0. left. }
    destruct Hu0 as [u0 Hu0].
    destruct (Hsel u0 Hu0) as (v & _ & Hv & _).
    pose proof (Hsound v Hv) as Hfeas.
    destruct (built_constraints_slot (preference_map prefs) users slots
                config s Hs) as [Hlo Hhi].
    apply (feasibleb_elim _ v) in Hlo as [Hbool Hlo]; [|done].
    apply (feasibleb_elim _ v) in Hhi as [_ Hhi]; [|done].
    simpl in Hbool, Hlo, Hhi.
    assert (Htotal :
      (total v (column (preference_map prefs) users s)
       == inject_Z (family_size m users (s_id s)))%Q).
    { unfold column, family_size. apply total_count. intros u Hu.
      destruct (Hsel u Hu) as (v' & su & Hv' & Hm & Hsu & Hsel' & Honly).
      assert (v' = v) as -> by congruence.
      eapply cell_value; eauto.
      by eapply forallb_boolean_column. }
    apply Qle_bool_iff in Hlo, Hhi. rewrite Htotal in Hlo, Hhi.
    rewrite <- Zle_Qle in Hlo, Hhi. done.
Qed.

Lemma filter_length_Permutation {A : Type} (p : A -> bool) (l1 l2 : list A) :
  l1 ≡ₚ l2 -> length (List.filter p l1) = length (List.filter p l2).
Proof.
  induction 1 as [|x l1 l2 _ IH|x y l|l1 l2 l3 _ IH1 _ IH2]; simpl.
  - done.
  - destruct (p x); simpl; by rewrite IH.
  - by destruct (p x), (p y).
  - congruence.
Qed.

Lemma filter_length_ext {A : Type} (p q : A -> bool) (l : list A) :
  (forall x, x ∈ l -> p x = q x) ->
  length (List.filter p l) = length (List.filter q l).
Proof.
  induction l as [|x l IH]; intros Hpq; simpl; [done|].
  rewrite (Hpq x) by left.
  pose proof (IH ltac:(intros y Hy; apply Hpq; by right)) as Hl.
  destruct (q x); simpl; by rewrite Hl.
Qed.

(** With one entry per agent, counting the entries of the mapping is
    counting the agents of the input. *)
Lemma members_family_size users (m : gmap string Slot) sid :
  NoDup (user_ids users) ->
  (forall u, u ∈ users -> is_Some (m !! u_id u)) ->
  (forall k, is_Some (m !! k) -> k ∈ user_ids users) ->
  MatcherCount.members m sid = family_size m users sid.
Proof.
  unfold MatcherCount.members, family_size. intros Hnd Hin Hdom. f_equal.
  revert m Hnd Hin Hdom. induction users as [|u users IH];
    intros m Hnd Hin Hdom; simpl.
  - assert (m = ∅) as ->; [|by rewrite map_to_list_empty].
    apply map_empty. intros k. destruct (m !! k) as [s|] eqn:Hk; [|done].
    specialize (Hdom k ltac:(by eexists)). by apply elem_of_nil in Hdom.
  - simpl in Hnd. apply NoDup_cons in Hnd as [Hu Hnd].
    destruct (Hin u ltac:(left)) as [s Hs].
    rewrite <- (filter_length_Permutation _ _ _
                  (map_to_list_delete m (u_id u) s Hs)).
    simpl. unfold sent_to at 1. rewrite Hs.
    assert (Hrest :
      length (List.filter
                (fun kv : string * Slot => String.eqb (s_id kv.2) sid)
                (map_to_list (delete (u_id u) m)))
      = length (List.filter (sent_to m sid) users)).
    { rewrite (IH (delete (u_id u) m)); [|done| |].
      - apply filter_length_ext. intros u' Hu'. unfold sent_to.
        rewrite lookup_delete_ne; [done|].
        intros Heq. destruct Hu. rewrite Heq.
        by apply (list_elem_of_fmap_2 u_id).
      - intros u' Hu'. rewrite lookup_delete_ne; [apply Hin; by right|].
        intros Heq. destruct Hu. rewrite Heq.
        by apply (list_elem_of_fmap_2 u_id).
      - intros k Hk. destruct (decide (k = u_id u)) as [->|Hne].
        + rewrite lookup_delete_eq in Hk. by destruct Hk.
        + rewrite lookup_delete_ne in Hk by done.
          specialize (Hdom k Hk). unfold user_ids in Hdom. simpl in Hdom.
          apply elem_of_cons in Hdom as [?|?]; [done|done]. }
    destruct (String.eqb (s_id s) sid); simpl; by rewrite Hrest.
Qed.

(** C1, as stated, fails on two inputs.  Without agents the last loop of
    [run_matcher] does not run, the empty mapping is returned, and the
    slot has fewer members than the minimum.  With an agent that is listed
    twice the constraints count the agent twice and the mapping holds it
    once: one member for a slot that needs two. *)
Lemma returned_family_below_minimum :
  (run_matcher brute_solve [] [] [slot "0"] (sizes 1 2) = Ok ∅
   /\ MatcherCount.members ∅ (s_id (slot "0"))
      < min_family_size (sizes 1 2))
  /\ (run_matcher brute_solve twin_users lonely_prefs [slot "0"] (sizes 2 2)
      = Ok (<["a" := slot "0"]> ∅)
      /\ MatcherCount.members (<["a" := slot "0"]> ∅) (s_id (slot "0"))
         < min_family_size (sizes 2 2)).
Proof. repeat split; by vm_compute. Qed.

(** C1 (amended: at least one agent, no identity listed twice, and a
    solver whose values are feasible 0/1 values).  When [run_matcher]
    returns, the mapping gives every agent of the input exactly one slot
    of the input, it has no other key, and for every slot the number of
    entries of the mapping with that slot is within
    [min_family_size, max_family_size]. *)
Theorem run_matcher_hard_constraints solve users prefs slots config m :
  users <> [] ->
  NoDup (user_ids users) ->
  (forall objective constraints assignment,
     get_optimization users prefs slots config
     = Ok (objective, constraints, assignment) ->
     sound_on solve objective constraints) ->
  run_matcher solve users prefs slots config = Ok m ->
  (forall u, u ∈ users -> exists s, s ∈ slots /\ m !! u_id u = Some s)
  /\ (forall k, is_Some (m !! k) -> k ∈ user_ids users)
  /\ (forall s, s ∈ slots ->
        min_family_size config <= MatcherCount.members m (s_id s)
        <= max_family_size config).
Proof.
  intros Hne Hnd Hsound Hrun.
  destruct (run_matcher_counts_on_list _ _ _ _ _ _ Hne Hsound Hrun)
    as (Htotal & Hdom & Hsize).
  split; [done|]. split; [done|]. intros s Hs.
  rewrite (members_family_size users); [by apply Hsize|done| |done].
  intros u Hu. destruct (Htotal u Hu) as (su & _ & ->). by eexists.
Qed.

Lemma run_matcher_hard_constraints_witness :
  run_matcher brute_solve four_users eight_prefs two_slots (sizes 2 2)
  = Ok four_matched
  /\ (forall u, u ∈ four_users ->
        exists s, s ∈ two_slots /\ four_matched !! u_id u = Some s)
  /\ (forall k, is_Some (four_matched !! k) -> k ∈ user_ids four_users)
  /\ (forall s, s ∈ two_slots ->
        min_family_size (sizes 2 2)
        <= MatcherCount.members four_matched (s_id s)
        <= max_family_size (sizes 2 2)).
Proof.
  split; [by vm_compute|].
  apply (run_matcher_hard_constraints brute_solve four_users eight_prefs
           two_slots (sizes 2 2) four_matched).
  - discriminate.
  - apply NoDup_ListNoDup. vm_compute.
    repeat constructor; simpl; intuition discriminate.
  - intros objective constraints assignment _ v. apply brute_solve_sound.
  - by vm_compute.
Defined.

(** C2.  When the rank that is recorded for an agent and a slot is absent
    or not positive, the cell of the pair is the constant 0, and no mapping
    that [run_matcher] returns, with any solver, sends the agent to that
    slot. *)
Theorem nonpositive_rank_never_assigned solve users prefs slots config u s :
  u ∈ users -> s ∈ slots ->
  (preference_map prefs !! (u_id u, s_id s) = None
   \/ exists rank, preference_map prefs !! (u_id u, s_id s) = Some rank
                   /\ rank <= 0) ->
  (forall objective constraints assignment,
     get_optimization users prefs slots config
     = Ok (objective, constraints, assignment) ->
     assignment !! (u_id u, s_id s) = Some (CpConstant 0))
  /\ (forall m su,
        run_matcher solve users prefs slots config = Ok m ->
        m !! u_id u = Some su -> s_id su <> s_id s).
Proof.
  intros Hu Hs Hrank.
  assert (Hcell : assign_cell (preference_map prefs) (u_id u) (s_id s)
                  = CpConstant 0).
  { unfold assign_cell. destruct Hrank as [-> | (rank & -> & Hle)]; simpl.
    - done.
    - apply Z.leb_le in Hle. by rewrite Hle. }
  split.
  - intros objective constraints assignment Hopt.
    rewrite get_optimization_eq in Hopt. injection Hopt as _ _ <-.
    rewrite build_assignment_lookup by done. by rewrite Hcell.
  - intros m su Hrun Hm Hid.
    apply run_matcher_selected in Hrun as [_ Hsel].
    destruct (Hsel u Hu) as (v & su' & _ & Hm' & _ & Hsel' & _).
    assert (su' = su) as -> by congruence.
    unfold selects in Hsel'. by rewrite Hid, Hcell in Hsel'.
Qed.

Lemma nonpositive_rank_never_assigned_witness :
  run_matcher brute_solve picky_users apart_prefs two_slots (sizes 1 1)
  = Ok apart_matched
  /\ (forall objective constraints assignment,
        get_optimization picky_users apart_prefs two_slots (sizes 1 1)
        = Ok (objective, constraints, assignment) ->
        assignment !! (u_id (user "a"), s_id (slot "1"))
        = Some (CpConstant 0))
  /\ (forall m su,
        run_matcher brute_solve picky_users apart_prefs two_slots (sizes 1 1)
        = Ok m ->
        m !! u_id (user "a") = Some su -> s_id su <> s_id (slot "1")).
Proof.
  split; [by vm_compute|].
  apply (nonpositive_rank_never_assigned brute_solve picky_users apart_prefs
           two_slots (sizes 1 1) (user "a") (slot "1")).
  - left.
  - right. left.
  - right. exists 0. split; [by vm_compute|lia].
Defined.

(** C3, as stated, fails on an input without agents: two slots that need
    two members each cannot be filled, and [run_matcher] returns the empty
    mapping. *)
Lemma infeasible_yet_empty_mapping :
  (exists objective constraints assignment,
     get_optimization [] [] two_slots (sizes 2 3)
     = Ok (objective, constraints, assignment)
     /\ infeasible constraints)
  /\ run_matcher brute_solve [] [] two_slots (sizes 2 3) = Ok ∅.
Proof.
  split; [|by vm_compute].
  eexists _, _, _. split; [by rewrite get_optimization_eq|].
  intros v. by vm_compute.
Qed.

(** C3 (amended: at least one agent; the error is not one of its own).
    On an input with an agent whose constraints no 0/1 values satisfy, a
    solver that returns feasible values only leaves [run_matcher] without
    values: it raises the TypeError of a comparison with [None], or the
    AssertionError of the count of matched slots, and returns no mapping. *)
Theorem infeasible_raises solve users prefs slots config :
  users <> [] ->
  (forall objective constraints assignment,
     get_optimization users prefs slots config
     = Ok (objective, constraints, assignment) ->
     sound_on solve objective constraints /\ infeasible constraints) ->
  run_matcher solve users prefs slots config = Raise TypeError
  \/ run_matcher solve users prefs slots config = Raise AssertionError.
Proof.
  intros Hne Hopt.
  destruct (Hopt _ _ _ (get_optimization_eq users prefs slots config))
    as [Hsound Hinf].
  apply run_matcher_no_values; [done|].
  destruct (solve _ _) as [v|] eqn:Hv; [|done].
  apply Hsound in Hv. by rewrite Hinf in Hv.
Qed.

Lemma lonely_infeasible :
  infeasible
    (built_constraints (preference_map lonely_prefs) lonely_users
       [slot "0"] (sizes 2 2)).
Proof.
  intros v. unfold feasibleb.
  cbn -[Qeq_bool Qle_bool inject_Z assign_cell preference_map].
  replace (assign_cell (preference_map lonely_prefs) "a" "0")
    with (CpVariable ("a", "0")%string) by (by vm_compute).
  cbn -[Qeq_bool Qle_bool inject_Z].
  destruct (is_01 (v ("a", "0")%string)) eqn:H01; [|done].
  apply is_01_cases in H01.
  assert (Hlow : Qle_bool (inject_Z 2) (v ("a", "0")%string + 0) = false).
  { destruct (Qle_bool _ _) eqn:Hle; [|done]. apply Qle_bool_iff in Hle.
    destruct H01 as [H|H]; rewrite H in Hle; by vm_compute in Hle. }
  rewrite Hlow. cbn. by rewrite andb_false_r.
Qed.

Lemma infeasible_raises_witness :
  run_matcher brute_solve lonely_users lonely_prefs [slot "0"] (sizes 2 2)
  = Raise TypeError
  \/ run_matcher brute_solve lonely_users lonely_prefs [slot "0"] (sizes 2 2)
     = Raise AssertionError.
Proof.
  apply (infeasible_raises brute_solve lonely_users lonely_prefs [slot "0"]
           (sizes 2 2)).
  - discriminate.
  - intros objective constraints assignment Hopt.
    apply get_optimization_inv in Hopt as (_ & Hcs & _).
    split; [|rewrite Hcs; exact lonely_infeasible].
    intros v. apply brute_solve_sound.
Defined.

(** C9, as stated, fails: an agent that is listed twice, records that name
    an unknown agent and an unknown slot, and a minimum above the maximum
    each go through [run_matcher], which returns a mapping. *)
Lemma malformed_input_accepted :
  run_matcher brute_solve twin_users lonely_prefs [slot "0"] (sizes 2 2)
  = Ok (<["a" := slot "0"]> ∅)
  /\ run_matcher brute_solve lonely_users stray_prefs [slot "0"] (sizes 1 1)
     = Ok (<["a" := slot "0"]> ∅)
  /\ run_matcher brute_solve [] [] [] (sizes 5 3) = Ok ∅.
Proof. repeat split; by vm_compute. Qed.

(** C9 (amended).  [run_matcher] validates nothing.  [get_optimization]
    returns a formulation for every input; records that name an agent or a
    slot outside the input change nothing in it; and the only exceptions
    that [run_matcher] raises are the TypeError and the AssertionError of
    its last loop, after the solver has run. *)
Theorem no_validation solve users prefs slots config e :
  run_matcher solve users prefs slots config = Raise e ->
  (exists objective constraints assignment,
     get_optimization users prefs slots config
     = Ok (objective, constraints, assignment))
  /\ get_optimization users (List.filter (known users slots) prefs) slots
       config
     = get_optimization users prefs slots config
  /\ (e = TypeError \/ e = AssertionError).
Proof.
  intros Hrun. split; [|split].
  - eexists _, _, _. apply get_optimization_eq.
  - apply get_optimization_known.
  - by eapply run_matcher_raise.
Qed.

Lemma no_validation_witness :
  (exists objective constraints assignment,
     get_optimization lonely_users stray_prefs [slot "0"] (sizes 3 2)
     = Ok (objective, constraints, assignment))
  /\ get_optimization lonely_users
       (List.filter (known lonely_users [slot "0"]) stray_prefs)
       [slot "0"] (sizes 3 2)
     = get_optimization lonely_users stray_prefs [slot "0"] (sizes 3 2)
  /\ (TypeError = TypeError \/ TypeError = AssertionError).
Proof.
  apply (no_validation brute_solve lonely_users stray_prefs [slot "0"]
           (sizes 3 2) TypeError).
  by vm_compute.
Defined.

(** ** More on the formulation *)

Lemma preference_map_snoc prefs p :
  preference_map (prefs ++ [p])
  = <[(user_id p, slot_id p) := value p]> (preference_map prefs).
Proof. unfold preference_map. by rewrite foldl_app. Qed.

(** The preference of a pair is the value of its last record: a later
    record of the same pair replaces an earlier one, and a pair without
    a record has no preference. *)
Theorem preference_map_last_record prefs k :
  preference_map prefs !! k
  = value <$> last (List.filter
                      (fun p => bool_decide ((user_id p, slot_id p) = k))
                      prefs).
Proof.
  induction prefs as [|p prefs IH] using rev_ind; [done|].
  rewrite preference_map_snoc, List.filter_app. simpl.
  destruct (decide ((user_id p, slot_id p) = k)) as [Hk|Hk].
  - rewrite (bool_decide_eq_true_2 _ Hk), last_snoc, Hk.
    by rewrite lookup_insert_eq.
  - rewrite (bool_decide_eq_false_2 _ Hk), app_nil_r.
    by rewrite lookup_insert_ne.
Qed.

(** [get_optimization] stores one cell for each pair of an agent and a
    slot of the input and for no other pair: a variable of that pair when
    its preference is positive, the constant 0 otherwise.  It builds one
    constraint per agent and two per slot. *)
Theorem get_optimization_cells users prefs slots config :
  exists objective constraints assignment,
    get_optimization users prefs slots config
    = Ok (objective, constraints, assignment)
    /\ (forall k e,
          assignment !! k = Some e <->
          k.1 ∈ user_ids users /\ k.2 ∈ slot_ids slots
          /\ e = if recorded prefs k.1 k.2 <=? 0 then CpConstant 0
                 else CpVariable k)
    /\ length constraints = (length users + 2 * length slots)%nat.
Proof.
  eexists _, _, _. split; [apply get_optimization_eq|]. split.
  - intros [uid sid] e. simpl. split.
    + intros Hk.
      destruct (build_assignment_keys _ users slots (uid, sid)
                  ltac:(by rewrite Hk)) as (u & s & Hu & Hs & [= -> ->]).
      rewrite build_assignment_lookup in Hk by done. injection Hk as <-.
      split; [by apply (list_elem_of_fmap_2 u_id)|].
      split; [by apply (list_elem_of_fmap_2 s_id)|done].
    + intros (Hu & Hs & ->).
      apply list_elem_of_fmap in Hu as (u & -> & Hu).
      apply list_elem_of_fmap in Hs as (s & -> & Hs).
      by rewrite build_assignment_lookup.
  - unfold built_constraints.
    rewrite length_app, length_map. f_equal.
    induction slots as [|s l IH]; simpl; [done|]. rewrite IH. lia.
Qed.

(** ** Empty inputs and the keys of the mapping *)

(** Without agents [run_matcher] returns the empty mapping, whatever the
    slots, the bounds and the answer of the solver; with agents and no
    slot it raises the AssertionError of the count of matched slots. *)
Theorem run_matcher_empty_inputs solve users prefs slots config :
  run_matcher solve [] prefs slots config = Ok ∅
  /\ run_matcher solve users prefs [] config
     = match users with [] => Ok ∅ | _ :: _ => Raise AssertionError end.
Proof.
  split; [by rewrite run_matcher_unfold|].
  rewrite run_matcher_unfold. destruct users as [|u users]; [done|].
  cbn [for_each]. unfold match_user at 1. cbn [matched_slot_ids for_each rbind].
  by rewrite size_empty.
Qed.

(** The keys of a returned mapping are the identities of the agents, one
    entry for an identity that is listed more than once, and every value
    is a slot of the input for which the agent has a positive
    preference. *)
Theorem returned_mapping_keys solve users prefs slots config m :
  run_matcher solve users prefs slots config = Ok m ->
  (forall k, is_Some (m !! k) <-> k ∈ user_ids users)
  /\ (forall k s, m !! k = Some s ->
        s ∈ slots /\ 0 < recorded prefs k (s_id s)).
Proof.
  intros Hrun. destruct (run_matcher_selected _ _ _ _ _ _ Hrun) as [Hdom Hsel].
  assert (Hval : forall u, u ∈ users -> forall s, m !! u_id u = Some s ->
            s ∈ slots /\ 0 < recorded prefs (u_id u) (s_id s)).
  { intros u Hu s Hs.
    destruct (Hsel u Hu) as (v & su & _ & Hm & Hsu & Hsel' & _).
    assert (su = s) as -> by congruence. split; [done|].
    unfold selects, assign_cell in Hsel'. unfold recorded.
    destruct (default 0 (preference_map prefs !! (u_id u, s_id s)) <=? 0)
      eqn:Hle; [done|].
    by apply Z.leb_gt in Hle. }
  split.
  - intros k. split; [apply Hdom|].
    intros Hk. apply list_elem_of_fmap in Hk as (u & -> & Hu).
    destruct (Hsel u Hu) as (v & su & _ & Hm & _). by exists su.
  - intros k s Hk.
    assert (Hin : k ∈ user_ids users) by (apply Hdom; by exists s).
    apply list_elem_of_fmap in Hin as (u & -> & Hu). by apply Hval.
Qed.

Lemma returned_mapping_keys_witness :
  (forall k,
     is_Some ((<["a" := slot "0"]> ∅ : gmap string Slot) !! k)
     <-> k ∈ user_ids twin_users)
  /\ (forall k s,
        (<["a" := slot "0"]> ∅ : gmap string Slot) !! k = Some s ->
        s ∈ [slot "0"] /\ 0 < recorded lonely_prefs k (s_id s)).
Proof.
  apply (returned_mapping_keys brute_solve twin_users lonely_prefs
           [slot "0"] (sizes 2 2)).
  by vm_compute.
Defined.

End MatcherProofs.

(** * The heuristic strategy *)

Module OldMatcherProofs.

Import OldMatcher OldMatcherSpec OldMatcherState OldMatcherExamples.

Local Open Scope Z_scope.

(** ** Lists of objects *)

Lemma is_refl jm : JM.is_ jm jm = true.
Proof. apply Nat.eqb_refl. Qed.

Lemma is_sym a b : JM.is_ a b = JM.is_ b a.
Proof. apply Nat.eqb_sym. Qed.

Lemma jms_remove_absent jm l :
  jm_in jm l = false -> jms_remove jm l = None.
Proof.
  unfold jm_in, jms_remove. induction l as [|x l IH]; simpl; [done|].
  intros Hin. apply orb_false_iff in Hin as [Hx Hl].
  rewrite is_sym, Hx. by rewrite IH.
Qed.

Lemma jms_remove_present jm l :
  jm_in jm l = true -> exists l', jms_remove jm l = Some l'.
Proof.
  unfold jm_in, jms_remove. induction l as [|x l IH]; simpl; [done|].
  intros Hin. rewrite (is_sym x jm). destruct (JM.is_ jm x); [by eexists|].
  destruct (IH Hin) as [l' ->]. by eexists.
Qed.

Lemma jm_in_app jm l1 l2 : jm_in jm (l1 ++ l2) = jm_in jm l1 || jm_in jm l2.
Proof. apply existsb_app. Qed.

(** ** The status of a family *)

(** [full_check] reads the senior mentors and the members of a family,
    not its status. *)
Lemma full_check_ext config F F' :
  Family.sms F' = Family.sms F -> Family.jms F' = Family.jms F ->
  Family.full_check config F' = Family.full_check config F.
Proof.
  destruct F as [sms jms st], F' as [sms' jms' st']. simpl.
  by intros -> ->.
Qed.

Lemma update_status_inv config F F1 :
  Family.update_status config F = Ok F1 ->
  exists ok, Family.full_check config F = Ok ok
    /\ F1 = Family.set_status F (if ok then COMPLETE else INCOMPLETE).
Proof.
  unfold Family.update_status.
  destruct (Family.full_check config F) as [ok|e]; [|done].
  simpl. intros [= <-]. by exists ok.
Qed.

Lemma update_status_consistent config F F1 :
  Family.update_status config F = Ok F1 ->
  Family.sms F1 = Family.sms F /\ Family.jms F1 = Family.jms F
  /\ (Family.status F1 = COMPLETE <-> Family.full_check config F1 = Ok true)
  /\ Family.update_status config F1 = Ok F1.
Proof.
  intros Hup. apply update_status_inv in Hup as (ok & Hok & ->).
  assert (Hsame : Family.full_check config
                    (Family.set_status F (if ok then COMPLETE else INCOMPLETE))
                  = Ok ok) by (by rewrite <- Hok; apply full_check_ext).
  repeat split; try done.
  - rewrite Hsame. simpl. destruct ok; [done|discriminate].
  - rewrite Hsame. simpl. destruct ok; [done|intros [= ]].
  - unfold Family.update_status. rewrite Hsame. simpl. by destruct ok.
Qed.

(** ** The mutators of a family *)

(** C5.  Two rejected mutations that change the membership: a swap whose
    incoming mentor cannot be checked puts the outgoing mentor back at the
    end of the list, and the removal of a mentor that is not a member adds
    the mentor. *)
Theorem rejected_mutation_changes_membership :
  Family.swap_jm default_config (family_of monday [amy; ben] INCOMPLETE)
    amy cat
  = (family_of monday [ben; amy] INCOMPLETE, Ok false)
  /\ Family.remove_jm default_config (family_of monday [amy] INCOMPLETE) ben
     = (family_of monday [amy; ben] INCOMPLETE, Ok false).
Proof. split; by vm_compute. Qed.

(** C10, as stated, fails when the family with the mentor added cannot be
    checked: the call raises the exception of the check and returns no
    flag. *)
Lemma remove_absent_raises :
  jm_in cat (Family.jms (family_of monday [amy] INCOMPLETE)) = false
  /\ Family.remove_jm default_config (family_of monday [amy] INCOMPLETE) cat
     = (family_of monday [amy; cat] INCOMPLETE, Raise KeyError).
Proof. split; by vm_compute. Qed.

(** C10 (amended).  [remove_jm] of a mentor that is not a member appends
    the mentor, which is a member afterwards; the call returns [False] when
    the status of the grown family can be evaluated, and raises the
    exception of that evaluation otherwise. *)
Theorem remove_absent_appends config F jm :
  jm_in jm (Family.jms F) = false ->
  Family.jms (Family.remove_jm config F jm).1 = Family.jms F ++ [jm]
  /\ jm_in jm (Family.jms (Family.remove_jm config F jm).1) = true
  /\ (Family.remove_jm config F jm).2
     = match Family.full_check config
               (Family.set_jms F (Family.jms F ++ [jm])) with
       | Ok _ => Ok false
       | Raise e => Raise e
       end.
Proof.
  intros Habsent. unfold Family.remove_jm, Family.remove_attempt.
  rewrite (jms_remove_absent _ _ Habsent), Habsent. cbn [negb].
  unfold Family.update_status.
  assert (Hin : jm_in jm (Family.jms F ++ [jm]) = true).
  { rewrite jm_in_app, Habsent. simpl. by rewrite is_refl. }
  by destruct (Family.full_check config _) as [ok|e]; simpl.
Qed.

Lemma remove_absent_appends_witness :
  Family.jms
    (Family.remove_jm default_config (family_of monday [amy] INCOMPLETE) ben).1
  = [amy; ben]
  /\ jm_in ben
       (Family.jms
          (Family.remove_jm default_config
             (family_of monday [amy] INCOMPLETE) ben).1) = true
  /\ (Family.remove_jm default_config
        (family_of monday [amy] INCOMPLETE) ben).2
     = match Family.full_check default_config
               (Family.set_jms (family_of monday [amy] INCOMPLETE)
                  ([amy] ++ [ben])) with
       | Ok _ => Ok false
       | Raise e => Raise e
       end.
Proof.
  apply (remove_absent_appends default_config
           (family_of monday [amy] INCOMPLETE) ben).
  by vm_compute.
Defined.

(** C6.  The result of [full_check] is a function of the senior mentors
    and the members of a family: two families that agree on both get the
    same result, whatever their status.  A status that [update_status]
    stored is COMPLETE exactly when [full_check] on that membership
    returns [True], and storing it again changes nothing. *)
Theorem status_is_function_of_membership config F F' F1 :
  Family.sms F' = Family.sms F -> Family.jms F' = Family.jms F ->
  Family.update_status config F = Ok F1 ->
  Family.full_check config F' = Family.full_check config F
  /\ Family.jms F1 = Family.jms F
  /\ (Family.status F1 = COMPLETE <-> Family.full_check config F' = Ok true)
  /\ Family.update_status config F1 = Ok F1.
Proof.
  intros Hsms Hjms Hup.
  pose proof (full_check_ext config F F' Hsms Hjms) as Hsame.
  destruct (update_status_consistent config F F1 Hup)
    as (Hsms1 & Hjms1 & Hstatus & Hagain).
  repeat split; try done.
  - intros Hc. rewrite Hsame, <- (full_check_ext config F F1) by done.
    by apply Hstatus.
  - intros Hc. apply Hstatus.
    by rewrite (full_check_ext config F F1), <- Hsame.
Qed.

Lemma status_is_function_of_membership_witness :
  Family.full_check default_config (family_of monday monday_four COMPLETE)
  = Family.full_check default_config (family_of monday monday_four INCOMPLETE)
  /\ Family.jms (family_of monday monday_four COMPLETE) = monday_four
  /\ (Family.status (family_of monday monday_four COMPLETE) = COMPLETE
      <-> Family.full_check default_config
            (family_of monday monday_four COMPLETE) = Ok true)
  /\ Family.update_status default_config
       (family_of monday monday_four COMPLETE)
     = Ok (family_of monday monday_four COMPLETE).
Proof.
  apply (status_is_function_of_membership default_config
           (family_of monday monday_four INCOMPLETE)
           (family_of monday monday_four COMPLETE)
           (family_of monday monday_four COMPLETE)).
  - reflexivity.
  - reflexivity.
  - by vm_compute.
Defined.

(** ** What the passes keep: the families and their senior mentors *)

Lemma update_status_sms config F F1 :
  Family.update_status config F = Ok F1 ->
  Family.sms F1 = Family.sms F /\ Family.jms F1 = Family.jms F.
Proof. intros Hup. by apply update_status_inv in Hup as (ok & _ & ->). Qed.

Lemma add_jm_sms config F jm :
  Family.sms (Family.add_jm config F jm).1 = Family.sms F.
Proof.
  unfold Family.add_jm.
  destruct (Family.update_status config _) as [F2|e] eqn:H1.
  - cbn [fst]. by apply update_status_sms in H1 as [-> _].
  - match goal with |- context [Family.update_status config ?X] =>
      assert (Hx : Family.sms X = Family.sms F);
      [|destruct (Family.update_status config X) as [F3|e'] eqn:H2] end.
    + destruct (jm_in _ _); [|done]. by destruct (jms_remove _ _).
    + cbn [fst]. apply update_status_sms in H2 as [-> _]. done.
    + done.
Qed.

Lemma remove_jm_sms config F jm :
  Family.sms (Family.remove_jm config F jm).1 = Family.sms F.
Proof.
  unfold Family.remove_jm.
  assert (Hatt : Family.sms (Family.remove_attempt config F jm).1
                 = Family.sms F).
  { unfold Family.remove_attempt. destruct (jms_remove _ _); [|done].
    destruct (Family.update_status config _) as [F2|e] eqn:H1; [|done].
    cbn [fst]. by apply update_status_sms in H1 as [-> _]. }
  destruct (Family.remove_attempt config F jm) as [F1 [b|e]]; [done|].
  simpl in Hatt.
  match goal with |- context [Family.update_status config ?X] =>
    assert (Hx : Family.sms X = Family.sms F);
    [|destruct (Family.update_status config X) as [F3|e'] eqn:H2] end.
  - by destruct (negb _).
  - cbn [fst]. apply update_status_sms in H2 as [-> _]. done.
  - done.
Qed.

Lemma swap_jm_sms config F jm_outgoing jm_incoming :
  Family.sms (Family.swap_jm config F jm_outgoing jm_incoming).1
  = Family.sms F.
Proof.
  unfold Family.swap_jm.
  assert (Hatt :
    Family.sms (Family.swap_attempt config F jm_outgoing jm_incoming).1
    = Family.sms F).
  { unfold Family.swap_attempt. destruct (jms_remove _ _); [|done].
    destruct (Family.update_status config _) as [F2|e] eqn:H1; [|done].
    cbn [fst]. by apply update_status_sms in H1 as [-> _]. }
  destruct (Family.swap_attempt config F jm_outgoing jm_incoming)
    as [F1 [b|e]]; [done|].
  simpl in Hatt.
  match goal with |- context [Family.update_status config ?X] =>
    assert (Hx : Family.sms X = Family.sms F);
    [|destruct (Family.update_status config X) as [F3|e'] eqn:H2] end.
  - destruct (negb _); simpl.
    + destruct (jm_in _ _); [|done]. by destruct (jms_remove _ _).
    + destruct (jm_in _ _); [|done]. by destruct (jms_remove _ _).
  - cbn [fst]. apply update_status_sms in H2 as [-> _]. done.
  - done.
Qed.

Lemma set_family_sms self ref f :
  Family.sms f = Family.sms (FamilyMatcher.family self ref) ->
  sms_of (FamilyMatcher.set_family self ref f) = sms_of self.
Proof.
  unfold sms_of, FamilyMatcher.set_family, FamilyMatcher.family. simpl.
  intros Hf.
  destruct (FamilyMatcher.families self !! ref) as [f0|] eqn:Href.
  - simpl in Hf. rewrite list_fmap_insert. apply list_insert_id.
    by rewrite Hf, list_lookup_fmap, Href.
  - rewrite list_insert_ge; [done|]. by apply lookup_ge_None.
Qed.

(** A call of a mutator changes one family, and not its senior mentors. *)
Lemma call_keeps self ref method self' :
  (forall f, Family.sms (method f).1 = Family.sms f) ->
  FamilyMatcher.call self ref method = Ok self' ->
  sms_of self' = sms_of self
  /\ FamilyMatcher.stray_jms self' = FamilyMatcher.stray_jms self.
Proof.
  intros Hm. unfold FamilyMatcher.call.
  specialize (Hm (FamilyMatcher.family self ref)).
  destruct (method _) as [f [b|e]]; [|done]. intros [= <-].
  split; [|done]. by apply set_family_sms.
Qed.

Lemma remove_strays_families self assigned self' :
  FamilyMatcher.remove_strays self assigned = Ok self' ->
  FamilyMatcher.families self' = FamilyMatcher.families self.
Proof.
  unfold FamilyMatcher.remove_strays. intros Hrun.
  apply (for_each_invariant
           (fun s => FamilyMatcher.families s = FamilyMatcher.families self))
    in Hrun; [done| |done].
  intros s0 x s1 _ Hs0. destruct (jms_remove _ _); [|done].
  by intros [= <-].
Qed.

Lemma call_add_keeps config self ref jm self' :
  FamilyMatcher.call self ref (fun f => Family.add_jm config f jm) = Ok self' ->
  sms_of self' = sms_of self
  /\ FamilyMatcher.stray_jms self' = FamilyMatcher.stray_jms self.
Proof. apply call_keeps. intros f. apply add_jm_sms. Qed.

Lemma call_remove_keeps config self ref jm self' :
  FamilyMatcher.call self ref (fun f => Family.remove_jm config f jm)
  = Ok self' ->
  sms_of self' = sms_of self
  /\ FamilyMatcher.stray_jms self' = FamilyMatcher.stray_jms self.
Proof. apply call_keeps. intros f. apply remove_jm_sms. Qed.

Lemma call_swap_keeps config self ref a b self' :
  FamilyMatcher.call self ref (fun f => Family.swap_jm config f a b)
  = Ok self' ->
  sms_of self' = sms_of self
  /\ FamilyMatcher.stray_jms self' = FamilyMatcher.stray_jms self.
Proof. apply call_keeps. intros f. apply swap_jm_sms. Qed.

Lemma remove_strays_sms self assigned self' :
  FamilyMatcher.remove_strays self assigned = Ok self' ->
  sms_of self' = sms_of self.
Proof.
  intros Hrun. unfold sms_of. by rewrite (remove_strays_families _ _ _ Hrun).
Qed.

Lemma assign_fit_keeps config self assigned jm self' assigned' :
  FamilyMatcher.assign_fit config self assigned jm = Ok (self', assigned') ->
  sms_of self' = sms_of self
  /\ FamilyMatcher.stray_jms self' = FamilyMatcher.stray_jms self.
Proof.
  unfold FamilyMatcher.assign_fit. intros Hrun.
  apply rbind_ok in Hrun as ([[s1 fit1] a1] & Hloop & [= <- <-]).
  apply (for_each_invariant
           (fun r : FamilyMatcher.t * bool * list JM.t =>
              sms_of r.1.1 = sms_of self
              /\ FamilyMatcher.stray_jms r.1.1 = FamilyMatcher.stray_jms self))
    in Hloop; [done| |done].
  intros [[s0 fit0] a0] ref [[s2 fit2] a2] _ [Hs0 Hj0] Hbody. simpl in *.
  destruct fit0; [by injection Hbody as <- <- <-|].
  apply rbind_ok in Hbody as (fits & _ & Hbody).
  destruct fits; [|by injection Hbody as <- <- <-].
  apply rbind_ok in Hbody as (s3 & Hcall & [= <- <- <-]).
  apply call_add_keeps in Hcall as [-> ->]. done.
Qed.

Lemma assign_perfect_fits_keeps config self self' :
  FamilyMatcher.assign_perfect_fits config self = Ok self' ->
  sms_of self' = sms_of self.
Proof.
  unfold FamilyMatcher.assign_perfect_fits. intros Hrun.
  apply rbind_ok in Hrun as ([s1 a1] & Hloop & Hrm).
  apply remove_strays_sms in Hrm. rewrite Hrm. simpl.
  apply (for_each_invariant
           (fun r : FamilyMatcher.t * list JM.t => sms_of r.1 = sms_of self))
    in Hloop; [done| |done].
  intros [s0 a0] jm [s2 a2] _ Hs0 Hbody. simpl in *.
  apply assign_fit_keeps in Hbody as [-> _]. done.
Qed.

Lemma stray_adds_into_keeps config self i self' :
  FamilyMatcher.stray_adds_into config self i = Ok self' ->
  sms_of self' = sms_of self.
Proof.
  unfold FamilyMatcher.stray_adds_into. intros Hrun.
  apply rbind_ok in Hrun as ([s1 a1] & Hloop & Hrm).
  apply remove_strays_sms in Hrm. rewrite Hrm. simpl.
  apply (for_each_invariant
           (fun r : FamilyMatcher.t * list JM.t => sms_of r.1 = sms_of self))
    in Hloop; [done| |done].
  intros [s0 a0] jm [s2 a2] _ Hs0 Hbody. simpl in *.
  destruct (FamilyMatcher.size_satisfied config _);
    [by injection Hbody as <- <-|].
  apply rbind_ok in Hbody as (fits & _ & Hbody).
  destruct fits; [|by injection Hbody as <- <-].
  apply rbind_ok in Hbody as (s3 & Hcall & [= <- <-]).
  apply call_add_keeps in Hcall as [-> _]. done.
Qed.

Lemma steal_for_keeps config self i complete self' :
  FamilyMatcher.steal_for config self i complete = Ok self' ->
  sms_of self' = sms_of self.
Proof.
  induction complete as [|c rest IH]; simpl; [by intros [= <-]|].
  intros Hrun. apply rbind_ok in Hrun as (stolen & _ & Hrun).
  destruct stolen as [jm|]; [|by apply IH].
  apply rbind_ok in Hrun as (s1 & Hadd & Hrm).
  apply call_add_keeps in Hadd as [<- _].
  by apply call_remove_keeps in Hrm as [-> _].
Qed.

Lemma swap_between_keeps config self i f self' :
  FamilyMatcher.swap_between config self i f = Ok self' ->
  sms_of self' = sms_of self.
Proof.
  unfold FamilyMatcher.swap_between. intros Hrun.
  apply rbind_ok in Hrun as (found & _ & Hrun).
  destruct found as [[this other]|]; [|by injection Hrun as <-].
  apply rbind_ok in Hrun as (s1 & H1 & H2).
  apply call_swap_keeps in H1 as [<- _].
  by apply call_swap_keeps in H2 as [-> _].
Qed.

Lemma swap_with_stray_keeps config self f self' :
  FamilyMatcher.swap_with_stray config self f = Ok self' ->
  sms_of self' = sms_of self.
Proof.
  unfold FamilyMatcher.swap_with_stray. intros Hrun.
  apply rbind_ok in Hrun as (found & _ & Hrun).
  destruct found as [[this stray]|]; [|by injection Hrun as <-].
  apply rbind_ok in Hrun as (s1 & H1 & H2).
  apply call_swap_keeps in H1 as [<- _].
  unfold FamilyMatcher.stray_swap in H2.
  destruct (jms_remove _ _); [|done]. by injection H2 as <-.
Qed.

(** A loop of steps that keep the senior mentors keeps them. *)
Lemma for_each_keeps {A : Type} (l : list A)
    (step : FamilyMatcher.t -> A -> result FamilyMatcher.t) self self' :
  (forall s x s', step s x = Ok s' -> sms_of s' = sms_of s) ->
  for_each l step self = Ok self' -> sms_of self' = sms_of self.
Proof.
  intros Hstep Hrun.
  apply (for_each_invariant (fun s => sms_of s = sms_of self)) in Hrun;
    [done| |done].
  intros s0 x s1 _ Hs0 Hbody. rewrite <- Hs0. by eapply Hstep.
Qed.

Lemma perfect_stray_adds_keeps config self inc comp self' lists :
  FamilyMatcher.perfect_stray_adds config self inc comp = Ok (self', lists) ->
  sms_of self' = sms_of self.
Proof.
  unfold FamilyMatcher.perfect_stray_adds. intros Hrun.
  apply rbind_ok in Hrun as (s1 & Hloop & Hrun).
  apply rbind_ok in Hrun as (l1 & _ & [= <- _]).
  eapply for_each_keeps; [|exact Hloop].
  intros s x s'. apply stray_adds_into_keeps.
Qed.

Lemma perfect_steals_keeps config self inc comp self' lists :
  FamilyMatcher.perfect_steals config self inc comp = Ok (self', lists) ->
  sms_of self' = sms_of self.
Proof.
  unfold FamilyMatcher.perfect_steals. intros Hrun.
  apply rbind_ok in Hrun as (s1 & Hloop & Hrun).
  apply rbind_ok in Hrun as (l1 & _ & [= <- _]).
  eapply for_each_keeps; [|exact Hloop].
  intros s x s'. apply steal_for_keeps.
Qed.

Lemma perfect_swaps_keeps config self inc comp self' lists :
  FamilyMatcher.perfect_swaps config self inc comp = Ok (self', lists) ->
  sms_of self' = sms_of self.
Proof.
  unfold FamilyMatcher.perfect_swaps. intros Hrun.
  apply rbind_ok in Hrun as (s1 & Hloop & Hrun).
  apply rbind_ok in Hrun as (l1 & _ & [= <- _]).
  eapply for_each_keeps; [|exact Hloop].
  intros s i s' Hinner. eapply for_each_keeps; [|exact Hinner].
  intros s0 f s0'. apply swap_between_keeps.
Qed.

Lemma perfect_stray_swaps_keeps config self inc comp self' lists :
  FamilyMatcher.perfect_stray_swaps config self inc comp = Ok (self', lists) ->
  sms_of self' = sms_of self.
Proof.
  unfold FamilyMatcher.perfect_stray_swaps. intros Hrun.
  apply rbind_ok in Hrun as (s1 & Hloop & Hrun).
  apply rbind_ok in Hrun as (l1 & _ & [= <- _]).
  eapply for_each_keeps; [|exact Hloop].
  intros s x s'. apply swap_with_stray_keeps.
Qed.

Lemma pass_keeps config self self' :
  FamilyMatcher.pass config self = Ok self' -> sms_of self' = sms_of self.
Proof.
  unfold FamilyMatcher.pass. intros Hrun.
  apply rbind_ok in Hrun as (s1 & H1 & Hrun).
  apply rbind_ok in Hrun as ([s2 l2] & H2 & Hrun).
  apply rbind_ok in Hrun as ([s3 l3] & H3 & Hrun).
  apply rbind_ok in Hrun as ([s4 l4] & H4 & Hrun).
  apply rbind_ok in Hrun as ([s5 l5] & H5 & [= <-]).
  simpl in *.
  apply assign_perfect_fits_keeps in H1.
  apply perfect_stray_adds_keeps in H2.
  apply perfect_steals_keeps in H3.
  apply perfect_swaps_keeps in H4.
  apply perfect_stray_swaps_keeps in H5. congruence.
Qed.

(** ** The loop of [iterate] *)

Lemma for_each_seq_iter {S : Type} (step : S -> result S) (n a : nat) (s : S) :
  for_each (seq a n) (fun s _ => step s) s
  = Nat.iter n (fun r => rbind r step) (Ok s).
Proof.
  induction n as [|n IH]; [done|].
  rewrite seq_S, for_each_app, IH. simpl.
  destruct (Nat.iter n _ _) as [s'|e]; [|done]. simpl.
  by destruct (step s').
Qed.

(** ** The pass of steals *)

(** A search loop that has found its element keeps it. *)
Lemma for_each_found {A B : Type} (l : list A)
    (body : option B -> A -> result (option B)) (x : B) :
  (forall j, body (Some x) j = Ok (Some x)) ->
  for_each l body (Some x) = Ok (Some x).
Proof.
  intros Hbody. induction l as [|j l IH]; simpl; [done|].
  by rewrite Hbody.
Qed.

Lemma find_stolen_loop config self i c (l : list JM.t) (jm : JM.t) :
  for_each l
    (fun stolen jm =>
       match stolen with
       | Some _ => Ok stolen
       | None =>
           if FamilyMatcher.size_satisfied config (FamilyMatcher.family self i)
           then Ok None
           else
             fits <~ Family.jm_add_check config
                       (FamilyMatcher.family self i) jm ;;
             if fits then
               allowed <~ Family.allow_steal config
                            (FamilyMatcher.family self c) jm ;;
               Ok (if allowed then Some jm else None)
             else Ok None
       end)
    None = Ok (Some jm) ->
  FamilyMatcher.size_satisfied config (FamilyMatcher.family self i) = false
  /\ Family.jm_add_check config (FamilyMatcher.family self i) jm = Ok true
  /\ Family.allow_steal config (FamilyMatcher.family self c) jm = Ok true
  /\ exists earlier later,
       l = earlier ++ jm :: later
       /\ Forall (fun j =>
                    Family.jm_add_check config (FamilyMatcher.family self i) j
                    = Ok false
                    \/ Family.allow_steal config
                         (FamilyMatcher.family self c) j = Ok false)
                 earlier.
Proof.
  induction l as [|j l IH]; simpl; [done|].
  destruct (FamilyMatcher.size_satisfied config _) eqn:Hsize.
  { simpl. intros Hrun. destruct (IH Hrun) as (? & _). done. }
  destruct (Family.jm_add_check config _ j) as [[|]|e] eqn:Hfits; simpl;
    [| |done].
  - destruct (Family.allow_steal config _ j) as [[|]|e] eqn:Hallowed; simpl;
      [| |done].
    + rewrite for_each_found by done. intros [= <-].
      repeat split; try done. exists [], l. by split.
    + intros Hrun. destruct (IH Hrun) as (_ & Hj & Ha & earlier & later & -> & Hall).
      repeat split; try done. exists (j :: earlier), later.
      split; [done|]. constructor; [by right|done].
  - intros Hrun. destruct (IH Hrun) as (_ & Hj & Ha & earlier & later & -> & Hall).
    repeat split; try done. exists (j :: earlier), later.
    split; [done|]. constructor; [by left|done].
Qed.

(** C8, as stated, fails: with room between the bounds of the family size
    the donor of three gives one member to each of two receivers in one
    pass. *)
Lemma donor_gives_twice_in_one_pass :
  FamilyMatcher.perfect_steals one_to_three
    (matcher_of [family_of monday [amy; ben; dan] COMPLETE;
                 family_of tuesday [] INCOMPLETE;
                 family_of friday [] INCOMPLETE] [])
    [1; 2]%nat [0]%nat
  = Ok (matcher_of [family_of monday [dan] COMPLETE;
                    family_of tuesday [amy] COMPLETE;
                    family_of friday [ben] COMPLETE] [],
        ([], [0; 1; 2]%nat)).
Proof. by vm_compute. Qed.

(** One visit of a receiver by the loop over the donors. *)
Lemma steal_for_visit config self i complete self' :
  FamilyMatcher.steal_for config self i complete = Ok self' ->
  steal_visit config complete self i self'.
Proof.
  unfold steal_visit. induction complete as [|c rest IH]; simpl.
  - intros [= <-]. left. by split.
  - intros Hrun. apply rbind_ok in Hrun as (stolen & Hfind & Hrun).
    destruct stolen as [jm|].
    + right. apply rbind_ok in Hrun as (self1 & Hadd & Hrm).
      exists [], c, rest, jm, self1.
      destruct (find_stolen_loop _ _ _ _ _ _ Hfind)
        as (Hsize & Hfits & Hallowed & Hfirst).
      repeat split; done.
    + destruct (IH Hrun) as [[-> Hnone]|Hsome].
      * left. split; [done|]. by constructor.
      * right.
        destruct Hsome as (before & c' & after & jm & self1 & -> & Hnone
                           & Hrest).
        exists (c :: before), c', after, jm, self1.
        split; [done|]. split; [by constructor|done].
Qed.

(** ** The checks *)

Lemma check_data_unfold config F on_count jm compatible :
  Family.check_data config F on_count jm compatible
  = for_each (JM.data jm) (check_step config F on_count) compatible.
Proof. done. Qed.

(** A check only appends verdicts. *)
Lemma check_steps_grow config F on_count (l : list DataValue.t) acc c :
  for_each l (check_step config F on_count) acc = Ok c ->
  exists extra, c = acc ++ extra.
Proof.
  intros Hrun.
  apply (for_each_invariant (fun c => exists extra, c = acc ++ extra))
    in Hrun; [done| |by exists []; rewrite app_nil_r].
  intros c0 dv c1 _ [extra ->] Hstep. unfold check_step in Hstep.
  destruct (is_preference config _).
  { apply rbind_ok in Hstep as (b & _ & [= <-]).
    exists (extra ++ [b]). by rewrite app_assoc. }
  destruct (is_count config _).
  { apply rbind_ok in Hstep as (constraint & _ & Hstep).
    apply rbind_ok in Hstep as (b & _ & [= <-]).
    exists (extra ++ [b]). by rewrite app_assoc. }
  destruct (is_difference config _).
  { apply rbind_ok in Hstep as (b & _ & [= <-]).
    exists (extra ++ [b]). by rewrite app_assoc. }
  injection Hstep as <-. by exists extra.
Qed.

Lemma all_false (c : list bool) : false ∈ c -> all c = false.
Proof.
  unfold all. induction c as [|b c IH]; intros Hin; simpl.
  - by apply elem_of_nil in Hin.
  - apply elem_of_cons in Hin as [<-|Hin]; [done|].
    rewrite IH by done. apply andb_false_r.
Qed.

(** A rating above the threshold puts [False] among the verdicts. *)
Lemma check_data_rated_too_high config F on_count jm acc c :
  rated_too_high config (Family.sms F) jm ->
  Family.check_data config F on_count jm acc = Ok c -> false ∈ c.
Proof.
  intros (dv & Hdv & Hpref & Hlow). rewrite check_data_unfold.
  apply list_elem_of_split in Hdv as (pre & post & ->).
  rewrite for_each_app. intros Hrun.
  apply rbind_ok in Hrun as (c1 & _ & Hrun). simpl in Hrun.
  apply rbind_ok in Hrun as (c2 & Hstep & Hrun).
  unfold check_step in Hstep. rewrite Hpref, Hlow in Hstep.
  injection Hstep as <-.
  apply check_steps_grow in Hrun as [extra ->].
  apply elem_of_app. left. apply elem_of_app. right. left.
Qed.

Lemma jm_add_check_rated_too_high config F jm :
  rated_too_high config (Family.sms F) jm ->
  Family.jm_add_check config F jm <> Ok true.
Proof.
  intros Hhigh. unfold Family.jm_add_check.
  destruct (Family.check_data config F _ jm _) as [c|e] eqn:Hc; [|done].
  simpl. apply check_data_rated_too_high in Hc; [|done].
  by rewrite all_false.
Qed.

(** ** The first pass over the stray mentors *)

Lemma jms_remove_other jm y l l' :
  jms_remove y l = Some l' -> JM.is_ jm y = false -> jm ∈ l -> jm ∈ l'.
Proof.
  unfold jms_remove. revert l'.
  induction l as [|x l IH]; intros l' Hrm Hne Hin; simpl in Hrm; [done|].
  destruct (JM.is_ x y) eqn:Hxy.
  - injection Hrm as <-. apply elem_of_cons in Hin as [->|Hin]; [|done].
    congruence.
  - destruct (list_remove JM.is_ y l) as [l1|] eqn:Hl; [|done].
    injection Hrm as <-. apply elem_of_cons in Hin as [->|Hin]; [left|].
    right. by apply IH.
Qed.

Lemma remove_strays_other self assigned self' jm :
  FamilyMatcher.remove_strays self assigned = Ok self' ->
  (forall y, y ∈ assigned -> JM.is_ jm y = false) ->
  jm ∈ FamilyMatcher.stray_jms self -> jm ∈ FamilyMatcher.stray_jms self'.
Proof.
  unfold FamilyMatcher.remove_strays. intros Hrun Hother Hin.
  apply (for_each_invariant (fun s => jm ∈ FamilyMatcher.stray_jms s))
    in Hrun; [done| |done].
  intros s0 y s1 Hy Hs0 Hbody.
  destruct (jms_remove y _) as [l|] eqn:Hrm; [|done].
  injection Hbody as <-. simpl. eapply jms_remove_other; eauto.
Qed.

Lemma family_sms_in self ref :
  ref ∈ FamilyMatcher.refs self ->
  Family.sms (FamilyMatcher.family self ref) ∈ sms_of self.
Proof.
  unfold FamilyMatcher.refs, FamilyMatcher.family, sms_of. intros Href.
  apply elem_of_seq in Href as [_ Href]. simpl in Href.
  destruct (lookup_lt_is_Some_2 (FamilyMatcher.families self) ref Href)
    as [f Hf].
  rewrite Hf. simpl. apply (list_elem_of_fmap_2 Family.sms).
  by eapply list_elem_of_lookup_2.
Qed.

Lemma refs_sms_of s s' :
  sms_of s = sms_of s' -> FamilyMatcher.refs s = FamilyMatcher.refs s'.
Proof.
  unfold sms_of, FamilyMatcher.refs. intros H.
  apply (f_equal length) in H. rewrite !length_map in H. by rewrite H.
Qed.

(** The mentors that [assign_fit] adds to [assigned] were accepted by a
    family of the matcher. *)
Lemma assign_fit_assigned config self assigned jm self' assigned'
    (accepted : JM.t -> Prop) :
  (forall F, Family.sms F ∈ sms_of self ->
             Family.jm_add_check config F jm = Ok true -> accepted jm) ->
  Forall accepted assigned ->
  FamilyMatcher.assign_fit config self assigned jm = Ok (self', assigned') ->
  Forall accepted assigned'.
Proof.
  intros Hacc Hall. unfold FamilyMatcher.assign_fit. intros Hrun.
  apply rbind_ok in Hrun as ([[s1 fit1] a1] & Hloop & [= <- <-]).
  apply (for_each_invariant
           (fun r : FamilyMatcher.t * bool * list JM.t =>
              sms_of r.1.1 = sms_of self /\ Forall accepted r.2))
    in Hloop; [by destruct Hloop| |done].
  intros [[s0 fit0] a0] ref [[s2 fit2] a2] Href [Hs0 Ha0] Hbody. simpl in *.
  destruct fit0; [by injection Hbody as <- <- <-|].
  apply rbind_ok in Hbody as (fits & Hfits & Hbody).
  destruct fits; [|by injection Hbody as <- <- <-].
  apply rbind_ok in Hbody as (s3 & Hcall & [= <- <- <-]).
  apply call_add_keeps in Hcall as [-> _]. split; [done|].
  apply Forall_app. split; [done|]. constructor; [|done].
  eapply Hacc; [|exact Hfits]. rewrite <- Hs0. apply family_sms_in.
  by rewrite (refs_sms_of s0 self).
Qed.

(** C4, as stated, fails for the heuristic strategy: a mentor whose only
    rating is 0 passes the test against the threshold and is placed by
    [assign_perfect_fits]; after [iterate] the mentor is a member of the
    family and the list of stray mentors is empty. *)
Lemma zero_rating_is_placed :
  FamilyMatcher.assign_perfect_fits default_config
    (matcher_of [family_of monday [] INCOMPLETE] [zed])
  = Ok (matcher_of [family_of monday [zed] INCOMPLETE] [])
  /\ FamilyMatcher.iterate default_config
       (matcher_of [family_of monday [] INCOMPLETE] [zed])
     = Ok (matcher_of [family_of monday [zed] INCOMPLETE] []).
Proof. split; by vm_compute. Qed.

Lemma dan_rated_too_high : rated_too_high default_config monday dan.
Proof.
  exists (datavalue availability (PyDict (list_to_map [("Mon", "3")]%string))).
  split; [left|]. split; by vm_compute.
Qed.

(** ** The lists of incomplete and complete families *)

Lemma split_loop self (l inc comp : list nat) :
  foldl (fun '((incomplete_families, complete_families)
               : list nat * list nat) f =>
           if status_eqb (Family.status (FamilyMatcher.family self f)) COMPLETE
           then (incomplete_families, complete_families ++ [f])
           else (incomplete_families ++ [f], complete_families))
        (inc, comp) l
  = (inc ++ List.filter
              (fun f => negb (status_eqb
                                (Family.status (FamilyMatcher.family self f))
                                COMPLETE)) l,
     comp ++ List.filter
               (fun f => status_eqb
                           (Family.status (FamilyMatcher.family self f))
                           COMPLETE) l).
Proof.
  revert inc comp. induction l as [|f l IH]; intros inc comp; simpl.
  - by rewrite !app_nil_r.
  - destruct (status_eqb _ COMPLETE); simpl; rewrite IH;
      by rewrite <- app_assoc.
Qed.

(** [split_families_by_status] appends to the first list the families
    that are not COMPLETE and to the second those that are, each in the
    order of [self.families]. *)
Theorem split_families_by_status_filters self inc comp :
  FamilyMatcher.split_families_by_status self inc comp
  = (inc ++ List.filter
              (fun f => negb (status_eqb
                                (Family.status (FamilyMatcher.family self f))
                                COMPLETE))
              (FamilyMatcher.refs self),
     comp ++ List.filter
               (fun f => status_eqb
                           (Family.status (FamilyMatcher.family self f))
                           COMPLETE)
               (FamilyMatcher.refs self)).
Proof. apply split_loop. Qed.

Lemma list_remove_first (P : nat -> bool) (pre l : list nat) (x : nat) :
  Forall (fun y => P y = false) pre -> P x = true ->
  list_remove Nat.eqb x (pre ++ x :: l) = Some (pre ++ l).
Proof.
  intros Hpre Hx. induction pre as [|y pre IH]; simpl.
  - by rewrite Nat.eqb_refl.
  - apply Forall_cons in Hpre as [Hy Hpre].
    destruct (Nat.eqb y x) eqn:Hyx.
    + apply Nat.eqb_eq in Hyx. congruence.
    + by rewrite IH.
Qed.

Lemma promote_remove_loop (P : nat -> bool) (pre l : list nat) :
  Forall (fun y => P y = false) pre ->
  for_each (List.filter P l)
    (fun incomplete_families promoted_family =>
       match list_remove Nat.eqb promoted_family incomplete_families with
       | Some l => Ok l
       | None => Raise ValueError
       end)
    (pre ++ l)
  = Ok (pre ++ List.filter (fun f => negb (P f)) l).
Proof.
  revert pre. induction l as [|x l IH]; intros pre Hpre; simpl; [done|].
  destruct (P x) eqn:Hx; simpl.
  - rewrite (list_remove_first P) by done. simpl. by apply IH.
  - replace (pre ++ x :: l) with ((pre ++ [x]) ++ l)
      by (by rewrite <- app_assoc).
    rewrite IH.
    + by rewrite <- app_assoc.
    + apply Forall_app. split; [done|]. by constructor.
Qed.

Lemma promote_fold_loop (P : nat -> bool) (l comp promoted : list nat) :
  foldl (fun '((complete_families, promoted) : list nat * list nat) f =>
           if P f then (complete_families ++ [f], promoted ++ [f])
           else (complete_families, promoted))
        (comp, promoted) l
  = (comp ++ List.filter P l, promoted ++ List.filter P l).
Proof.
  revert comp promoted. induction l as [|f l IH]; intros comp promoted; simpl.
  - by rewrite !app_nil_r.
  - destruct (P f); simpl; rewrite IH; by rewrite <- ?app_assoc.
Qed.

(** [promote_families_by_status] never raises: it moves the families of
    the first list that are COMPLETE to the end of the second list and
    keeps the order of both, also when a family is listed twice. *)
Theorem promote_families_by_status_moves self inc comp :
  FamilyMatcher.promote_families_by_status self inc comp
  = Ok (List.filter
          (fun f => negb (status_eqb
                            (Family.status (FamilyMatcher.family self f))
                            COMPLETE)) inc,
        comp ++ List.filter
                  (fun f => status_eqb
                              (Family.status (FamilyMatcher.family self f))
                              COMPLETE) inc).
Proof.
  unfold FamilyMatcher.promote_families_by_status.
  rewrite (promote_fold_loop
             (fun f => status_eqb (Family.status (FamilyMatcher.family self f))
                         COMPLETE)).
  pose proof (promote_remove_loop
                (fun f => status_eqb
                            (Family.status (FamilyMatcher.family self f))
                            COMPLETE) [] inc ltac:(constructor)) as Hloop.
  cbn [app] in Hloop. cbn [app]. by rewrite Hloop.
Qed.

(** The same equation, for the proofs about the passes. *)
Lemma promote_families_by_status_lists self inc comp :
  FamilyMatcher.promote_families_by_status self inc comp
  = Ok (List.filter
          (fun f => negb (status_eqb
                            (Family.status (FamilyMatcher.family self f))
                            COMPLETE)) inc,
        comp ++ List.filter
                  (fun f => status_eqb
                              (Family.status (FamilyMatcher.family self f))
                              COMPLETE) inc).
Proof.
  unfold FamilyMatcher.promote_families_by_status.
  rewrite (promote_fold_loop
             (fun f => status_eqb (Family.status (FamilyMatcher.family self f))
                         COMPLETE)).
  pose proof (promote_remove_loop
                (fun f => status_eqb
                            (Family.status (FamilyMatcher.family self f))
                            COMPLETE) [] inc ltac:(constructor)) as Hloop.
  cbn [app] in Hloop. cbn [app]. by rewrite Hloop.
Qed.

(** ** More on the mutators and the checks *)

Lemma jms_remove_last jm l :
  jm_in jm l = false -> jms_remove jm (l ++ [jm]) = Some l.
Proof.
  unfold jm_in, jms_remove. induction l as [|x l IH]; simpl.
  - by rewrite is_refl.
  - intros Hin. apply orb_false_iff in Hin as [Hx Hl].
    rewrite is_sym, Hx. by rewrite IH.
Qed.

(** [add_jm] of a mentor that is not a member is all or nothing: the
    mentor is the last member when the call returns [True], and the
    members are those of before when it returns [False] or raises. *)
Theorem add_jm_all_or_nothing config F jm :
  jm_in jm (Family.jms F) = false ->
  Family.jms (Family.add_jm config F jm).1
  = match (Family.add_jm config F jm).2 with
    | Ok true => Family.jms F ++ [jm]
    | _ => Family.jms F
    end.
Proof.
  intros Habsent. unfold Family.add_jm.
  destruct (Family.update_status config _) as [F2|e] eqn:H1.
  - cbn [fst snd]. by apply update_status_sms in H1 as [_ ->].
  - assert (Hin : jm_in jm (Family.jms
                    (Family.set_jms F (Family.jms F ++ [jm]))) = true).
    { simpl. rewrite jm_in_app, Habsent. simpl. by rewrite is_refl. }
    rewrite Hin. simpl Family.jms at 1.
    cbn [Family.jms Family.set_jms].
    rewrite (jms_remove_last _ _ Habsent).
    match goal with |- context [Family.update_status config ?X] =>
      destruct (Family.update_status config X) as [F3|e'] eqn:H2 end;
      cbn [fst snd].
    + by apply update_status_sms in H2 as [_ ->].
    + done.
Qed.

Lemma add_jm_all_or_nothing_witness :
  Family.jms
    (Family.add_jm default_config (family_of monday [amy] INCOMPLETE) cat).1
  = match (Family.add_jm default_config
             (family_of monday [amy] INCOMPLETE) cat).2 with
    | Ok true => [amy] ++ [cat]
    | _ => [amy]
    end.
Proof.
  apply (add_jm_all_or_nothing default_config
           (family_of monday [amy] INCOMPLETE) cat).
  by vm_compute.
Defined.

Lemma update_status_current config F F1 :
  Family.update_status config F = Ok F1 -> current config F1.
Proof. intros Hup. by apply update_status_consistent in Hup as (_ & _ & ? & _). Qed.

(** Whenever a mutator returns, with [True] or with [False], the status
    of the family is the one that [full_check] gives to its members. *)
Theorem mutators_leave_status_current config F jm other :
  match Family.add_jm config F jm with
  | (F', Ok _) => current config F'
  | (_, Raise _) => True
  end
  /\ match Family.remove_jm config F jm with
     | (F', Ok _) => current config F'
     | (_, Raise _) => True
     end
  /\ match Family.swap_jm config F jm other with
     | (F', Ok _) => current config F'
     | (_, Raise _) => True
     end.
Proof.
  split; [|split].
  - unfold Family.add_jm.
    destruct (Family.update_status config _) as [F2|e] eqn:H1;
      [by eapply update_status_current|].
    match goal with |- context [Family.update_status config ?X] =>
      destruct (Family.update_status config X) as [F3|e'] eqn:H2 end;
      [by eapply update_status_current|done].
  - unfold Family.remove_jm, Family.remove_attempt.
    destruct (jms_remove jm (Family.jms F)) as [l|].
    + destruct (Family.update_status config _) as [F2|e] eqn:H1;
        [by eapply update_status_current|].
      match goal with |- context [Family.update_status config ?X] =>
        destruct (Family.update_status config X) as [F3|e'] eqn:H2 end;
        [by eapply update_status_current|done].
    + match goal with |- context [Family.update_status config ?X] =>
        destruct (Family.update_status config X) as [F3|e'] eqn:H2 end;
        [by eapply update_status_current|done].
  - unfold Family.swap_jm, Family.swap_attempt.
    destruct (jms_remove jm (Family.jms F)) as [l|].
    + destruct (Family.update_status config _) as [F2|e] eqn:H1;
        [by eapply update_status_current|].
      match goal with |- context [Family.update_status config ?X] =>
        destruct (Family.update_status config X) as [F3|e'] eqn:H2 end;
        [by eapply update_status_current|done].
    + match goal with |- context [Family.update_status config ?X] =>
        destruct (Family.update_status config X) as [F3|e'] eqn:H2 end;
        [by eapply update_status_current|done].
Qed.

Lemma all_cons b c : all (b :: c) = b && all c.
Proof. done. Qed.

Lemma full_check_loop_grows config F on_count (l : list JM.t) acc c :
  for_each l
    (fun compatible jm => Family.check_data config F on_count jm compatible)
    acc = Ok c ->
  exists extra, c = acc ++ extra.
Proof.
  intros Hrun.
  apply (for_each_invariant (fun c => exists extra, c = acc ++ extra))
    in Hrun; [done| |by exists []; rewrite app_nil_r].
  intros c0 jm c1 _ [extra ->] Hstep. rewrite check_data_unfold in Hstep.
  apply check_steps_grow in Hstep as [extra' ->].
  exists (extra ++ extra'). by rewrite app_assoc.
Qed.

(** A family that [full_check] accepts has a number of members within the
    bounds of the constraint on the family size. *)
Theorem complete_family_size config F :
  Family.full_check config F = Ok true ->
  CountConstraint.min_count (jm_count_constraint config)
  <= len (Family.jms F)
  <= CountConstraint.max_count (jm_count_constraint config).
Proof.
  unfold Family.full_check. intros Hrun.
  apply rbind_ok in Hrun as (c & Hloop & [= Hall]).
  apply full_check_loop_grows in Hloop as [extra ->].
  simpl in Hall. apply andb_true_iff in Hall as [Hsize _].
  unfold CountConstraint.is_satisfied in Hsize.
  apply andb_true_iff in Hsize as [Hlo Hhi].
  apply Z.leb_le in Hlo, Hhi. done.
Qed.

Lemma complete_family_size_witness :
  CountConstraint.min_count (jm_count_constraint default_config)
  <= len (Family.jms (family_of monday monday_four COMPLETE))
  <= CountConstraint.max_count (jm_count_constraint default_config).
Proof.
  apply (complete_family_size default_config
           (family_of monday monday_four COMPLETE)).
  by vm_compute.
Defined.

(** [jm_add_check] accepts a mentor only for a family that has room for
    one more member. *)
Theorem jm_add_check_needs_room config F jm :
  Family.jm_add_check config F jm = Ok true ->
  len (Family.jms F) + 1
  <= CountConstraint.max_count (jm_count_constraint config).
Proof.
  unfold Family.jm_add_check. intros Hrun.
  apply rbind_ok in Hrun as (c & Hloop & [= Hall]).
  rewrite check_data_unfold in Hloop.
  apply check_steps_grow in Hloop as [extra ->].
  simpl in Hall. apply andb_true_iff in Hall as [Hsize _].
  unfold JMCountConstraint.can_be_satisfied, Family.get_availability in Hsize.
  apply Z.eqb_eq in Hsize. lia.
Qed.

Lemma jm_add_check_needs_room_witness :
  len (Family.jms (family_of monday [] INCOMPLETE)) + 1
  <= CountConstraint.max_count (jm_count_constraint default_config).
Proof.
  apply (jm_add_check_needs_room default_config
           (family_of monday [] INCOMPLETE) amy).
  by vm_compute.
Defined.

(** [is_preference] looks for the header of a constraint inside the header
    of a data value, [get_constraint] for an equal header.  A mentor whose
    first data value passes the first test and fails the second makes the
    three checks of a mentor raise AttributeError. *)
Theorem unmatched_preference_header_raises config F jm jms dv rest :
  JM.data jm = dv :: rest ->
  is_preference config (DataValue.header dv) = true ->
  get_constraint (DataValue.header dv) (preference_constraints config)
  = None ->
  Family.jm_add_check config F jm = Raise AttributeError
  /\ Family.jm_steal_check config F jm jms = Raise AttributeError
  /\ Family.jm_swap_check config F jm jms = Raise AttributeError.
Proof.
  intros Hdata Hpref Hnone.
  assert (Hstep : forall on_count acc,
    Family.check_data config F on_count jm acc = Raise AttributeError).
  { intros on_count acc. rewrite check_data_unfold, Hdata. cbn [for_each].
    unfold check_step. rewrite Hpref.
    unfold Family.preference_compatible. by rewrite Hnone. }
  unfold Family.jm_add_check, Family.jm_steal_check, Family.jm_swap_check.
  by rewrite !Hstep.
Qed.

Lemma unmatched_preference_header_raises_witness :
  Family.jm_add_check default_config (family_of monday [] INCOMPLETE) gil
  = Raise AttributeError
  /\ Family.jm_steal_check default_config (family_of monday [] INCOMPLETE)
       gil [] = Raise AttributeError
  /\ Family.jm_swap_check default_config (family_of monday [] INCOMPLETE)
       gil [] = Raise AttributeError.
Proof.
  apply (unmatched_preference_header_raises default_config
           (family_of monday [] INCOMPLETE) gil []
           (datavalue (availability ++ " (evenings)")
              (PyDict (list_to_map [("Mon", "1")]%string))) []).
  - reflexivity.
  - by vm_compute.
  - by vm_compute.
Defined.

(** ** A steal that is allowed *)

Lemma check_step_acc config F on_count acc dv :
  check_step config F on_count acc dv
  = (e <~ check_step config F on_count [] dv ;; Ok (acc ++ e)).
Proof.
  unfold check_step.
  destruct (is_preference config _).
  { by destruct (Family.preference_compatible config _ dv). }
  destruct (is_count config _).
  { destruct (attr _) as [constraint|]; [|done]. simpl.
    by destruct (on_count constraint dv). }
  destruct (is_difference config _).
  { by destruct (Family.difference_compatible config _ dv). }
  simpl. by rewrite app_nil_r.
Qed.

Lemma check_steps_acc config F on_count (l : list DataValue.t) acc :
  for_each l (check_step config F on_count) acc
  = (c <~ for_each l (check_step config F on_count) [] ;; Ok (acc ++ c)).
Proof.
  revert acc. induction l as [|dv l IH]; intros acc; simpl.
  - by rewrite app_nil_r.
  - rewrite check_step_acc.
    destruct (check_step config F on_count [] dv) as [e|]; [|done].
    simpl. rewrite (IH (acc ++ e)), (IH e).
    destruct (for_each l _ []) as [c|]; [|done].
    simpl. by rewrite app_assoc.
Qed.

Lemma check_data_acc config F on_count jm acc :
  Family.check_data config F on_count jm acc
  = (c <~ Family.check_data config F on_count jm [] ;; Ok (acc ++ c)).
Proof. rewrite !check_data_unfold. apply check_steps_acc. Qed.

(** The loop of [full_check] over the members, from the verdicts of each
    member taken alone. *)
Lemma full_check_loop_eq config F on_count (l : list JM.t) acc :
  for_each l
    (fun compatible jm => Family.check_data config F on_count jm compatible)
    acc
  = (cs <~ comprehension
             (fun jm => Family.check_data config F on_count jm []) l ;;
     Ok (acc ++ concat cs)).
Proof.
  revert acc. induction l as [|jm l IH]; intros acc; simpl.
  - by rewrite app_nil_r.
  - rewrite check_data_acc.
    destruct (Family.check_data config F on_count jm []) as [c|]; [|done].
    simpl. rewrite IH.
    destruct (comprehension _ l) as [cs|]; [|done].
    simpl. by rewrite app_assoc.
Qed.

Lemma comprehension_all {A : Type} (g : A -> result (list bool)) (l : list A) :
  comprehension (fun x => c <~ g x ;; Ok (all c)) l
  = (cs <~ comprehension g l ;; Ok (map all cs)).
Proof.
  induction l as [|x l IH]; simpl; [done|].
  destruct (g x) as [c|]; [|done]. simpl. rewrite IH.
  by destruct (comprehension g l).
Qed.

Lemma comprehension_ext {A B : Type} (f g : A -> result B) (l : list A) :
  (forall x, f x = g x) -> comprehension f l = comprehension g l.
Proof.
  intros Hfg. induction l as [|x l IH]; simpl; [done|].
  by rewrite Hfg, IH.
Qed.

Lemma all_app c1 c2 : all (c1 ++ c2) = all c1 && all c2.
Proof. apply forallb_app. Qed.

Lemma all_concat (cs : list (list bool)) : all (concat cs) = all (map all cs).
Proof.
  induction cs as [|c cs IH]; simpl; [done|].
  by rewrite all_app, IH.
Qed.

Lemma check_data_sms config F F' on_count jm acc :
  Family.sms F' = Family.sms F ->
  Family.check_data config F' on_count jm acc
  = Family.check_data config F on_count jm acc.
Proof.
  destruct F as [sms jms st], F' as [sms' jms' st']. simpl. by intros ->.
Qed.

Lemma without_id jm l :
  jm_in jm l = false -> without jm l = l.
Proof.
  unfold jm_in, without. induction l as [|x l IH]; simpl; [done|].
  intros Hin. apply orb_false_iff in Hin as [Hx Hl].
  rewrite is_sym, Hx. simpl. by rewrite IH.
Qed.

Lemma jm_in_oid jm l : jm_in jm l = true -> JM.oid jm ∈ map JM.oid l.
Proof.
  unfold jm_in. induction l as [|x l IH]; simpl; [done|].
  intros Hin. apply orb_true_iff in Hin as [Hx|Hl].
  - apply Nat.eqb_eq in Hx. rewrite Hx. left.
  - right. by apply IH.
Qed.

(** In a list without two copies of an object, [remove] takes out what
    the filter of [allow_steal] leaves out. *)
Lemma jms_remove_without jm l :
  NoDup (map JM.oid l) -> jm_in jm l = true ->
  jms_remove jm l = Some (without jm l)
  /\ len l = len (without jm l) + 1.
Proof.
  unfold jms_remove, len. induction l as [|x l IH]; simpl; [done|].
  intros Hnd Hin. apply NoDup_cons in Hnd as [Hx Hnd].
  destruct (JM.is_ x jm) eqn:Hxjm; simpl.
  - assert (Hrest : jm_in jm l = false).
    { destruct (jm_in jm l) eqn:Hl; [|done].
      apply jm_in_oid in Hl. apply Nat.eqb_eq in Hxjm.
      destruct Hx. by rewrite Hxjm. }
    fold (without jm l). rewrite (without_id _ _ Hrest). split; [done|lia].
  - rewrite is_sym, Hxjm in Hin. simpl in Hin.
    destruct (IH Hnd Hin) as [-> Hlen]. fold (without jm l).
    split; [done|]. simpl. lia.
Qed.

(** When [allow_steal] holds for a member of a family that lists no
    mentor twice, [remove_jm] of that member returns [True] and leaves the
    family COMPLETE, with the other members in their order. *)
Theorem allowed_steal_leaves_donor_complete config F jm :
  NoDup (map JM.oid (Family.jms F)) ->
  jm_in jm (Family.jms F) = true ->
  Family.allow_steal config F jm = Ok true ->
  Family.remove_jm config F jm
  = (Family.set_status (Family.set_jms F (without jm (Family.jms F)))
       COMPLETE,
     Ok true).
Proof.
  intros Hnd Hin Hallow.
  destruct (jms_remove_without _ _ Hnd Hin) as [Hrm Hlen].
  unfold Family.allow_steal in Hallow. fold (without jm (Family.jms F)) in Hallow.
  apply rbind_ok in Hallow as (checks & Hchecks & [= Hall]).
  apply andb_true_iff in Hall as [Hall Hsize].
  unfold Family.jm_steal_check in Hchecks.
  rewrite comprehension_all in Hchecks.
  apply rbind_ok in Hchecks as (cs & Hcs & [= <-]).
  assert (Hfull : Family.full_check config
                    (Family.set_jms F (without jm (Family.jms F)))
                  = Ok true).
  { unfold Family.full_check. rewrite full_check_loop_eq.
    cbn [Family.jms Family.set_jms].
    erewrite (comprehension_ext _
                (fun j => Family.check_data config F _ j [])).
    - rewrite Hcs. simpl. rewrite all_concat, Hall.
      replace (len (without jm (Family.jms F)))
        with (len (Family.jms F) - 1) by lia.
      by rewrite Hsize.
    - intros j. by apply check_data_sms. }
  unfold Family.remove_jm, Family.remove_attempt. rewrite Hrm.
  unfold Family.update_status. by rewrite Hfull.
Qed.

Lemma allowed_steal_leaves_donor_complete_witness :
  Family.remove_jm default_config (family_of monday monday_five COMPLETE) ben
  = (Family.set_status
       (Family.set_jms (family_of monday monday_five COMPLETE)
          (without ben monday_five))
       COMPLETE,
     Ok true).
Proof.
  apply (allowed_steal_leaves_donor_complete default_config
           (family_of monday monday_five COMPLETE) ben).
  - apply (NoDup_fmap_2_strong JM.oid); [|apply NoDup_ListNoDup].
    + intros x y Hx Hy Hxy.
      repeat (apply elem_of_cons in Hx as [->|Hx]);
        try (by apply elem_of_nil in Hx);
        repeat (apply elem_of_cons in Hy as [->|Hy]);
        try (by apply elem_of_nil in Hy); try done; discriminate.
    + repeat constructor; simpl; intuition discriminate.
  - by vm_compute.
  - by vm_compute.
Defined.

(** ** The list of stray mentors *)

Lemma jms_remove_sublist y l l' :
  jms_remove y l = Some l' -> sublist l' l.
Proof.
  unfold jms_remove. revert l'.
  induction l as [|x l IH]; intros l' Hrm; simpl in Hrm; [done|].
  destruct (JM.is_ x y).
  - injection Hrm as <-. by apply sublist_cons.
  - destruct (list_remove JM.is_ y l) as [l1|]; [|done].
    injection Hrm as <-. apply sublist_skip. by apply IH.
Qed.

Lemma remove_strays_sublist self assigned self' :
  FamilyMatcher.remove_strays self assigned = Ok self' ->
  sublist (FamilyMatcher.stray_jms self') (FamilyMatcher.stray_jms self).
Proof.
  unfold FamilyMatcher.remove_strays. intros Hrun.
  apply (for_each_invariant
           (fun s => sublist (FamilyMatcher.stray_jms s)
                             (FamilyMatcher.stray_jms self)))
    in Hrun; [done| |done].
  intros s0 y s1 _ Hs0 Hbody.
  destruct (jms_remove y _) as [l|] eqn:Hrm; [|done].
  injection Hbody as <-. simpl.
  etrans; [by eapply jms_remove_sublist|done].
Qed.

Lemma stray_adds_into_sublist config self i self' :
  FamilyMatcher.stray_adds_into config self i = Ok self' ->
  sublist (FamilyMatcher.stray_jms self') (FamilyMatcher.stray_jms self).
Proof.
  unfold FamilyMatcher.stray_adds_into. intros Hrun.
  apply rbind_ok in Hrun as ([s1 a1] & Hloop & Hrm).
  apply remove_strays_sublist in Hrm. simpl in Hrm.
  apply (for_each_invariant
           (fun r : FamilyMatcher.t * list JM.t =>
              FamilyMatcher.stray_jms r.1 = FamilyMatcher.stray_jms self))
    in Hloop; [simpl in Hloop; by rewrite <- Hloop| |done].
  intros [s0 a0] jm [s2 a2] _ Hs0 Hbody. simpl in *.
  destruct (FamilyMatcher.size_satisfied config _);
    [by injection Hbody as <- <-|].
  apply rbind_ok in Hbody as (fits & _ & Hbody).
  destruct fits; [|by injection Hbody as <- <-].
  apply rbind_ok in Hbody as (s3 & Hcall & [= <- <-]).
  apply call_add_keeps in Hcall as [_ ->]. done.
Qed.

(** [assign_perfect_fits] and [perfect_stray_adds] only take mentors out
    of the list of stray mentors: the list that they leave is the list
    of before without some of its elements, in the same order. *)
Theorem strays_only_leave config self :
  (forall self',
     FamilyMatcher.assign_perfect_fits config self = Ok self' ->
     sublist (FamilyMatcher.stray_jms self') (FamilyMatcher.stray_jms self))
  /\ (forall inc comp self' lists,
        FamilyMatcher.perfect_stray_adds config self inc comp
        = Ok (self', lists) ->
        sublist (FamilyMatcher.stray_jms self')
                (FamilyMatcher.stray_jms self)).
Proof.
  split.
  - intros self'. unfold FamilyMatcher.assign_perfect_fits. intros Hrun.
    apply rbind_ok in Hrun as ([s1 a1] & Hloop & Hrm).
    apply remove_strays_sublist in Hrm. simpl in Hrm.
    apply (for_each_invariant
             (fun r : FamilyMatcher.t * list JM.t =>
                FamilyMatcher.stray_jms r.1 = FamilyMatcher.stray_jms self))
      in Hloop; [simpl in Hloop; by rewrite <- Hloop| |done].
    intros [s0 a0] jm [s2 a2] _ Hs0 Hbody. simpl in *.
    apply assign_fit_keeps in Hbody as [_ ->]. done.
  - intros inc comp self' lists. unfold FamilyMatcher.perfect_stray_adds.
    intros Hrun.
    apply rbind_ok in Hrun as (s1 & Hloop & Hrun).
    apply rbind_ok in Hrun as (l1 & _ & [= <- _]).
    apply (for_each_invariant
             (fun s => sublist (FamilyMatcher.stray_jms s)
                               (FamilyMatcher.stray_jms self)))
      in Hloop; [done| |done].
    intros s0 i s2 _ Hs0 Hbody.
    etrans; [by eapply stray_adds_into_sublist|done].
Qed.

Lemma strays_only_leave_witness :
  sublist
    (FamilyMatcher.stray_jms
       (matcher_of [family_of monday [amy] INCOMPLETE] [dan]))
    (FamilyMatcher.stray_jms
       (matcher_of [family_of monday [] INCOMPLETE] [amy; dan])).
Proof.
  apply (proj1 (strays_only_leave default_config
                  (matcher_of [family_of monday [] INCOMPLETE] [amy; dan]))
           (matcher_of [family_of monday [amy] INCOMPLETE] [dan])).
  by vm_compute.
Defined.

(** ** A configuration with the constraint on the family size only *)

Lemma for_each_const {A S : Type} (l : list A) (body : S -> A -> result S)
    (s : S) :
  (forall s x, body s x = Ok s) -> for_each l body s = Ok s.
Proof.
  intros Hbody. induction l as [|x l IH]; simpl; [done|].
  by rewrite Hbody.
Qed.

(** A loop whose iterations all return, returns. *)
Lemma for_each_total {A S : Type} (P : S -> Prop) (l : list A)
    (body : S -> A -> result S) (s : S) :
  (forall s x, x ∈ l -> P s -> exists s', body s x = Ok s' /\ P s') ->
  P s -> exists s', for_each l body s = Ok s' /\ P s'.
Proof.
  revert s. induction l as [|x l IH]; intros s Hbody Hs; simpl.
  - by exists s.
  - destruct (Hbody s x ltac:(left) Hs) as (s1 & -> & Hs1). simpl.
    apply IH; [|done]. intros s0 y Hy. apply Hbody. by right.
Qed.

Section SizeOnly.

Variable config : Config.
Hypothesis Hconfig : size_only config.

Lemma size_only_check_data F on_count jm acc :
  Family.check_data config F on_count jm acc = Ok acc.
Proof.
  rewrite check_data_unfold. apply for_each_const. intros c dv.
  destruct Hconfig as (Hp & Hc & Hd).
  unfold check_step, is_preference, is_count, is_difference.
  by rewrite Hp, Hc, Hd.
Qed.

Lemma size_only_jm_add_check F jm :
  exists b, Family.jm_add_check config F jm = Ok b.
Proof.
  unfold Family.jm_add_check. rewrite size_only_check_data. by eexists.
Qed.

Lemma size_only_full_check F :
  Family.full_check config F = Ok (FamilyMatcher.size_satisfied config F).
Proof.
  unfold Family.full_check.
  rewrite for_each_const by (intros; apply size_only_check_data).
  simpl. unfold FamilyMatcher.size_satisfied. by rewrite andb_true_r.
Qed.

Lemma size_only_update_status F :
  exists F1, Family.update_status config F = Ok F1.
Proof.
  unfold Family.update_status. rewrite size_only_full_check. by eexists.
Qed.

Lemma size_only_add_jm F jm :
  exists F1 b, Family.add_jm config F jm = (F1, Ok b).
Proof.
  unfold Family.add_jm.
  destruct (size_only_update_status
              (Family.set_jms F (Family.jms F ++ [jm]))) as [F1 ->].
  by eexists _, _.
Qed.

Lemma size_only_remove_jm F jm :
  exists F1 b, Family.remove_jm config F jm = (F1, Ok b).
Proof.
  unfold Family.remove_jm, Family.remove_attempt.
  destruct (jms_remove jm (Family.jms F)) as [l|].
  - destruct (size_only_update_status (Family.set_jms F l)) as [F1 ->].
    by eexists _, _.
  - match goal with |- context [Family.update_status config ?X] =>
      destruct (size_only_update_status X) as [F1 ->] end.
    by eexists _, _.
Qed.

Lemma size_only_swap_jm F a b :
  exists F1 flag, Family.swap_jm config F a b = (F1, Ok flag).
Proof.
  unfold Family.swap_jm, Family.swap_attempt.
  destruct (jms_remove a (Family.jms F)) as [l|].
  - destruct (size_only_update_status (Family.set_jms F (l ++ [b])))
      as [F1 ->].
    by eexists _, _.
  - match goal with |- context [Family.update_status config ?X] =>
      destruct (size_only_update_status X) as [F1 ->] end.
    by eexists _, _.
Qed.

Lemma size_only_call self ref (method : Family.t -> Family.t * result bool) :
  (forall F, exists F1 b, method F = (F1, Ok b)) ->
  exists self', FamilyMatcher.call self ref method = Ok self'.
Proof.
  intros Hm. unfold FamilyMatcher.call.
  destruct (Hm (FamilyMatcher.family self ref)) as (F1 & b & ->).
  by eexists.
Qed.

Lemma comprehension_total {A B : Type} (f : A -> result B) (l : list A) :
  (forall x, exists y, f x = Ok y) -> exists ys, comprehension f l = Ok ys.
Proof.
  intros Hf. induction l as [|x l [ys IH]]; simpl; [by eexists|].
  destruct (Hf x) as [y ->]. simpl. rewrite IH. by eexists.
Qed.

Lemma size_only_allow_steal F jm :
  exists b, Family.allow_steal config F jm = Ok b.
Proof.
  unfold Family.allow_steal.
  destruct (comprehension_total
              (fun j => Family.jm_steal_check config F j
                          (List.filter (fun j0 => negb (JM.is_ j0 jm))
                             (Family.jms F)))
              (List.filter (fun j => negb (JM.is_ j jm)) (Family.jms F)))
    as [checks ->].
  - intros j. unfold Family.jm_steal_check.
    rewrite size_only_check_data. by eexists.
  - by eexists.
Qed.

Lemma size_only_allow_swap F a b :
  exists flag, Family.allow_swap config F a b = Ok flag.
Proof.
  unfold Family.allow_swap.
  destruct (comprehension_total
              (fun j => Family.jm_swap_check config F j
                          (map (fun j0 => if JM.is_ j0 a then b else j0)
                             (Family.jms F)))
              (map (fun j => if JM.is_ j a then b else j) (Family.jms F)))
    as [checks ->].
  - intros j. unfold Family.jm_swap_check.
    rewrite size_only_check_data. by eexists.
  - by eexists.
Qed.

End SizeOnly.

Lemma remove_sublist x a l :
  sublist (x :: a) l ->
  exists l', jms_remove x l = Some l' /\ sublist a l'.
Proof.
  unfold jms_remove. induction l as [|z l IH]; intros Hsub.
  - by apply sublist_nil_r in Hsub.
  - simpl. destruct (JM.is_ z x) eqn:Hzx.
    + exists l. split; [done|].
      inversion Hsub as [|? ? ? Hs|? ? ? Hs]; subst; [done|].
      etrans; [|exact Hs]. by apply sublist_cons.
    + inversion Hsub as [|? ? ? Hs|? ? ? Hs]; subst.
      * by rewrite is_refl in Hzx.
      * destruct (IH Hs) as (l' & -> & Hl'). simpl.
        exists (z :: l'). split; [done|]. by apply sublist_cons.
Qed.

Lemma remove_strays_total self assigned :
  sublist assigned (FamilyMatcher.stray_jms self) ->
  exists self', FamilyMatcher.remove_strays self assigned = Ok self'.
Proof.
  unfold FamilyMatcher.remove_strays. revert self.
  induction assigned as [|x a IH]; intros self Hsub; simpl.
  - by eexists.
  - destruct (remove_sublist _ _ _ Hsub) as (l' & -> & Hsub'). simpl.
    by apply (IH (FamilyMatcher.set_stray_jms self l')).
Qed.

(** A loop that collects some of the elements that it visits, in order. *)
Lemma collect_loop {S : Type} (Q : S -> Prop)
    (body : S * list JM.t -> JM.t -> result (S * list JM.t))
    (l : list JM.t) (s : S) (a : list JM.t) :
  (forall s a x, Q s ->
     exists s' a', body (s, a) x = Ok (s', a') /\ Q s'
                   /\ (a' = a \/ a' = a ++ [x])) ->
  Q s ->
  exists s' extra,
    for_each l body (s, a) = Ok (s', a ++ extra) /\ Q s' /\ sublist extra l.
Proof.
  intros Hbody. revert s a. induction l as [|x l IH]; intros s a Hs; simpl.
  - exists s, []. by rewrite app_nil_r.
  - destruct (Hbody s a x Hs) as (s1 & a1 & -> & Hs1 & Ha1). simpl.
    destruct (IH s1 a1 Hs1) as (s' & extra & -> & Hs' & Hsub).
    destruct Ha1 as [-> | ->].
    + exists s', extra. split; [done|]. split; [done|]. by apply sublist_cons.
    + exists s', (x :: extra). rewrite <- app_assoc. simpl.
      split; [done|]. split; [done|]. by apply sublist_skip.
Qed.

Section SizeOnlyAssign.

Variable config : Config.
Hypothesis Hconfig : size_only config.

Lemma size_only_call_add self ref jm :
  exists self',
    FamilyMatcher.call self ref (fun f => Family.add_jm config f jm)
    = Ok self'.
Proof. apply size_only_call. intros F. by apply size_only_add_jm. Qed.

Lemma size_only_call_remove self ref jm :
  exists self',
    FamilyMatcher.call self ref (fun f => Family.remove_jm config f jm)
    = Ok self'.
Proof. apply size_only_call. intros F. by apply size_only_remove_jm. Qed.

Lemma size_only_call_swap self ref a b :
  exists self',
    FamilyMatcher.call self ref (fun f => Family.swap_jm config f a b)
    = Ok self'.
Proof. apply size_only_call. intros F. by apply size_only_swap_jm. Qed.

Lemma size_only_assign_fit self assigned jm :
  exists self' assigned',
    FamilyMatcher.assign_fit config self assigned jm = Ok (self', assigned')
    /\ FamilyMatcher.stray_jms self' = FamilyMatcher.stray_jms self
    /\ (assigned' = assigned \/ assigned' = assigned ++ [jm]).
Proof.
  unfold FamilyMatcher.assign_fit.
  match goal with |- context [for_each ?l ?body ?s0] =>
    destruct (for_each_total
      (fun r : FamilyMatcher.t * bool * list JM.t =>
         FamilyMatcher.stray_jms r.1.1 = FamilyMatcher.stray_jms self
         /\ (r.2 = assigned \/ r.2 = assigned ++ [jm])
         /\ (r.1.2 = false -> r.2 = assigned))
      l body s0) as ([[s1 fit1] a1] & -> & Hs1 & Ha1 & _) end.
  - intros [[s0 fit0] a0] ref _ (Hs0 & Ha0 & Hfit0). simpl in *.
    destruct fit0; [by eexists|].
    destruct (size_only_jm_add_check config Hconfig
                (FamilyMatcher.family s0 ref) jm) as [fits ->]. simpl.
    destruct fits; [|by eexists].
    destruct (size_only_call_add s0 ref jm) as [s3 Hcall]. rewrite Hcall.
    simpl. eexists. split; [done|]. simpl.
    apply call_add_keeps in Hcall as [_ ->].
    split; [done|]. split; [|done]. right. by rewrite Hfit0.
  - simpl. split; [done|]. split; [by left|done].
  - simpl. by eexists _, _.
Qed.

Lemma size_only_assign_perfect_fits self :
  exists self', FamilyMatcher.assign_perfect_fits config self = Ok self'.
Proof.
  unfold FamilyMatcher.assign_perfect_fits.
  match goal with |- context [for_each ?l ?body (self, [])] =>
    destruct (collect_loop
      (fun s => FamilyMatcher.stray_jms s = FamilyMatcher.stray_jms self)
      body l self []) as (s1 & extra & -> & Hs1 & Hsub) end.
  - intros s a x Hs.
    destruct (size_only_assign_fit s a x) as (s' & a' & -> & Hs' & Ha').
    exists s', a'. split; [done|]. split; [congruence|done].
  - done.
  - simpl. apply remove_strays_total. by rewrite Hs1.
Qed.

Lemma size_only_stray_adds_into self i :
  exists self', FamilyMatcher.stray_adds_into config self i = Ok self'.
Proof.
  unfold FamilyMatcher.stray_adds_into.
  match goal with |- context [for_each ?l ?body (self, [])] =>
    destruct (collect_loop
      (fun s => FamilyMatcher.stray_jms s = FamilyMatcher.stray_jms self)
      body l self []) as (s1 & extra & -> & Hs1 & Hsub) end.
  - intros s a x Hs.
    destruct (FamilyMatcher.size_satisfied config _).
    { exists s, a. split; [done|]. split; [done|by left]. }
    destruct (size_only_jm_add_check config Hconfig
                (FamilyMatcher.family s i) x) as [fits ->]. simpl.
    destruct fits.
    + destruct (size_only_call_add s i x) as [s3 Hcall]. rewrite Hcall.
      simpl. exists s3, (a ++ [x]). split; [done|].
      apply call_add_keeps in Hcall as [_ ->]. split; [done|by right].
    + exists s, a. split; [done|]. split; [done|by left].
  - done.
  - simpl. apply remove_strays_total. by rewrite Hs1.
Qed.

End SizeOnlyAssign.

Lemma elem_of_jm_in (x : JM.t) l : x ∈ l -> jm_in x l = true.
Proof.
  unfold jm_in. induction l as [|y l IH]; intros Hin.
  - by apply elem_of_nil in Hin.
  - simpl. apply elem_of_cons in Hin as [->|Hin].
    + by rewrite is_refl.
    + rewrite IH by done. apply orb_true_r.
Qed.

Section SizeOnlyPasses.

Variable config : Config.
Hypothesis Hconfig : size_only config.

Lemma size_only_find_stolen self i c :
  exists stolen, FamilyMatcher.find_stolen config self i c = Ok stolen.
Proof.
  unfold FamilyMatcher.find_stolen.
  match goal with |- context [for_each ?l ?body ?s0] =>
    destruct (for_each_total (fun _ => True) l body s0)
      as (stolen & -> & _) end; [|done|by eexists].
  intros stolen jm _ _. destruct stolen; [by eexists|].
  destruct (FamilyMatcher.size_satisfied config _); [by eexists|].
  destruct (size_only_jm_add_check config Hconfig
              (FamilyMatcher.family self i) jm) as [fits ->]. simpl.
  destruct fits; [|by eexists].
  destruct (size_only_allow_steal config Hconfig
              (FamilyMatcher.family self c) jm) as [allowed ->].
  by eexists.
Qed.

Lemma size_only_steal_for self i complete :
  exists self', FamilyMatcher.steal_for config self i complete = Ok self'.
Proof.
  induction complete as [|c rest IH]; simpl; [by eexists|].
  destruct (size_only_find_stolen self i c) as [stolen ->]. simpl.
  destruct stolen as [jm|]; [|done].
  destruct (size_only_call_add config Hconfig self i jm) as [s1 ->]. simpl.
  apply size_only_call_remove. done.
Qed.

Lemma size_only_find_swap self i f :
  exists found, FamilyMatcher.find_swap config self i f = Ok found.
Proof.
  unfold FamilyMatcher.find_swap.
  match goal with |- context [for_each ?l ?body ?s0] =>
    destruct (for_each_total (fun _ => True) l body s0)
      as (found & -> & _) end; [|done|by eexists].
  intros found jm _ _.
  match goal with |- context [for_each ?l ?body ?s0] =>
    destruct (for_each_total (fun _ => True) l body s0)
      as (found' & -> & _) end; [|done|by eexists].
  intros found1 other _ _. destruct found1; [by eexists|].
  destruct (size_only_allow_swap config Hconfig
              (FamilyMatcher.family self i) jm other) as [this_way ->].
  simpl. destruct this_way; [|by eexists].
  destruct (size_only_allow_swap config Hconfig
              (FamilyMatcher.family self f) other jm) as [that_way ->].
  by eexists.
Qed.

Lemma size_only_swap_between self i f :
  exists self', FamilyMatcher.swap_between config self i f = Ok self'.
Proof.
  unfold FamilyMatcher.swap_between.
  destruct (size_only_find_swap self i f) as [found ->]. simpl.
  destruct found as [[this other]|]; [|by eexists].
  destruct (size_only_call_swap config Hconfig self i this other)
    as [s1 ->]. simpl.
  apply size_only_call_swap. done.
Qed.

Lemma size_only_find_stray_swap self f :
  exists found,
    FamilyMatcher.find_stray_swap config self f = Ok found
    /\ forall jm stray, found = Some (jm, stray) ->
         stray ∈ FamilyMatcher.stray_jms self.
Proof.
  unfold FamilyMatcher.find_stray_swap.
  match goal with |- context [for_each ?l ?body ?s0] =>
    destruct (for_each_total
      (fun found : option (JM.t * JM.t) =>
         forall jm stray, found = Some (jm, stray) ->
           stray ∈ FamilyMatcher.stray_jms self)
      l body s0) as (found & -> & Hfound) end; [|done|by eexists].
  intros found jm _ Hfound.
  match goal with |- context [for_each ?l ?body ?s0] =>
    destruct (for_each_total
      (fun found : option (JM.t * JM.t) =>
         forall jm stray, found = Some (jm, stray) ->
           stray ∈ FamilyMatcher.stray_jms self)
      l body s0) as (found' & -> & Hfound') end; [|done|by eexists].
  intros found1 stray Hstray Hfound1. destruct found1; [by eexists|].
  destruct (size_only_allow_swap config Hconfig
              (FamilyMatcher.family self f) jm stray) as [allowed ->].
  simpl. eexists. split; [done|].
  intros jm' stray' Heq. destruct allowed; [|done].
  by injection Heq as _ <-.
Qed.

Lemma size_only_swap_with_stray self f :
  exists self', FamilyMatcher.swap_with_stray config self f = Ok self'.
Proof.
  unfold FamilyMatcher.swap_with_stray.
  destruct (size_only_find_stray_swap self f) as (found & -> & Hfound).
  simpl. destruct found as [[jm stray]|]; [|by eexists].
  destruct (size_only_call_swap config Hconfig self f jm stray)
    as [s1 Hcall]. rewrite Hcall. simpl.
  apply call_swap_keeps in Hcall as [_ Hstrays].
  unfold FamilyMatcher.stray_swap.
  destruct (jms_remove_present stray (FamilyMatcher.stray_jms s1))
    as [l ->]; [|by eexists].
  rewrite Hstrays. apply elem_of_jm_in. by eapply Hfound.
Qed.

Lemma size_only_loop {A : Type} (l : list A)
    (step : FamilyMatcher.t -> A -> result FamilyMatcher.t) self :
  (forall s x, exists s', step s x = Ok s') ->
  exists self', for_each l step self = Ok self'.
Proof.
  intros Hstep.
  destruct (for_each_total (fun _ => True) l step self) as (s' & -> & _);
    [|done|by eexists].
  intros s x _ _. destruct (Hstep s x) as [s' ->]. by eexists.
Qed.

Lemma size_only_pass self :
  exists self', FamilyMatcher.pass config self = Ok self'.
Proof.
  unfold FamilyMatcher.pass.
  destruct (size_only_assign_perfect_fits config Hconfig self) as [s1 ->].
  simpl. unfold FamilyMatcher.perfect_stray_adds.
  destruct (size_only_loop
              (FamilyMatcher.split_families_by_status s1 [] []).1
              (FamilyMatcher.stray_adds_into config) s1) as [s2 ->].
  { intros s x. by apply size_only_stray_adds_into. }
  simpl. rewrite promote_families_by_status_lists. simpl.
  unfold FamilyMatcher.perfect_steals.
  match goal with |- context [for_each ?l ?body s2] =>
    destruct (size_only_loop l body s2) as [s3 ->] end.
  { intros s x. apply size_only_steal_for. }
  simpl. rewrite promote_families_by_status_lists. simpl.
  unfold FamilyMatcher.perfect_swaps.
  match goal with |- context [for_each ?l ?body s3] =>
    destruct (size_only_loop l body s3) as [s4 ->] end.
  { intros s i. apply size_only_loop. intros s' f.
    apply size_only_swap_between. }
  simpl. rewrite promote_families_by_status_lists. simpl.
  unfold FamilyMatcher.perfect_stray_swaps.
  match goal with |- context [for_each ?l ?body s4] =>
    destruct (size_only_loop l body s4) as [s5 ->] end.
  { intros s f. apply size_only_swap_with_stray. }
  simpl. rewrite promote_families_by_status_lists. simpl.
  by eexists.
Qed.

End SizeOnlyPasses.

(** With the constraint on the family size as the only constraint,
    [iterate] raises nothing: it returns for every list of families and
    every list of stray mentors. *)
Theorem iterate_never_raises config self :
  size_only config ->
  exists self', FamilyMatcher.iterate config self = Ok self'.
Proof.
  intros Hconfig. unfold FamilyMatcher.iterate.
  apply size_only_loop. intros s _. by apply size_only_pass.
Qed.

Lemma iterate_never_raises_witness :
  exists self',
    FamilyMatcher.iterate one_to_three
      (matcher_of [family_of monday [] INCOMPLETE;
                   family_of tuesday [] INCOMPLETE] [amy; ben; dan; cat])
    = Ok self'.
Proof.
  apply (iterate_never_raises one_to_three
           (matcher_of [family_of monday [] INCOMPLETE;
                        family_of tuesday [] INCOMPLETE]
              [amy; ben; dan; cat])).
  by repeat split.
Defined.

(** ** The passes move mentors and make none *)

Lemma jms_remove_Forall (P : JM.t -> Prop) x l l' :
  jms_remove x l = Some l' -> Forall P l -> Forall P l'.
Proof.
  intros Hrm Hall. apply jms_remove_sublist in Hrm.
  rewrite Forall_forall in *. intros y Hy. apply Hall.
  by eapply elem_of_sublist.
Qed.

Section Moves.

Variable P : JM.t -> Prop.
Variable config : Config.

Lemma update_status_Forall F F1 :
  Family.update_status config F = Ok F1 ->
  Forall P (Family.jms F) -> Forall P (Family.jms F1).
Proof. intros Hup. by apply update_status_sms in Hup as [_ ->]. Qed.

Lemma add_jm_Forall F jm :
  Forall P (Family.jms F) -> P jm ->
  Forall P (Family.jms (Family.add_jm config F jm).1).
Proof.
  intros HF Hjm. unfold Family.add_jm.
  assert (H1 : Forall P (Family.jms F ++ [jm]))
    by (apply Forall_app; split; [done|by constructor]).
  destruct (Family.update_status config _) as [F2|e] eqn:Hup.
  - cbn [fst]. eapply update_status_Forall; [exact Hup|done].
  - match goal with |- context [Family.update_status config ?X] =>
      assert (Hx : Forall P (Family.jms X));
      [|destruct (Family.update_status config X) as [F3|e'] eqn:H2] end.
    + destruct (jm_in _ _); [|done].
      destruct (jms_remove _ _) as [l|] eqn:Hrm; [|done].
      simpl. by eapply jms_remove_Forall.
    + cbn [fst]. by eapply update_status_Forall.
    + done.
Qed.

Lemma remove_jm_Forall F jm :
  Forall P (Family.jms F) -> P jm ->
  Forall P (Family.jms (Family.remove_jm config F jm).1).
Proof.
  intros HF Hjm. unfold Family.remove_jm.
  assert (Hatt : Forall P (Family.jms (Family.remove_attempt config F jm).1)).
  { unfold Family.remove_attempt.
    destruct (jms_remove _ _) as [l|] eqn:Hrm; [|done].
    assert (Hl : Forall P l) by by eapply jms_remove_Forall.
    destruct (Family.update_status config _) as [F2|e] eqn:H1; [|done].
    cbn [fst]. by eapply update_status_Forall. }
  destruct (Family.remove_attempt config F jm) as [F1 [b|e]]; [done|].
  simpl in Hatt.
  match goal with |- context [Family.update_status config ?X] =>
    assert (Hx : Forall P (Family.jms X));
    [|destruct (Family.update_status config X) as [F3|e'] eqn:H2] end.
  - destruct (negb _); [|done]. simpl. apply Forall_app.
    split; [done|by constructor].
  - cbn [fst]. by eapply update_status_Forall.
  - done.
Qed.

Lemma swap_jm_Forall F a b :
  Forall P (Family.jms F) -> P a -> P b ->
  Forall P (Family.jms (Family.swap_jm config F a b).1).
Proof.
  intros HF Ha Hb. unfold Family.swap_jm.
  assert (Hatt : Forall P (Family.jms (Family.swap_attempt config F a b).1)).
  { unfold Family.swap_attempt.
    destruct (jms_remove _ _) as [l|] eqn:Hrm; [|done].
    assert (Hl : Forall P (l ++ [b])).
    { apply Forall_app. split; [by eapply jms_remove_Forall|by constructor]. }
    destruct (Family.update_status config _) as [F2|e] eqn:H1; [|done].
    cbn [fst]. by eapply update_status_Forall. }
  destruct (Family.swap_attempt config F a b) as [F1 [flag|e]]; [done|].
  simpl in Hatt.
  match goal with |- context [Family.update_status config ?X] =>
    assert (Hx : Forall P (Family.jms X));
    [|destruct (Family.update_status config X) as [F3|e'] eqn:H2] end.
  - assert (H2 : Forall P (Family.jms
               (if negb (jm_in a (Family.jms F1))
                then Family.set_jms F1 (Family.jms F1 ++ [a]) else F1))).
    { destruct (negb _); [|done]. simpl. apply Forall_app.
      split; [done|by constructor]. }
    destruct (jm_in b _); [|done].
    destruct (jms_remove b _) as [l|] eqn:Hrm; [|done].
    simpl. by eapply jms_remove_Forall.
  - cbn [fst]. by eapply update_status_Forall.
  - done.
Qed.

Lemma family_Forall self ref :
  all_mentors P self ->
  Forall P (Family.jms (FamilyMatcher.family self ref)).
Proof.
  intros [_ Hfam]. unfold FamilyMatcher.family.
  destruct (FamilyMatcher.families self !! ref) as [f|] eqn:Hf; simpl.
  - rewrite Forall_forall in Hfam. apply Hfam.
    by eapply list_elem_of_lookup_2.
  - constructor.
Qed.

Lemma call_all_mentors self ref
    (method : Family.t -> Family.t * result bool) self' :
  all_mentors P self ->
  Forall P (Family.jms (method (FamilyMatcher.family self ref)).1) ->
  FamilyMatcher.call self ref method = Ok self' ->
  all_mentors P self'.
Proof.
  intros [Hstray Hfam] Hm. unfold FamilyMatcher.call.
  destruct (method _) as [f [b|e]]; [|done]. intros [= <-].
  split; [done|]. simpl. by apply Forall_insert.
Qed.

Lemma call_add_all_mentors self ref jm self' :
  all_mentors P self -> P jm ->
  FamilyMatcher.call self ref (fun f => Family.add_jm config f jm) = Ok self' ->
  all_mentors P self'.
Proof.
  intros Hall Hjm. apply call_all_mentors; [done|].
  apply add_jm_Forall; [by apply family_Forall|done].
Qed.

Lemma call_remove_all_mentors self ref jm self' :
  all_mentors P self -> P jm ->
  FamilyMatcher.call self ref (fun f => Family.remove_jm config f jm)
  = Ok self' ->
  all_mentors P self'.
Proof.
  intros Hall Hjm. apply call_all_mentors; [done|].
  apply remove_jm_Forall; [by apply family_Forall|done].
Qed.

Lemma call_swap_all_mentors self ref a b self' :
  all_mentors P self -> P a -> P b ->
  FamilyMatcher.call self ref (fun f => Family.swap_jm config f a b)
  = Ok self' ->
  all_mentors P self'.
Proof.
  intros Hall Ha Hb. apply call_all_mentors; [done|].
  apply swap_jm_Forall; [by apply family_Forall|done|done].
Qed.

Lemma remove_strays_all_mentors self assigned self' :
  all_mentors P self ->
  FamilyMatcher.remove_strays self assigned = Ok self' ->
  all_mentors P self'.
Proof.
  intros Hall. unfold FamilyMatcher.remove_strays. intros Hrun.
  apply (for_each_invariant (all_mentors P)) in Hrun; [done| |done].
  intros s0 y s1 _ [Hs Hf] Hbody.
  destruct (jms_remove y _) as [l|] eqn:Hrm; [|done].
  injection Hbody as <-. split; [|done]. simpl.
  by eapply jms_remove_Forall.
Qed.

End Moves.

(** What the search loops find is where they looked. *)
Lemma find_stolen_in config self i c jm :
  FamilyMatcher.find_stolen config self i c = Ok (Some jm) ->
  jm ∈ Family.jms (FamilyMatcher.family self c).
Proof.
  unfold FamilyMatcher.find_stolen. intros Hfind.
  apply find_stolen_loop in Hfind
    as (_ & _ & _ & earlier & later & -> & _).
  apply elem_of_app. right. left.
Qed.

Lemma find_swap_in config self i f this other :
  FamilyMatcher.find_swap config self i f = Ok (Some (this, other)) ->
  this ∈ Family.jms (FamilyMatcher.family self i)
  /\ other ∈ Family.jms (FamilyMatcher.family self f).
Proof.
  unfold FamilyMatcher.find_swap. intros Hfind.
  apply (for_each_invariant
           (fun found : option (JM.t * JM.t) =>
              match found with
              | Some (a, b) =>
                  a ∈ Family.jms (FamilyMatcher.family self i)
                  /\ b ∈ Family.jms (FamilyMatcher.family self f)
              | None => True
              end))
    in Hfind; [done| |done].
  intros found0 jm found1 Hjm Hfound0 Hinner.
  apply (for_each_invariant
           (fun found : option (JM.t * JM.t) =>
              match found with
              | Some (a, b) =>
                  a ∈ Family.jms (FamilyMatcher.family self i)
                  /\ b ∈ Family.jms (FamilyMatcher.family self f)
              | None => True
              end))
    in Hinner; [done| |done].
  intros found2 other_jm found3 Hother Hfound2 Hbody.
  destruct found2 as [[a0 b0]|]; [by injection Hbody as <-|].
  apply rbind_ok in Hbody as (this_way & _ & Hbody).
  destruct this_way; [|by injection Hbody as <-].
  apply rbind_ok in Hbody as (that_way & _ & [= <-]).
  by destruct that_way.
Qed.

Lemma find_stray_swap_in config self f member stray :
  FamilyMatcher.find_stray_swap config self f = Ok (Some (member, stray)) ->
  member ∈ Family.jms (FamilyMatcher.family self f)
  /\ stray ∈ FamilyMatcher.stray_jms self
  /\ Family.allow_swap config (FamilyMatcher.family self f) member stray
     = Ok true.
Proof.
  unfold FamilyMatcher.find_stray_swap. intros Hfind.
  apply (for_each_invariant
           (fun found : option (JM.t * JM.t) =>
              match found with
              | Some (a, b) =>
                  a ∈ Family.jms (FamilyMatcher.family self f)
                  /\ b ∈ FamilyMatcher.stray_jms self
                  /\ Family.allow_swap config (FamilyMatcher.family self f)
                       a b = Ok true
              | None => True
              end))
    in Hfind; [done| |done].
  intros found0 jm found1 Hjm Hfound0 Hinner.
  apply (for_each_invariant
           (fun found : option (JM.t * JM.t) =>
              match found with
              | Some (a, b) =>
                  a ∈ Family.jms (FamilyMatcher.family self f)
                  /\ b ∈ FamilyMatcher.stray_jms self
                  /\ Family.allow_swap config (FamilyMatcher.family self f)
                       a b = Ok true
              | None => True
              end))
    in Hinner; [done| |done].
  intros found2 st found3 Hst Hfound2 Hbody.
  destruct found2 as [[a0 b0]|]; [by injection Hbody as <-|].
  apply rbind_ok in Hbody as (allowed & Hallowed & [= <-]).
  by destruct allowed.
Qed.

Section MovesPasses.

Variable P : JM.t -> Prop.
Variable config : Config.

Lemma assign_fit_all_mentors self assigned jm self' assigned' :
  all_mentors P self -> P jm ->
  FamilyMatcher.assign_fit config self assigned jm = Ok (self', assigned') ->
  all_mentors P self'.
Proof.
  intros Hall Hjm. unfold FamilyMatcher.assign_fit. intros Hrun.
  apply rbind_ok in Hrun as ([[s1 fit1] a1] & Hloop & [= <- <-]).
  apply (for_each_invariant
           (fun r : FamilyMatcher.t * bool * list JM.t =>
              all_mentors P r.1.1))
    in Hloop; [done| |done].
  intros [[s0 fit0] a0] ref [[s2 fit2] a2] _ Hs0 Hbody. simpl in *.
  destruct fit0; [by injection Hbody as <- <- <-|].
  apply rbind_ok in Hbody as (fits & _ & Hbody).
  destruct fits; [|by injection Hbody as <- <- <-].
  apply rbind_ok in Hbody as (s3 & Hcall & [= <- <- <-]).
  by eapply call_add_all_mentors.
Qed.

Lemma assign_perfect_fits_all_mentors self self' :
  all_mentors P self ->
  FamilyMatcher.assign_perfect_fits config self = Ok self' ->
  all_mentors P self'.
Proof.
  intros Hall. unfold FamilyMatcher.assign_perfect_fits. intros Hrun.
  apply rbind_ok in Hrun as ([s1 a1] & Hloop & Hrm).
  eapply remove_strays_all_mentors; [|exact Hrm]. simpl.
  apply (for_each_invariant
           (fun r : FamilyMatcher.t * list JM.t => all_mentors P r.1))
    in Hloop; [done| |done].
  intros [s0 a0] jm [s2 a2] Hjm Hs0 Hbody. simpl in *.
  eapply assign_fit_all_mentors; [done| |exact Hbody].
  destruct Hall as [Hstray _]. rewrite Forall_forall in Hstray.
  by apply Hstray.
Qed.

Lemma stray_adds_into_all_mentors self i self' :
  all_mentors P self ->
  FamilyMatcher.stray_adds_into config self i = Ok self' ->
  all_mentors P self'.
Proof.
  intros Hall. unfold FamilyMatcher.stray_adds_into. intros Hrun.
  apply rbind_ok in Hrun as ([s1 a1] & Hloop & Hrm).
  eapply remove_strays_all_mentors; [|exact Hrm]. simpl.
  apply (for_each_invariant
           (fun r : FamilyMatcher.t * list JM.t => all_mentors P r.1))
    in Hloop; [done| |done].
  intros [s0 a0] jm [s2 a2] Hjm Hs0 Hbody. simpl in *.
  destruct (FamilyMatcher.size_satisfied config _);
    [by injection Hbody as <- <-|].
  apply rbind_ok in Hbody as (fits & _ & Hbody).
  destruct fits; [|by injection Hbody as <- <-].
  apply rbind_ok in Hbody as (s3 & Hcall & [= <- <-]).
  eapply call_add_all_mentors; [done| |exact Hcall].
  destruct Hall as [Hstray _]. rewrite Forall_forall in Hstray.
  by apply Hstray.
Qed.

Lemma steal_for_all_mentors self i complete self' :
  all_mentors P self ->
  FamilyMatcher.steal_for config self i complete = Ok self' ->
  all_mentors P self'.
Proof.
  intros Hall. induction complete as [|c rest IH]; simpl;
    [by intros [= <-]|].
  intros Hrun. apply rbind_ok in Hrun as (stolen & Hfind & Hrun).
  destruct stolen as [jm|]; [|by apply IH].
  apply rbind_ok in Hrun as (s1 & Hadd & Hrm).
  assert (Hjm : P jm).
  { apply find_stolen_in in Hfind.
    pose proof (family_Forall P self c Hall) as Hc.
    rewrite Forall_forall in Hc. by apply Hc. }
  eapply call_remove_all_mentors; [|done|exact Hrm].
  by eapply call_add_all_mentors.
Qed.

Lemma swap_between_all_mentors self i f self' :
  all_mentors P self ->
  FamilyMatcher.swap_between config self i f = Ok self' ->
  all_mentors P self'.
Proof.
  intros Hall. unfold FamilyMatcher.swap_between. intros Hrun.
  apply rbind_ok in Hrun as (found & Hfind & Hrun).
  destruct found as [[this other]|]; [|by injection Hrun as <-].
  apply rbind_ok in Hrun as (s1 & H1 & H2).
  apply find_swap_in in Hfind as [Hthis Hother].
  pose proof (family_Forall P self i Hall) as Hi.
  pose proof (family_Forall P self f Hall) as Hf.
  rewrite Forall_forall in Hi, Hf.
  eapply call_swap_all_mentors; [| | |exact H2]; [|by apply Hf|by apply Hi].
  eapply call_swap_all_mentors; [done| | |exact H1];
    [by apply Hi|by apply Hf].
Qed.

Lemma swap_with_stray_all_mentors self f self' :
  all_mentors P self ->
  FamilyMatcher.swap_with_stray config self f = Ok self' ->
  all_mentors P self'.
Proof.
  intros Hall. unfold FamilyMatcher.swap_with_stray. intros Hrun.
  apply rbind_ok in Hrun as (found & Hfind & Hrun).
  destruct found as [[member stray]|]; [|by injection Hrun as <-].
  apply rbind_ok in Hrun as (s1 & H1 & H2).
  apply find_stray_swap_in in Hfind as (Hmember & Hstray & _).
  pose proof (family_Forall P self f Hall) as Hf.
  rewrite Forall_forall in Hf.
  assert (Hm : P member) by by apply Hf.
  assert (Hs : P stray).
  { destruct Hall as [Hst _]. rewrite Forall_forall in Hst. by apply Hst. }
  assert (H1' : all_mentors P s1)
    by exact (call_swap_all_mentors P config self f member stray s1
                Hall Hm Hs H1).
  unfold FamilyMatcher.stray_swap in H2.
  destruct (jms_remove stray _) as [l|] eqn:Hrm; [|done].
  injection H2 as <-. destruct H1' as [Hst1 Hf1]. split; [|done]. simpl.
  apply Forall_app. split; [by eapply jms_remove_Forall|by constructor].
Qed.

(** A loop of steps that keep a property of all mentors keeps it. *)
Lemma for_each_all_mentors {A : Type} (l : list A)
    (step : FamilyMatcher.t -> A -> result FamilyMatcher.t) self self' :
  (forall s x s', all_mentors P s -> step s x = Ok s' -> all_mentors P s') ->
  all_mentors P self -> for_each l step self = Ok self' ->
  all_mentors P self'.
Proof.
  intros Hstep Hall Hrun.
  apply (for_each_invariant (all_mentors P)) in Hrun; [done| |done].
  intros s0 x s1 _ Hs0 Hbody. by eapply Hstep.
Qed.

Lemma pass_all_mentors self self' :
  all_mentors P self -> FamilyMatcher.pass config self = Ok self' ->
  all_mentors P self'.
Proof.
  intros Hall. unfold FamilyMatcher.pass. intros Hrun.
  apply rbind_ok in Hrun as (s1 & H1 & Hrun).
  apply rbind_ok in Hrun as ([s2 l2] & H2 & Hrun).
  apply rbind_ok in Hrun as ([s3 l3] & H3 & Hrun).
  apply rbind_ok in Hrun as ([s4 l4] & H4 & Hrun).
  apply rbind_ok in Hrun as ([s5 l5] & H5 & [= <-]).
  simpl in *.
  assert (A1 : all_mentors P s1)
    by by eapply assign_perfect_fits_all_mentors.
  unfold FamilyMatcher.perfect_stray_adds in H2.
  apply rbind_ok in H2 as (t2 & H2 & H2').
  apply rbind_ok in H2' as (lists & _ & [= -> _]).
  assert (A2 : all_mentors P s2).
  { refine (for_each_all_mentors _ _ _ _ _ A1 H2).
    intros r y r'. apply stray_adds_into_all_mentors. }
  unfold FamilyMatcher.perfect_steals in H3.
  apply rbind_ok in H3 as (t3 & H3 & H3').
  apply rbind_ok in H3' as (lists3 & _ & [= -> _]).
  assert (A3 : all_mentors P s3).
  { refine (for_each_all_mentors _ _ _ _ _ A2 H3).
    intros r y r'. apply steal_for_all_mentors. }
  unfold FamilyMatcher.perfect_swaps in H4.
  apply rbind_ok in H4 as (t4 & H4 & H4').
  apply rbind_ok in H4' as (lists4 & _ & [= -> _]).
  assert (A4 : all_mentors P s4).
  { refine (for_each_all_mentors _ _ _ _ _ A3 H4).
    intros r i r' Hs Hinner.
    refine (for_each_all_mentors _ _ _ _ _ Hs Hinner).
    intros r0 f r0'. apply swap_between_all_mentors. }
  unfold FamilyMatcher.perfect_stray_swaps in H5.
  apply rbind_ok in H5 as (t5 & H5 & H5').
  apply rbind_ok in H5' as (lists5 & _ & [= -> _]).
  refine (for_each_all_mentors _ _ _ _ _ A4 H5).
  intros r y r'. apply swap_with_stray_all_mentors.
Qed.

Lemma iterate_all_mentors self self' :
  all_mentors P self -> FamilyMatcher.iterate config self = Ok self' ->
  all_mentors P self'.
Proof.
  intros Hall. unfold FamilyMatcher.iterate.
  apply for_each_all_mentors; [|done].
  intros s x s'. apply pass_all_mentors.
Qed.

End MovesPasses.

(** ** A stray mentor that no family accepts *)

Lemma comprehension_elem {A B : Type} (f : A -> result B) (l : list A)
    (ys : list B) (x : A) :
  comprehension f l = Ok ys -> x ∈ l -> exists y, f x = Ok y /\ y ∈ ys.
Proof.
  revert ys. induction l as [|z l IH]; intros ys Hc Hx; simpl in Hc.
  - by apply elem_of_nil in Hx.
  - apply rbind_ok in Hc as (y & Hy & Hc).
    apply rbind_ok in Hc as (ys' & Hys & [= <-]).
    apply elem_of_cons in Hx as [->|Hx].
    + exists y. split; [done|left].
    + destruct (IH ys' Hys Hx) as (y' & Hy' & Hin).
      exists y'. split; [done|by right].
Qed.

Lemma all_elem (c : list bool) b : all c = true -> b ∈ c -> b = true.
Proof.
  intros Hall Hb. destruct b; [done|]. by rewrite all_false in Hall.
Qed.

Lemma jm_swap_check_rated_too_high config F jm jms :
  rated_too_high config (Family.sms F) jm ->
  Family.jm_swap_check config F jm jms <> Ok true.
Proof.
  intros Hhigh. unfold Family.jm_swap_check.
  destruct (Family.check_data config F _ jm _) as [c|e] eqn:Hc; [|done].
  simpl. apply check_data_rated_too_high in Hc; [|done].
  by rewrite all_false.
Qed.

(** [allow_swap] checks the incoming mentor when the outgoing one is a
    member. *)
Lemma allow_swap_checks_incoming config F jm_outgoing jm_incoming :
  Family.allow_swap config F jm_outgoing jm_incoming = Ok true ->
  jm_outgoing ∈ Family.jms F ->
  exists jms, Family.jm_swap_check config F jm_incoming jms = Ok true.
Proof.
  unfold Family.allow_swap. intros Hallow Hout.
  apply rbind_ok in Hallow as (checks & Hchecks & [= Hall]).
  eexists.
  destruct (comprehension_elem _ _ _ jm_incoming Hchecks)
    as (b & Hb & Hin).
  - apply list_elem_of_fmap. exists jm_outgoing.
    split; [by rewrite is_refl|done].
  - rewrite Hb. f_equal. by eapply all_elem.
Qed.

Section Unwanted.

Variable config : Config.
Variable self0 : FamilyMatcher.t.
Variable jm : JM.t.

Hypothesis Hadd : forall F,
  Family.sms F ∈ sms_of self0 -> Family.jm_add_check config F jm <> Ok true.
Hypothesis Hswap : forall F jms,
  Family.sms F ∈ sms_of self0 ->
  Family.jm_swap_check config F jm jms <> Ok true.

Lemma same_object_other y :
  same_object jm y -> y <> jm -> JM.is_ jm y = false.
Proof.
  intros Hsame Hne. destruct (JM.is_ jm y) eqn:His; [|done].
  destruct Hne. by apply Hsame.
Qed.

Lemma assign_perfect_fits_stays self self' :
  sms_of self = sms_of self0 ->
  Forall (same_object jm) (FamilyMatcher.stray_jms self) ->
  jm ∈ FamilyMatcher.stray_jms self ->
  FamilyMatcher.assign_perfect_fits config self = Ok self' ->
  jm ∈ FamilyMatcher.stray_jms self'.
Proof.
  intros Hsms Hsame Hin. unfold FamilyMatcher.assign_perfect_fits.
  intros Hrun.
  apply rbind_ok in Hrun as ([s1 a1] & Hloop & Hrm). simpl in Hrm.
  apply (for_each_invariant
           (fun r : FamilyMatcher.t * list JM.t =>
              sms_of r.1 = sms_of self
              /\ FamilyMatcher.stray_jms r.1 = FamilyMatcher.stray_jms self
              /\ Forall (fun y => y ∈ FamilyMatcher.stray_jms self /\ y <> jm)
                        r.2))
    in Hloop.
  - destruct Hloop as (_ & Hstray & Hall). simpl in *.
    eapply remove_strays_other; [exact Hrm| |by rewrite Hstray].
    intros y Hy. rewrite Forall_forall in Hall, Hsame.
    destruct (Hall y Hy) as [Hyin Hne].
    apply same_object_other; [by apply Hsame|done].
  - intros [s0 a0] x [s2 a2] Hx (Hs0 & Hj0 & Ha0) Hbody. simpl in *.
    pose proof (assign_fit_keeps _ _ _ _ _ _ Hbody) as [Hs2 Hj2].
    split; [congruence|]. split; [congruence|].
    eapply assign_fit_assigned; [|exact Ha0|exact Hbody].
    intros F HF Hfits. split; [done|]. intros ->.
    apply (Hadd F); [by rewrite <- Hsms, <- Hs0|done].
  - by repeat split.
Qed.

Lemma stray_adds_into_stays self i self' :
  sms_of self = sms_of self0 -> i ∈ FamilyMatcher.refs self ->
  Forall (same_object jm) (FamilyMatcher.stray_jms self) ->
  jm ∈ FamilyMatcher.stray_jms self ->
  FamilyMatcher.stray_adds_into config self i = Ok self' ->
  jm ∈ FamilyMatcher.stray_jms self'.
Proof.
  intros Hsms Hi Hsame Hin. unfold FamilyMatcher.stray_adds_into.
  intros Hrun.
  apply rbind_ok in Hrun as ([s1 a1] & Hloop & Hrm). simpl in Hrm.
  apply (for_each_invariant
           (fun r : FamilyMatcher.t * list JM.t =>
              sms_of r.1 = sms_of self
              /\ FamilyMatcher.stray_jms r.1 = FamilyMatcher.stray_jms self
              /\ Forall (fun y => y ∈ FamilyMatcher.stray_jms self /\ y <> jm)
                        r.2))
    in Hloop.
  - destruct Hloop as (_ & Hstray & Hall). simpl in *.
    eapply remove_strays_other; [exact Hrm| |by rewrite Hstray].
    intros y Hy. rewrite Forall_forall in Hall, Hsame.
    destruct (Hall y Hy) as [Hyin Hne].
    apply same_object_other; [by apply Hsame|done].
  - intros [s0 a0] x [s2 a2] Hx (Hs0 & Hj0 & Ha0) Hbody. simpl in *.
    destruct (FamilyMatcher.size_satisfied config _);
      [by injection Hbody as <- <-|].
    apply rbind_ok in Hbody as (fits & Hfits & Hbody).
    destruct fits; [|by injection Hbody as <- <-].
    apply rbind_ok in Hbody as (s3 & Hcall & [= <- <-]).
    apply call_add_keeps in Hcall as [-> ->].
    split; [done|]. split; [done|].
    apply Forall_app. split; [done|]. constructor; [|done].
    split; [done|]. intros ->.
    apply (Hadd (FamilyMatcher.family s0 i)); [|done].
    rewrite <- Hsms, <- Hs0. apply family_sms_in.
    by rewrite (refs_sms_of s0 self).
  - by repeat split.
Qed.

Lemma steal_for_strays self i complete self' :
  FamilyMatcher.steal_for config self i complete = Ok self' ->
  FamilyMatcher.stray_jms self' = FamilyMatcher.stray_jms self.
Proof.
  induction complete as [|c rest IH]; simpl; [by intros [= <-]|].
  intros Hrun. apply rbind_ok in Hrun as (stolen & _ & Hrun).
  destruct stolen as [x|]; [|by apply IH].
  apply rbind_ok in Hrun as (s1 & Hadd' & Hrm).
  apply call_add_keeps in Hadd' as [_ <-].
  by apply call_remove_keeps in Hrm as [_ ->].
Qed.

Lemma swap_between_strays self i f self' :
  FamilyMatcher.swap_between config self i f = Ok self' ->
  FamilyMatcher.stray_jms self' = FamilyMatcher.stray_jms self.
Proof.
  unfold FamilyMatcher.swap_between. intros Hrun.
  apply rbind_ok in Hrun as (found & _ & Hrun).
  destruct found as [[this other]|]; [|by injection Hrun as <-].
  apply rbind_ok in Hrun as (s1 & H1 & H2).
  apply call_swap_keeps in H1 as [_ <-].
  by apply call_swap_keeps in H2 as [_ ->].
Qed.

Lemma swap_with_stray_stays self f self' :
  sms_of self = sms_of self0 -> f ∈ FamilyMatcher.refs self ->
  Forall (same_object jm) (FamilyMatcher.stray_jms self) ->
  jm ∈ FamilyMatcher.stray_jms self ->
  FamilyMatcher.swap_with_stray config self f = Ok self' ->
  jm ∈ FamilyMatcher.stray_jms self'.
Proof.
  intros Hsms Hf Hsame Hin. unfold FamilyMatcher.swap_with_stray.
  intros Hrun.
  apply rbind_ok in Hrun as (found & Hfind & Hrun).
  destruct found as [[member stray]|]; [|by injection Hrun as <-].
  apply rbind_ok in Hrun as (s1 & H1 & H2).
  apply find_stray_swap_in in Hfind as (Hmember & Hstray & Hallow).
  apply call_swap_keeps in H1 as [_ Hstrays].
  unfold FamilyMatcher.stray_swap in H2.
  destruct (jms_remove stray _) as [l|] eqn:Hrm; [|done].
  injection H2 as <-. simpl. apply elem_of_app. left.
  eapply jms_remove_other; [exact Hrm| |by rewrite Hstrays].
  rewrite Forall_forall in Hsame.
  apply same_object_other; [by apply Hsame|]. intros ->.
  destruct (allow_swap_checks_incoming _ _ _ _ Hallow Hmember)
    as [jms Hcheck].
  apply (Hswap (FamilyMatcher.family self f) jms); [|done].
  rewrite <- Hsms. by apply family_sms_in.
Qed.

End Unwanted.

Section UnwantedPass.

Variable config : Config.
Variable self0 : FamilyMatcher.t.
Variable jm : JM.t.

Hypothesis Hhigh : forall sms,
  sms ∈ sms_of self0 -> rated_too_high config sms jm.

Lemma for_each_stays {A : Type} (l : list A)
    (step : FamilyMatcher.t -> A -> result FamilyMatcher.t) self self' :
  (forall s x s', x ∈ l -> step s x = Ok s' -> sms_of s' = sms_of s) ->
  (forall s x s', x ∈ l ->
     all_mentors (same_object jm) s -> step s x = Ok s' ->
     all_mentors (same_object jm) s') ->
  (forall s x s', x ∈ l ->
     sms_of s = sms_of self0 -> all_mentors (same_object jm) s ->
     jm ∈ FamilyMatcher.stray_jms s -> step s x = Ok s' ->
     jm ∈ FamilyMatcher.stray_jms s') ->
  sms_of self = sms_of self0 -> all_mentors (same_object jm) self ->
  jm ∈ FamilyMatcher.stray_jms self ->
  for_each l step self = Ok self' ->
  sms_of self' = sms_of self0 /\ all_mentors (same_object jm) self'
  /\ jm ∈ FamilyMatcher.stray_jms self'.
Proof.
  intros Hsms Hall Hstay H1 H2 H3 Hrun.
  apply (for_each_invariant
           (fun s => sms_of s = sms_of self0
                     /\ all_mentors (same_object jm) s
                     /\ jm ∈ FamilyMatcher.stray_jms s)) in Hrun;
    [done| |done].
  intros s x s' Hx (I1 & I2 & I3) Hbody.
  split; [rewrite <- I1; by eapply Hsms|].
  split; [by eapply Hall|by eapply Hstay].
Qed.

Lemma pass_stays self self' :
  sms_of self = sms_of self0 -> all_mentors (same_object jm) self ->
  jm ∈ FamilyMatcher.stray_jms self ->
  FamilyMatcher.pass config self = Ok self' ->
  sms_of self' = sms_of self0 /\ all_mentors (same_object jm) self'
  /\ jm ∈ FamilyMatcher.stray_jms self'.
Proof.
  intros Hsms Hall Hin. unfold FamilyMatcher.pass. intros Hrun.
  assert (Hadd : forall F, Family.sms F ∈ sms_of self0 ->
                   Family.jm_add_check config F jm <> Ok true).
  { intros F HF. apply jm_add_check_rated_too_high. by apply Hhigh. }
  assert (Hswap : forall F jms, Family.sms F ∈ sms_of self0 ->
                    Family.jm_swap_check config F jm jms <> Ok true).
  { intros F jms HF. apply jm_swap_check_rated_too_high. by apply Hhigh. }
  apply rbind_ok in Hrun as (s1 & H1 & Hrun).
  apply rbind_ok in Hrun as ([s2 l2] & H2 & Hrun).
  apply rbind_ok in Hrun as ([s3 l3] & H3 & Hrun).
  apply rbind_ok in Hrun as ([s4 l4] & H4 & Hrun).
  apply rbind_ok in Hrun as ([s5 l5] & H5 & [= <-]).
  simpl in *.
  assert (S1 : sms_of s1 = sms_of self0)
    by (rewrite <- Hsms; by eapply assign_perfect_fits_keeps).
  assert (A1 : all_mentors (same_object jm) s1)
    by by eapply assign_perfect_fits_all_mentors.
  assert (J1 : jm ∈ FamilyMatcher.stray_jms s1).
  { refine (assign_perfect_fits_stays config self0 jm Hadd self s1
              Hsms _ Hin H1). apply Hall. }
  unfold FamilyMatcher.perfect_stray_adds in H2.
  apply rbind_ok in H2 as (t2 & H2 & H2').
  apply rbind_ok in H2' as (lists & _ & [= -> _]).
  assert (I2 : sms_of s2 = sms_of self0 /\ all_mentors (same_object jm) s2
               /\ jm ∈ FamilyMatcher.stray_jms s2).
  { refine (for_each_stays _ _ _ _ _ _ _ S1 A1 J1 H2).
    - intros s x s' _. apply stray_adds_into_keeps.
    - intros s x s' _. apply stray_adds_into_all_mentors.
    - intros s x s' Hx Hs Ha Hj.
      refine (stray_adds_into_stays config self0 jm Hadd s x s' Hs _ _ Hj);
        [|apply Ha].
      rewrite (refs_sms_of s s1) by congruence.
      unfold FamilyMatcher.split_families_by_status in Hx.
      rewrite split_loop in Hx. simpl in Hx.
      apply list_elem_of_In, filter_In in Hx as [Hx _].
      by apply list_elem_of_In. }
  destruct I2 as (S2 & A2 & J2).
  unfold FamilyMatcher.perfect_steals in H3.
  apply rbind_ok in H3 as (t3 & H3 & H3').
  apply rbind_ok in H3' as (lists3 & _ & [= -> _]).
  assert (I3 : sms_of s3 = sms_of self0 /\ all_mentors (same_object jm) s3
               /\ jm ∈ FamilyMatcher.stray_jms s3).
  { refine (for_each_stays _ _ _ _ _ _ _ S2 A2 J2 H3).
    - intros s x s' _. apply steal_for_keeps.
    - intros s x s' _. apply steal_for_all_mentors.
    - intros s x s' _ _ _ Hj Hstep.
      by rewrite (steal_for_strays _ _ _ _ _ Hstep). }
  destruct I3 as (S3 & A3 & J3).
  unfold FamilyMatcher.perfect_swaps in H4.
  apply rbind_ok in H4 as (t4 & H4 & H4').
  apply rbind_ok in H4' as (lists4 & _ & [= -> _]).
  assert (I4 : sms_of s4 = sms_of self0 /\ all_mentors (same_object jm) s4
               /\ jm ∈ FamilyMatcher.stray_jms s4).
  { refine (for_each_stays _ _ _ _ _ _ _ S3 A3 J3 H4).
    - intros s x s' _. apply for_each_keeps.
      intros r f r'. apply swap_between_keeps.
    - intros s x s' _. apply for_each_all_mentors.
      intros r f r'. apply swap_between_all_mentors.
    - intros s x s' _ _ _ Hj Hstep.
      apply (for_each_invariant
               (fun r => FamilyMatcher.stray_jms r
                         = FamilyMatcher.stray_jms s)) in Hstep;
        [by rewrite Hstep| |done].
      intros r f r' _ Hr Hbody.
      by rewrite (swap_between_strays _ _ _ _ _ Hbody). }
  destruct I4 as (S4 & A4 & J4).
  unfold FamilyMatcher.perfect_stray_swaps in H5.
  apply rbind_ok in H5 as (t5 & H5 & H5').
  apply rbind_ok in H5' as (lists5 & _ & [= -> _]).
  refine (for_each_stays _ _ _ _ _ _ _ S4 A4 J4 H5).
  - intros s x s' _. apply swap_with_stray_keeps.
  - intros s x s' _. apply swap_with_stray_all_mentors.
  - intros s x s' Hx Hs Ha Hj.
    refine (swap_with_stray_stays config self0 jm Hswap s x s' Hs _ _ Hj);
      [|apply Ha].
    by rewrite (refs_sms_of s s4) by congruence.
Qed.

Lemma iterate_stays self' :
  all_mentors (same_object jm) self0 ->
  jm ∈ FamilyMatcher.stray_jms self0 ->
  FamilyMatcher.iterate config self0 = Ok self' ->
  jm ∈ FamilyMatcher.stray_jms self'.
Proof.
  intros Hall Hin. unfold FamilyMatcher.iterate. intros Hrun.
  apply (for_each_invariant
           (fun s => sms_of s = sms_of self0
                     /\ all_mentors (same_object jm) s
                     /\ jm ∈ FamilyMatcher.stray_jms s)) in Hrun;
    [by destruct Hrun as (_ & _ & ?)| |done].
  intros s x s' _ (I1 & I2 & I3). by apply pass_stays.
Qed.

End UnwantedPass.

(** ** The pass of steals *)

Lemma jms_remove_length x l l' :
  jms_remove x l = Some l' -> length l = S (length l').
Proof.
  unfold jms_remove. revert l'. induction l as [|y l IH]; intros l'; simpl;
    [done|].
  destruct (JM.is_ y x); [by intros [= ->]|].
  destruct (list_remove JM.is_ x l) as [l0|]; simpl; [|done].
  intros [= <-]. simpl. by rewrite (IH l0).
Qed.

Lemma jms_remove_app x l r :
  jm_in x l = true ->
  jms_remove x (l ++ r) = (fun l' => l' ++ r) <$> jms_remove x l.
Proof.
  unfold jm_in, jms_remove. induction l as [|y l IH]; simpl; [done|].
  rewrite (is_sym x y). destruct (JM.is_ y x); simpl; [done|].
  intros Hin. rewrite (IH Hin).
  by destruct (list_remove JM.is_ x l).
Qed.

Lemma family_set_family_ne self r F ref :
  r <> ref ->
  FamilyMatcher.family (FamilyMatcher.set_family self r F) ref
  = FamilyMatcher.family self ref.
Proof.
  intros Hne. unfold FamilyMatcher.family, FamilyMatcher.set_family. simpl.
  by rewrite list_lookup_insert_ne.
Qed.

Lemma family_set_family_eq self r F :
  (r < length (FamilyMatcher.families self))%nat ->
  FamilyMatcher.family (FamilyMatcher.set_family self r F) r = F.
Proof.
  intros Hlt. unfold FamilyMatcher.family, FamilyMatcher.set_family. simpl.
  by rewrite list_lookup_insert_eq.
Qed.

Lemma set_family_out self r F :
  (length (FamilyMatcher.families self) <= r)%nat ->
  FamilyMatcher.set_family self r F = self.
Proof.
  intros Hge. unfold FamilyMatcher.set_family.
  rewrite list_insert_ge by done. by destruct self.
Qed.

Section StealPass.

Variable config : Config.

Lemma add_jm_length F jm :
  len (Family.jms (Family.add_jm config F jm).1) <= len (Family.jms F) + 1.
Proof.
  unfold Family.add_jm, len.
  destruct (Family.update_status config _) as [F2|e] eqn:H1; cbn [fst].
  - apply update_status_sms in H1 as [_ ->]. simpl.
    rewrite length_app. simpl. lia.
  - assert (Hbound :
      forall F', (length (Family.jms F') <= length (Family.jms F) + 1)%nat ->
        Z.of_nat (length (Family.jms
          match Family.update_status config F' with
          | Ok self3 => (self3, Ok false)
          | Raise e' => (F', Raise e')
          end.1)) <= Z.of_nat (length (Family.jms F)) + 1).
    { intros F' HF'.
      destruct (Family.update_status config F') as [F3|e'] eqn:H2;
        cbn [fst]; [apply update_status_sms in H2 as [_ ->]|]; lia. }
    apply Hbound. cbn [Family.jms Family.set_jms].
    destruct (jm_in jm _);
      [|cbn [Family.jms Family.set_jms]; rewrite length_app; simpl; lia].
    destruct (jms_remove jm _) as [l|] eqn:Hrm; cbn [Family.jms Family.set_jms].
    + apply jms_remove_length in Hrm. rewrite length_app in Hrm.
      simpl in Hrm. lia.
    + rewrite length_app. simpl. lia.
Qed.

Lemma add_jm_still_in F jm :
  jm_in jm (Family.jms F) = true ->
  jm_in jm (Family.jms (Family.add_jm config F jm).1) = true.
Proof.
  intros Hin. unfold Family.add_jm.
  destruct (Family.update_status config _) as [F2|e] eqn:H1; cbn [fst].
  - apply update_status_sms in H1 as [_ ->]. simpl.
    by rewrite jm_in_app, Hin.
  - assert (Hkeep :
      forall F', jm_in jm (Family.jms F') = true ->
        jm_in jm (Family.jms
          match Family.update_status config F' with
          | Ok self3 => (self3, Ok false)
          | Raise e' => (F', Raise e')
          end.1) = true).
    { intros F' HF'.
      destruct (Family.update_status config F') as [F3|e'] eqn:H2;
        cbn [fst]; [by apply update_status_sms in H2 as [_ ->]|done]. }
    apply Hkeep. cbn [Family.jms Family.set_jms].
    rewrite jm_in_app, Hin. cbn [orb].
    rewrite (jms_remove_app _ _ _ Hin).
    destruct (jms_remove_present jm (Family.jms F) Hin) as [l ->].
    cbn [fmap option_fmap option_map Family.jms Family.set_jms].
    rewrite jm_in_app. simpl. by rewrite is_refl, orb_true_r.
Qed.

Lemma remove_jm_length F jm :
  jm_in jm (Family.jms F) = true ->
  len (Family.jms (Family.remove_jm config F jm).1) <= len (Family.jms F).
Proof.
  intros Hin. unfold Family.remove_jm, Family.remove_attempt, len.
  destruct (jms_remove_present jm (Family.jms F) Hin) as [l Hrm].
  rewrite Hrm. apply jms_remove_length in Hrm.
  destruct (Family.update_status config _) as [F2|e] eqn:H1; cbn [fst].
  - apply update_status_sms in H1 as [_ ->]. simpl. lia.
  - assert (Hbound :
      forall F', (length (Family.jms F') <= length (Family.jms F))%nat ->
        Z.of_nat (length (Family.jms
          match Family.update_status config F' with
          | Ok self3 => (self3, Ok false)
          | Raise e' => (F', Raise e')
          end.1)) <= Z.of_nat (length (Family.jms F))).
    { intros F' HF'.
      destruct (Family.update_status config F') as [F3|e'] eqn:H2;
        cbn [fst]; [apply update_status_sms in H2 as [_ ->]|]; lia. }
    apply Hbound. cbn [Family.jms Family.set_jms].
    destruct (negb (jm_in jm l)); cbn [Family.jms Family.set_jms];
      [rewrite length_app; simpl|]; lia.
Qed.

(** The lengths of the families after a call of a mutator on one of
    them. *)
Lemma call_length self r (method : Family.t -> Family.t * result bool)
    self' (k : Z) :
  0 <= k ->
  len (Family.jms (method (FamilyMatcher.family self r)).1)
  <= len (Family.jms (FamilyMatcher.family self r)) + k ->
  FamilyMatcher.call self r method = Ok self' ->
  forall ref,
    family_len self' ref
    <= family_len self ref + (if Nat.eqb ref r then k else 0).
Proof.
  intros Hk Hm. unfold FamilyMatcher.call, family_len.
  destruct (method _) as [F' [b|e]] eqn:Hcall; [|done].
  intros [= <-] ref. simpl in Hm.
  destruct (Nat.eqb ref r) eqn:Href.
  - apply Nat.eqb_eq in Href as ->.
    destruct (le_lt_dec (length (FamilyMatcher.families self)) r) as [Hge|Hlt].
    + rewrite set_family_out by done. lia.
    + by rewrite family_set_family_eq.
  - apply Nat.eqb_neq in Href.
    rewrite family_set_family_ne by done. lia.
Qed.

Lemma call_add_in self i jm self' c :
  jm_in jm (Family.jms (FamilyMatcher.family self c)) = true ->
  FamilyMatcher.call self i (fun f => Family.add_jm config f jm) = Ok self' ->
  jm_in jm (Family.jms (FamilyMatcher.family self' c)) = true.
Proof.
  intros Hin. unfold FamilyMatcher.call.
  destruct (Family.add_jm config _ jm) as [F' [b|e]] eqn:Hcall; [|done].
  intros [= <-].
  destruct (decide (i = c)) as [->|Hne];
    [|by rewrite family_set_family_ne].
  destruct (le_lt_dec (length (FamilyMatcher.families self)) c) as [Hge|Hlt].
  - by rewrite set_family_out.
  - rewrite family_set_family_eq by done.
    pose proof (add_jm_still_in _ _ Hin) as Hstill.
    by rewrite Hcall in Hstill.
Qed.

Lemma steal_visit_length complete self i self' :
  steal_visit config complete self i self' ->
  forall ref,
    family_len self' ref
    <= family_len self ref + (if Nat.eqb ref i then 1 else 0).
Proof.
  intros [[-> _]|Hvisit] ref; [destruct (Nat.eqb ref i); lia|].
  destruct Hvisit as (before & c & after & jm & self1 & _ & _ & Hfind & _
                      & _ & _ & _ & Hadd & Hrm).
  apply find_stolen_in, elem_of_jm_in in Hfind.
  pose proof (call_add_in _ _ _ _ _ Hfind Hadd) as Hin.
  pose proof (call_length _ _ _ _ 1 ltac:(lia)
                (add_jm_length _ _) Hadd ref) as H1.
  assert (H2 : family_len self' ref
               <= family_len self1 ref + (if Nat.eqb ref c then 0 else 0)).
  { refine (call_length self1 c (fun f => Family.remove_jm config f jm)
              self' 0 _ _ Hrm ref); [lia|].
    rewrite Z.add_0_r. by apply remove_jm_length. }
  destruct (Nat.eqb ref c); lia.
Qed.

Lemma steal_visits_length complete self incomplete self' :
  steal_visits config complete self incomplete self' ->
  forall ref,
    family_len self' ref <= family_len self ref + listed ref incomplete.
Proof.
  unfold listed. revert self.
  induction incomplete as [|i rest IH]; intros self; simpl.
  - intros -> ref. lia.
  - intros (self1 & Hvisit & Hrest) ref.
    pose proof (steal_visit_length _ _ _ _ Hvisit ref) as H1.
    pose proof (IH _ Hrest ref) as H2.
    destruct (Nat.eqb ref i); simpl length; lia.
Qed.

Lemma perfect_steals_visits self incomplete complete self' lists :
  FamilyMatcher.perfect_steals config self incomplete complete
  = Ok (self', lists) ->
  steal_visits config complete self incomplete self'.
Proof.
  unfold FamilyMatcher.perfect_steals. intros Hrun.
  apply rbind_ok in Hrun as (s1 & Hloop & Hrun).
  apply rbind_ok in Hrun as (l1 & _ & [= <- _]).
  revert self Hloop. induction incomplete as [|i rest IH]; intros self;
    simpl.
  - by intros [= <-].
  - intros Hrun. apply rbind_ok in Hrun as (self1 & Hvisit & Hrest).
    exists self1. split; [by apply steal_for_visit|by apply IH].
Qed.

Lemma listed_NoDup ref l : NoDup l -> listed ref l <= 1.
Proof.
  unfold listed. induction 1 as [|x l Hx Hnd IH]; simpl; [lia|].
  destruct (Nat.eqb ref x) eqn:Hrx; [|done].
  apply Nat.eqb_eq in Hrx as <-.
  assert (Hnone : List.filter (Nat.eqb ref) l = []).
  { clear IH Hnd. induction l as [|y l IH]; simpl; [done|].
    destruct (Nat.eqb ref y) eqn:Hry.
    - apply Nat.eqb_eq in Hry as <-. destruct Hx. left.
    - apply IH. intros Hin. apply Hx. by right. }
  rewrite Hnone. simpl. lia.
Qed.

Lemma filter_NoDup {A : Type} (P : A -> bool) (l : list A) :
  NoDup l -> NoDup (List.filter P l).
Proof.
  induction 1 as [|x l Hx Hnd IH]; simpl; [constructor|].
  destruct (P x); [|done]. constructor; [|done].
  intros Hin. apply Hx.
  apply list_elem_of_In, filter_In in Hin as [Hin _].
  by apply list_elem_of_In.
Qed.

(** The receivers that a pass of [iterate] hands to the pass of steals:
    each family at most once. *)
Lemma pass_receivers_NoDup s0 self inc comp :
  FamilyMatcher.perfect_stray_adds config s0
    (FamilyMatcher.split_families_by_status s0 [] []).1
    (FamilyMatcher.split_families_by_status s0 [] []).2
  = Ok (self, (inc, comp)) ->
  NoDup inc.
Proof.
  unfold FamilyMatcher.perfect_stray_adds. intros Hrun.
  apply rbind_ok in Hrun as (s1 & _ & Hrun).
  rewrite promote_families_by_status_lists in Hrun.
  injection Hrun as _ <- _.
  unfold FamilyMatcher.split_families_by_status. rewrite split_loop.
  cbn [fst app]. apply filter_NoDup, filter_NoDup.
  unfold FamilyMatcher.refs. apply NoDup_seq.
Qed.

End StealPass.

(** C8 (amended: the bound is one steal per visit of a receiver, not one
    per donor).  A pass of steals that returns is the chain of the visits
    of the receivers in the order of the list.  A visit changes nothing, no
    donor having a member to give, or takes one member: from the first
    donor in the order of the list that has one, the first member of it
    that the receiver, short of members, can add and that [allow_steal]
    lets go.  So a family has, after the pass, at most one member more for
    each time that it is listed as a receiver; and the list that a pass of
    [iterate] hands over, made by [split_families_by_status] and
    [perfect_stray_adds], lists no family twice: there a family gains at
    most one member in the pass of steals. *)
Theorem steal_pass_one_per_visit config self incomplete complete self'
    lists :
  FamilyMatcher.perfect_steals config self incomplete complete
  = Ok (self', lists) ->
  steal_visits config complete self incomplete self'
  /\ (forall ref,
        family_len self' ref
        <= family_len self ref + listed ref incomplete)
  /\ (forall s0,
        FamilyMatcher.perfect_stray_adds config s0
          (FamilyMatcher.split_families_by_status s0 [] []).1
          (FamilyMatcher.split_families_by_status s0 [] []).2
        = Ok (self, (incomplete, complete)) ->
        NoDup incomplete
        /\ forall ref, family_len self' ref <= family_len self ref + 1).
Proof.
  intros Hrun.
  pose proof (perfect_steals_visits _ _ _ _ _ _ Hrun) as Hvisits.
  pose proof (steal_visits_length _ _ _ _ _ Hvisits) as Hlen.
  split; [done|]. split; [done|].
  intros s0 Hbefore.
  pose proof (pass_receivers_NoDup _ _ _ _ _ Hbefore) as Hnd.
  split; [done|]. intros ref.
  pose proof (Hlen ref). pose proof (listed_NoDup ref _ Hnd). lia.
Qed.

Lemma steal_pass_one_per_visit_witness :
  steal_visits one_to_three [0%nat]
    (matcher_of [family_of monday [amy; ben; dan] COMPLETE;
                 family_of tuesday [] INCOMPLETE;
                 family_of friday [] INCOMPLETE] [])
    [1%nat; 2%nat]
    (matcher_of [family_of monday [dan] COMPLETE;
                 family_of tuesday [amy] COMPLETE;
                 family_of friday [ben] COMPLETE] [])
  /\ (forall ref,
        family_len
          (matcher_of [family_of monday [dan] COMPLETE;
                       family_of tuesday [amy] COMPLETE;
                       family_of friday [ben] COMPLETE] []) ref
        <= family_len
             (matcher_of [family_of monday [amy; ben; dan] COMPLETE;
                          family_of tuesday [] INCOMPLETE;
                          family_of friday [] INCOMPLETE] []) ref
           + listed ref [1%nat; 2%nat])
  /\ (forall s0,
        FamilyMatcher.perfect_stray_adds one_to_three s0
          (FamilyMatcher.split_families_by_status s0 [] []).1
          (FamilyMatcher.split_families_by_status s0 [] []).2
        = Ok (matcher_of [family_of monday [amy; ben; dan] COMPLETE;
                          family_of tuesday [] INCOMPLETE;
                          family_of friday [] INCOMPLETE] [],
              ([1%nat; 2%nat], [0%nat])) ->
        NoDup [1%nat; 2%nat]
        /\ forall ref,
             family_len
               (matcher_of [family_of monday [dan] COMPLETE;
                            family_of tuesday [amy] COMPLETE;
                            family_of friday [ben] COMPLETE] []) ref
             <= family_len
                  (matcher_of [family_of monday [amy; ben; dan] COMPLETE;
                               family_of tuesday [] INCOMPLETE;
                               family_of friday [] INCOMPLETE] []) ref
                + 1).
Proof.
  apply (steal_pass_one_per_visit one_to_three
           (matcher_of [family_of monday [amy; ben; dan] COMPLETE;
                        family_of tuesday [] INCOMPLETE;
                        family_of friday [] INCOMPLETE] [])
           [1%nat; 2%nat] [0%nat]
           (matcher_of [family_of monday [dan] COMPLETE;
                        family_of tuesday [amy] COMPLETE;
                        family_of friday [ben] COMPLETE] [])
           ([], [0%nat; 1%nat; 2%nat])).
  by vm_compute.
Defined.

(** ** Mentors whose data can be checked *)

Lemma existsb_find {A : Type} (p : A -> bool) (l : list A) :
  existsb p l = true -> exists x, List.find p l = Some x.
Proof.
  induction l as [|y l IH]; simpl; [done|].
  destruct (p y); [by eexists|]. exact IH.
Qed.

Lemma comprehension_total_in {A B : Type} (f : A -> result B) (l : list A) :
  Forall (fun x => exists y, f x = Ok y) l ->
  exists ys, comprehension f l = Ok ys.
Proof.
  induction 1 as [|x l [y Hy] _ [ys IH]]; simpl; [by eexists|].
  rewrite Hy. simpl. rewrite IH. by eexists.
Qed.

Lemma is_ok_true {A : Type} (r : result A) :
  is_ok r = true -> exists a, r = Ok a.
Proof. destruct r; [by eexists|done]. Qed.

Section Fits.

Variable config : Config.
Variable pairs : list SMs.t.

Lemma counted_get jm header :
  counted config jm = true -> is_count config header = true ->
  exists dv, JM.get_datavalue jm header = Some dv.
Proof.
  unfold counted, is_count. intros Hcounted Hcount.
  apply existsb_exists in Hcount as (c & Hc & Heq).
  apply String.eqb_eq in Heq as ->.
  rewrite forallb_forall in Hcounted. specialize (Hcounted c Hc).
  change (constraint_header c) with (CountConstraint.header c).
  destruct (JM.get_datavalue jm _); [by eexists|done].
Qed.

Lemma count_matches_total c header jms :
  Forall (fits_all config pairs) jms -> is_count config header = true ->
  exists n, Family.count_matches c header jms = Ok n.
Proof.
  intros Hjms Hcount. unfold Family.count_matches.
  match goal with |- context [comprehension ?f jms] =>
    destruct (comprehension_total_in f jms) as [ys ->] end; [|by eexists].
  eapply Forall_impl; [exact Hjms|]. intros j [Hj _]. simpl.
  destruct (counted_get j header Hj Hcount) as [dv ->]. by eexists.
Qed.

Lemma check_data_total F on_count jm acc :
  Family.sms F ∈ pairs -> fits_all config pairs jm ->
  (forall c dv, is_count config (DataValue.header dv) = true ->
     exists b, on_count c dv = Ok b) ->
  exists acc', Family.check_data config F on_count jm acc = Ok acc'.
Proof.
  intros HF [_ Hjm] Hon. rewrite check_data_unfold.
  rewrite Forall_forall in Hjm. specialize (Hjm _ HF).
  unfold checkable in Hjm. rewrite forallb_forall in Hjm.
  destruct (for_each_total (fun _ => True) (JM.data jm)
              (check_step config F on_count) acc) as (acc' & -> & _);
    [|done|by eexists].
  intros c dv Hdv _. apply list_elem_of_In in Hdv.
  specialize (Hjm dv Hdv). unfold value_checks in Hjm. unfold check_step.
  destruct (is_preference config _).
  { apply is_ok_true in Hjm as [b ->]. by eexists. }
  destruct (is_count config _) eqn:Hcount.
  { destruct (existsb_find _ _ Hcount) as [k Hk].
    unfold get_constraint. rewrite Hk. simpl.
    destruct (Hon k dv Hcount) as [b ->]. by eexists. }
  destruct (is_difference config _); [|by eexists].
  apply is_ok_true in Hjm as [b ->]. by eexists.
Qed.

Lemma jm_add_check_total F jm :
  Family.sms F ∈ pairs -> Forall (fits_all config pairs) (Family.jms F) ->
  fits_all config pairs jm ->
  exists b, Family.jm_add_check config F jm = Ok b.
Proof.
  intros HF Hjms Hjm. unfold Family.jm_add_check.
  match goal with |- context [Family.check_data config F ?on jm ?acc] =>
    destruct (check_data_total F on jm acc HF Hjm) as [c ->] end;
    [|by eexists].
  intros c dv Hcount.
  destruct (count_matches_total c (DataValue.header dv) _ Hjms Hcount)
    as [n ->].
  by eexists.
Qed.

Lemma jm_swap_check_total F jm jms :
  Family.sms F ∈ pairs -> Forall (fits_all config pairs) jms ->
  fits_all config pairs jm ->
  exists b, Family.jm_swap_check config F jm jms = Ok b.
Proof.
  intros HF Hjms Hjm. unfold Family.jm_swap_check.
  match goal with |- context [Family.check_data config F ?on jm ?acc] =>
    destruct (check_data_total F on jm acc HF Hjm) as [c ->] end;
    [|by eexists].
  intros c dv Hcount.
  destruct (count_matches_total c (DataValue.header dv) _ Hjms Hcount)
    as [n ->].
  simpl. destruct (status_eqb _ _); by eexists.
Qed.

Lemma jm_steal_check_total F jm jms :
  Family.sms F ∈ pairs -> Forall (fits_all config pairs) jms ->
  fits_all config pairs jm ->
  exists b, Family.jm_steal_check config F jm jms = Ok b.
Proof.
  intros HF Hjms Hjm. unfold Family.jm_steal_check.
  match goal with |- context [Family.check_data config F ?on jm ?acc] =>
    destruct (check_data_total F on jm acc HF Hjm) as [c ->] end;
    [|by eexists].
  intros c dv Hcount.
  destruct (count_matches_total c (DataValue.header dv) _ Hjms Hcount)
    as [n ->].
  by eexists.
Qed.

Lemma full_check_total F :
  Family.sms F ∈ pairs -> Forall (fits_all config pairs) (Family.jms F) ->
  exists b, Family.full_check config F = Ok b.
Proof.
  intros HF Hjms. unfold Family.full_check.
  match goal with |- context [for_each ?l ?body ?acc] =>
    destruct (for_each_total (fun _ => True) l body acc)
      as (c & -> & _) end; [|done|by eexists].
  intros acc jm Hjm _. rewrite Forall_forall in Hjms.
  destruct (check_data_total F
              (fun constraint dv =>
                 count <~ Family.count_matches constraint
                            (DataValue.header dv) (Family.jms F) ;;
                 Ok (CountConstraint.is_satisfied constraint count))
              jm acc HF (Hjms jm Hjm)) as [c Hc].
  - intros c dv Hcount.
    destruct (count_matches_total c (DataValue.header dv) (Family.jms F))
      as [n ->]; [by apply Forall_forall|done|by eexists].
  - by exists c.
Qed.

Lemma update_status_total F :
  Family.sms F ∈ pairs -> Forall (fits_all config pairs) (Family.jms F) ->
  exists F1, Family.update_status config F = Ok F1.
Proof.
  intros HF Hjms. unfold Family.update_status.
  destruct (full_check_total F HF Hjms) as [b ->]. by eexists.
Qed.

(** With mentors that can be checked, [add_jm] appends and returns
    [True]. *)
Lemma add_jm_ok F jm :
  Family.sms F ∈ pairs -> Forall (fits_all config pairs) (Family.jms F) ->
  fits_all config pairs jm ->
  exists F1,
    Family.update_status config (Family.set_jms F (Family.jms F ++ [jm]))
    = Ok F1
    /\ Family.add_jm config F jm = (F1, Ok true).
Proof.
  intros HF Hjms Hjm. unfold Family.add_jm.
  destruct (update_status_total
              (Family.set_jms F (Family.jms F ++ [jm]))) as [F1 H1].
  - done.
  - simpl. apply Forall_app. split; [done|by constructor].
  - exists F1. by rewrite H1.
Qed.

(** [remove_jm] of a member removes it and returns [True]. *)
Lemma remove_jm_ok F jm :
  Family.sms F ∈ pairs -> Forall (fits_all config pairs) (Family.jms F) ->
  jm_in jm (Family.jms F) = true ->
  exists l F1,
    jms_remove jm (Family.jms F) = Some l
    /\ Family.update_status config (Family.set_jms F l) = Ok F1
    /\ Family.remove_jm config F jm = (F1, Ok true).
Proof.
  intros HF Hjms Hin. unfold Family.remove_jm, Family.remove_attempt.
  destruct (jms_remove_present _ _ Hin) as [l Hrm]. rewrite Hrm.
  destruct (update_status_total (Family.set_jms F l)) as [F1 H1].
  - done.
  - simpl. by eapply jms_remove_Forall.
  - exists l, F1. by rewrite H1.
Qed.

(** [swap_jm] of a member for a mentor that can be checked removes the
    one, appends the other and returns [True]. *)
Lemma swap_jm_ok F jm_outgoing jm_incoming :
  Family.sms F ∈ pairs -> Forall (fits_all config pairs) (Family.jms F) ->
  jm_in jm_outgoing (Family.jms F) = true ->
  fits_all config pairs jm_incoming ->
  exists l F1,
    jms_remove jm_outgoing (Family.jms F) = Some l
    /\ Family.update_status config (Family.set_jms F (l ++ [jm_incoming]))
       = Ok F1
    /\ Family.swap_jm config F jm_outgoing jm_incoming = (F1, Ok true).
Proof.
  intros HF Hjms Hin Hjm. unfold Family.swap_jm, Family.swap_attempt.
  destruct (jms_remove_present _ _ Hin) as [l Hrm]. rewrite Hrm.
  destruct (update_status_total
              (Family.set_jms F (l ++ [jm_incoming]))) as [F1 H1].
  - done.
  - simpl. apply Forall_app. split; [by eapply jms_remove_Forall|].
    by constructor.
  - exists l, F1. by rewrite H1.
Qed.

Lemma allow_steal_total F jm :
  Family.sms F ∈ pairs -> Forall (fits_all config pairs) (Family.jms F) ->
  exists b, Family.allow_steal config F jm = Ok b.
Proof.
  intros HF Hjms. unfold Family.allow_steal.
  assert (Hrest : Forall (fits_all config pairs)
                    (List.filter (fun j => negb (JM.is_ j jm))
                                 (Family.jms F))).
  { rewrite Forall_forall in *. intros j Hj. apply Hjms.
    apply list_elem_of_In, filter_In in Hj as [Hj _].
    by apply list_elem_of_In. }
  match goal with |- context [comprehension ?f ?l] =>
    destruct (comprehension_total_in f l) as [ys ->] end; [|by eexists].
  rewrite Forall_forall in *. intros j Hj.
  apply jm_steal_check_total; [done|by apply Forall_forall|by apply Hrest].
Qed.

Lemma allow_swap_total F jm_outgoing jm_incoming :
  Family.sms F ∈ pairs -> Forall (fits_all config pairs) (Family.jms F) ->
  fits_all config pairs jm_incoming ->
  exists b, Family.allow_swap config F jm_outgoing jm_incoming = Ok b.
Proof.
  intros HF Hjms Hjm. unfold Family.allow_swap.
  assert (Hswapped : Forall (fits_all config pairs)
                       (map (fun j => if JM.is_ j jm_outgoing
                                      then jm_incoming else j)
                            (Family.jms F))).
  { apply Forall_fmap. eapply Forall_impl; [exact Hjms|].
    intros j Hj. simpl. by destruct (JM.is_ j jm_outgoing). }
  match goal with |- context [comprehension ?f ?l] =>
    destruct (comprehension_total_in f l) as [ys ->] end; [|by eexists].
  rewrite Forall_forall in *. intros j Hj.
  apply jm_swap_check_total; [done|by apply Forall_forall|by apply Hswapped].
Qed.

End Fits.

(** ** The identities of the mentors under the calls of the controller *)

Lemma jms_remove_ids x l l' :
  jms_remove x l = Some l' ->
  map JM.oid l ≡ₚ JM.oid x :: map JM.oid l'.
Proof.
  unfold jms_remove. revert l'. induction l as [|y l IH]; intros l'; simpl;
    [done|].
  destruct (JM.is_ y x) eqn:Hyx.
  - intros [= ->]. unfold JM.is_ in Hyx. apply Nat.eqb_eq in Hyx.
    by rewrite Hyx.
  - destruct (list_remove JM.is_ x l) as [l0|]; simpl; [|done].
    intros [= <-]. simpl. rewrite (IH l0 eq_refl). apply Permutation_swap.
Qed.

Lemma insert_ids (g : Family.t -> list nat) (fams : list Family.t) r F F' :
  fams !! r = Some F ->
  concat (map g (<[r := F']> fams)) ++ g F
  ≡ₚ concat (map g fams) ++ g F'.
Proof.
  revert r. induction fams as [|G fams IH]; intros r Hr; [done|].
  destruct r as [|r]; simpl in *.
  - injection Hr as ->.
    rewrite <- !app_assoc. rewrite (Permutation_app_comm (g F')).
    rewrite !app_assoc. apply Permutation_app_tail, Permutation_app_comm.
  - rewrite <- !app_assoc. apply Permutation_app_head. by apply IH.
Qed.

Lemma refs_lookup self ref :
  ref ∈ FamilyMatcher.refs self ->
  FamilyMatcher.families self !! ref = Some (FamilyMatcher.family self ref).
Proof.
  unfold FamilyMatcher.refs, FamilyMatcher.family. intros Href.
  apply elem_of_seq in Href as [_ Href]. simpl in Href.
  destruct (lookup_lt_is_Some_2 (FamilyMatcher.families self) ref Href)
    as [F ->].
  done.
Qed.

Lemma refs_length self ref :
  ref ∈ FamilyMatcher.refs self ->
  (ref < length (FamilyMatcher.families self))%nat.
Proof.
  unfold FamilyMatcher.refs. intros Href.
  apply elem_of_seq in Href as [_ Href]. simpl in Href. lia.
Qed.

(** The identities after a family is replaced by one with other
    members. *)
Lemma set_family_ids self ref F' (gone come : list nat) :
  ref ∈ FamilyMatcher.refs self ->
  map JM.oid (Family.jms F') ++ gone
  ≡ₚ map JM.oid (Family.jms (FamilyMatcher.family self ref)) ++ come ->
  mentor_ids (FamilyMatcher.set_family self ref F') ++ gone
  ≡ₚ mentor_ids self ++ come.
Proof.
  intros Href Hmembers. unfold mentor_ids. simpl.
  pose proof (insert_ids (fun f => map JM.oid (Family.jms f))
                (FamilyMatcher.families self) ref _ F'
                (refs_lookup _ _ Href)) as Hins.
  simpl in Hins. rewrite <- !app_assoc. apply Permutation_app_head.
  eapply (Permutation_app_inv_r
            (map JM.oid (Family.jms (FamilyMatcher.family self ref)))).
  rewrite <- !app_assoc.
  rewrite (Permutation_app_comm gone), (Permutation_app_comm come).
  rewrite !app_assoc, Hins. rewrite <- !app_assoc.
  apply Permutation_app_head.
  exact Hmembers.
Qed.

Section FitsCalls.

Variable config : Config.
Variable pairs : list SMs.t.

Lemma settled_family self ref :
  settled config pairs self -> ref ∈ FamilyMatcher.refs self ->
  Family.sms (FamilyMatcher.family self ref) ∈ pairs
  /\ Forall (fits_all config pairs)
            (Family.jms (FamilyMatcher.family self ref)).
Proof.
  intros (Hsms & Hall & _) Href. split.
  - rewrite <- Hsms. by apply family_sms_in.
  - by apply family_Forall.
Qed.

Lemma settled_refs s s' :
  settled config pairs s -> settled config pairs s' ->
  FamilyMatcher.refs s' = FamilyMatcher.refs s.
Proof.
  intros [Hs _] [Hs' _]. apply refs_sms_of. congruence.
Qed.

(** A family replaced by its update. *)
Lemma set_family_settled self ref l F1 :
  settled config pairs self -> ref ∈ FamilyMatcher.refs self ->
  Forall (fits_all config pairs) l ->
  Family.update_status config
    (Family.set_jms (FamilyMatcher.family self ref) l) = Ok F1 ->
  settled config pairs (FamilyMatcher.set_family self ref F1).
Proof.
  intros (Hsms & [Hstray Hfam] & Hcur) Href Hl Hup.
  pose proof (update_status_sms _ _ _ Hup) as [HsmsF HjmsF].
  simpl in HsmsF, HjmsF.
  split; [|split; [split|]].
  - rewrite <- Hsms. unfold sms_of. simpl.
    rewrite list_fmap_insert, HsmsF.
    apply list_insert_id. rewrite list_lookup_fmap.
    by rewrite (refs_lookup _ _ Href).
  - done.
  - simpl. apply Forall_insert; [done|]. by rewrite HjmsF.
  - simpl. apply Forall_insert; [done|].
    by eapply update_status_current.
Qed.

Lemma call_add_ok self ref jm :
  settled config pairs self -> ref ∈ FamilyMatcher.refs self ->
  fits_all config pairs jm ->
  exists self',
    FamilyMatcher.call self ref (fun f => Family.add_jm config f jm)
    = Ok self'
    /\ settled config pairs self'
    /\ FamilyMatcher.stray_jms self' = FamilyMatcher.stray_jms self
    /\ mentor_ids self' ≡ₚ mentor_ids self ++ [JM.oid jm].
Proof.
  intros Hset Href Hjm.
  destruct (settled_family _ _ Hset Href) as [HF Hjms].
  destruct (add_jm_ok config pairs _ jm HF Hjms Hjm) as (F1 & Hup & Hcall).
  unfold FamilyMatcher.call. rewrite Hcall. eexists. split; [done|].
  assert (Hnew : Forall (fits_all config pairs)
                   (Family.jms (FamilyMatcher.family self ref) ++ [jm]))
    by (apply Forall_app; split; [done|by constructor]).
  split; [by eapply set_family_settled|]. split; [done|].
  pose proof (set_family_ids self ref F1 [] [JM.oid jm] Href) as Hids.
  rewrite !app_nil_r in Hids. apply Hids.
  apply update_status_sms in Hup as [_ ->]. simpl.
  by rewrite map_app.
Qed.

Lemma call_remove_ok self ref jm :
  settled config pairs self -> ref ∈ FamilyMatcher.refs self ->
  jm_in jm (Family.jms (FamilyMatcher.family self ref)) = true ->
  exists self',
    FamilyMatcher.call self ref (fun f => Family.remove_jm config f jm)
    = Ok self'
    /\ settled config pairs self'
    /\ FamilyMatcher.stray_jms self' = FamilyMatcher.stray_jms self
    /\ mentor_ids self' ++ [JM.oid jm] ≡ₚ mentor_ids self.
Proof.
  intros Hset Href Hin.
  destruct (settled_family _ _ Hset Href) as [HF Hjms].
  destruct (remove_jm_ok config pairs _ jm HF Hjms Hin)
    as (l & F1 & Hrm & Hup & Hcall).
  unfold FamilyMatcher.call. rewrite Hcall. eexists. split; [done|].
  split.
  { eapply set_family_settled; [done|done| |exact Hup].
    by eapply jms_remove_Forall. }
  split; [done|].
  pose proof (set_family_ids self ref F1 [JM.oid jm] [] Href) as Hids.
  rewrite !app_nil_r in Hids. apply Hids.
  apply update_status_sms in Hup as [_ ->]. simpl.
  rewrite (jms_remove_ids _ _ _ Hrm).
  by rewrite <- Permutation_cons_append.
Qed.

Lemma call_swap_ok self ref jm_outgoing jm_incoming :
  settled config pairs self -> ref ∈ FamilyMatcher.refs self ->
  jm_in jm_outgoing (Family.jms (FamilyMatcher.family self ref)) = true ->
  fits_all config pairs jm_incoming ->
  exists self',
    FamilyMatcher.call self ref
      (fun f => Family.swap_jm config f jm_outgoing jm_incoming)
    = Ok self'
    /\ settled config pairs self'
    /\ FamilyMatcher.stray_jms self' = FamilyMatcher.stray_jms self
    /\ mentor_ids self' ++ [JM.oid jm_outgoing]
       ≡ₚ mentor_ids self ++ [JM.oid jm_incoming]
    /\ jm_in jm_incoming (Family.jms (FamilyMatcher.family self' ref))
       = true
    /\ forall other, other <> ref ->
         FamilyMatcher.family self' other = FamilyMatcher.family self other.
Proof.
  intros Hset Href Hin Hjm.
  destruct (settled_family _ _ Hset Href) as [HF Hjms].
  destruct (swap_jm_ok config pairs _ jm_outgoing jm_incoming HF Hjms Hin Hjm)
    as (l & F1 & Hrm & Hup & Hcall).
  unfold FamilyMatcher.call. rewrite Hcall. eexists. split; [done|].
  split.
  { eapply set_family_settled; [done|done| |exact Hup].
    apply Forall_app. split; [by eapply jms_remove_Forall|by constructor]. }
  split; [done|].
  pose proof (update_status_sms _ _ _ Hup) as [_ HjmsF]. simpl in HjmsF.
  split; [|split].
  - apply set_family_ids; [done|]. rewrite HjmsF.
    rewrite (jms_remove_ids _ _ _ Hrm), map_app. simpl.
    symmetry. apply Permutation_cons_append.
  - rewrite family_set_family_eq by (by apply refs_length).
    rewrite HjmsF, jm_in_app. simpl. by rewrite is_refl, orb_true_r.
  - intros other Hne. by apply family_set_family_ne.
Qed.

End FitsCalls.

(** ** The steps of a pass on mentors that can be checked *)

Lemma set_stray_jms_ids self l :
  mentor_ids (FamilyMatcher.set_stray_jms self l)
  = map JM.oid l
    ++ concat (map (fun f => map JM.oid (Family.jms f))
                   (FamilyMatcher.families self)).
Proof. done. Qed.

Section FitsSteps.

Variable config : Config.
Variable pairs : list SMs.t.

Lemma settled_stray self jm :
  settled config pairs self -> jm ∈ FamilyMatcher.stray_jms self ->
  fits_all config pairs jm.
Proof.
  intros (_ & [Hstray _] & _) Hin. rewrite Forall_forall in Hstray.
  by apply Hstray.
Qed.

Lemma settled_member self ref jm :
  settled config pairs self ->
  jm ∈ Family.jms (FamilyMatcher.family self ref) ->
  fits_all config pairs jm.
Proof.
  intros (_ & Hall & _) Hin.
  pose proof (family_Forall _ self ref Hall) as Hfam.
  rewrite Forall_forall in Hfam. by apply Hfam.
Qed.

Lemma set_stray_jms_settled self l :
  settled config pairs self -> Forall (fits_all config pairs) l ->
  settled config pairs (FamilyMatcher.set_stray_jms self l).
Proof.
  intros (Hsms & [_ Hfam] & Hcur) Hl. by repeat split.
Qed.

Lemma remove_strays_ok self assigned :
  settled config pairs self ->
  sublist assigned (FamilyMatcher.stray_jms self) ->
  exists self',
    FamilyMatcher.remove_strays self assigned = Ok self'
    /\ settled config pairs self'
    /\ mentor_ids self' ++ map JM.oid assigned ≡ₚ mentor_ids self.
Proof.
  unfold FamilyMatcher.remove_strays. revert self.
  induction assigned as [|x a IH]; intros self Hset Hsub; simpl.
  - exists self. by rewrite app_nil_r.
  - destruct (remove_sublist _ _ _ Hsub) as (l' & Hrm & Hsub').
    rewrite Hrm. simpl.
    destruct (IH (FamilyMatcher.set_stray_jms self l'))
      as (self' & Hrun & Hset' & Hids).
    + apply set_stray_jms_settled; [done|].
      eapply jms_remove_Forall; [exact Hrm|]. by destruct Hset as (_ & [? _] & _).
    + done.
    + exists self'. split; [done|]. split; [done|].
      rewrite <- Permutation_middle.
      rewrite Hids, set_stray_jms_ids. unfold mentor_ids.
      rewrite (jms_remove_ids _ _ _ Hrm). done.
Qed.

Lemma assign_fit_ok self assigned jm :
  settled config pairs self -> fits_all config pairs jm ->
  exists self' assigned',
    FamilyMatcher.assign_fit config self assigned jm = Ok (self', assigned')
    /\ settled config pairs self'
    /\ FamilyMatcher.stray_jms self' = FamilyMatcher.stray_jms self
    /\ ((assigned' = assigned /\ mentor_ids self' ≡ₚ mentor_ids self)
        \/ (assigned' = assigned ++ [jm]
            /\ mentor_ids self' ≡ₚ mentor_ids self ++ [JM.oid jm])).
Proof.
  intros Hset Hjm. unfold FamilyMatcher.assign_fit.
  match goal with |- context [for_each ?l ?body ?s0] =>
    destruct (for_each_total
      (fun r : FamilyMatcher.t * bool * list JM.t =>
         settled config pairs r.1.1
         /\ FamilyMatcher.stray_jms r.1.1 = FamilyMatcher.stray_jms self
         /\ if r.1.2
            then r.2 = assigned ++ [jm]
                 /\ mentor_ids r.1.1 ≡ₚ mentor_ids self ++ [JM.oid jm]
            else r.2 = assigned /\ mentor_ids r.1.1 ≡ₚ mentor_ids self)
      l body s0) as ([[s1 fit1] a1] & -> & Hs1 & Hj1 & Ha1) end.
  - intros [[s0 fit0] a0] ref Href (Hs0 & Hj0 & Ha0). simpl in *.
    destruct fit0; [by eexists|].
    destruct Ha0 as [-> Hids0].
    assert (Href0 : ref ∈ FamilyMatcher.refs s0)
      by (by rewrite (settled_refs config pairs self s0)).
    destruct (settled_family config pairs _ _ Hs0 Href0) as [HF Hjms].
    destruct (jm_add_check_total config pairs _ jm HF Hjms Hjm)
      as [fits ->].
    simpl. destruct fits.
    + destruct (call_add_ok config pairs s0 ref jm Hs0 Href0 Hjm)
        as (s3 & -> & Hs3 & Hj3 & Hids3).
      simpl. eexists. split; [done|]. simpl.
      split; [done|]. split; [congruence|]. split; [done|].
      by rewrite Hids3, Hids0.
    + eexists. split; [done|]. simpl. split; [done|]. split; [done|].
      by split.
  - simpl. split; [done|]. split; [done|]. by split.
  - simpl. exists s1, a1. split; [done|]. split; [done|]. split; [done|].
    simpl in Ha1. destruct fit1; [by right|by left].
Qed.

End FitsSteps.

Section FitsPasses.

Variable config : Config.
Variable pairs : list SMs.t.

(** A loop over the stray mentors that adds some of them to families and
    collects those that it adds. *)
Lemma collect_settled
    (body : FamilyMatcher.t * list JM.t -> JM.t
            -> result (FamilyMatcher.t * list JM.t))
    (strays : list JM.t) (l : list JM.t) :
  (forall s a x, x ∈ l -> settled config pairs s ->
     FamilyMatcher.stray_jms s = strays ->
     exists s' a',
       body (s, a) x = Ok (s', a') /\ settled config pairs s'
       /\ FamilyMatcher.stray_jms s' = strays
       /\ ((a' = a /\ mentor_ids s' ≡ₚ mentor_ids s)
           \/ (a' = a ++ [x]
               /\ mentor_ids s' ≡ₚ mentor_ids s ++ [JM.oid x]))) ->
  forall s a, settled config pairs s -> FamilyMatcher.stray_jms s = strays ->
  exists s' extra,
    for_each l body (s, a) = Ok (s', a ++ extra)
    /\ settled config pairs s' /\ FamilyMatcher.stray_jms s' = strays
    /\ sublist extra l
    /\ mentor_ids s' ≡ₚ mentor_ids s ++ map JM.oid extra.
Proof.
  induction l as [|x l IH]; intros Hbody s a Hs Hj; simpl.
  - exists s, []. rewrite !app_nil_r. split; [done|]. split; [done|].
    split; [done|]. split; [constructor|done].
  - destruct (Hbody s a x ltac:(left) Hs Hj)
      as (s1 & a1 & -> & Hs1 & Hj1 & Ha1). simpl.
    destruct (IH (fun s a y Hy => Hbody s a y ltac:(by right)) s1 a1 Hs1 Hj1)
      as (s' & extra & -> & Hs' & Hj' & Hsub & Hids).
    destruct Ha1 as [[-> Hids1]|[-> Hids1]].
    + exists s', extra. split; [done|]. split; [done|]. split; [done|].
      split; [by apply sublist_cons|]. by rewrite Hids, Hids1.
    + exists s', (x :: extra). rewrite <- app_assoc. simpl.
      split; [done|]. split; [done|]. split; [done|].
      split; [by apply sublist_skip|].
      rewrite Hids, Hids1, <- app_assoc. done.
Qed.

Lemma assign_perfect_fits_ok self :
  settled config pairs self ->
  exists self',
    FamilyMatcher.assign_perfect_fits config self = Ok self'
    /\ settled config pairs self'
    /\ mentor_ids self' ≡ₚ mentor_ids self.
Proof.
  intros Hset. unfold FamilyMatcher.assign_perfect_fits.
  match goal with |- context [for_each ?l ?body (self, [])] =>
    destruct (collect_settled body (FamilyMatcher.stray_jms self) l)
      with (s := self) (a := @nil JM.t)
      as (s1 & extra & -> & Hs1 & Hj1 & Hsub & Hids) end.
  - intros s a x Hx Hs Hj.
    destruct (assign_fit_ok config pairs s a x Hs)
      as (s' & a' & -> & Hs' & Hj' & Ha').
    { exact (settled_stray config pairs self x Hset Hx). }
    exists s', a'. split; [done|]. split; [done|]. split; [congruence|done].
  - done.
  - done.
  - simpl.
    destruct (remove_strays_ok config pairs s1 extra Hs1)
      as (s2 & -> & Hs2 & Hids2); [by rewrite Hj1|].
    exists s2. split; [done|]. split; [done|].
    apply (Permutation_app_inv_r (map JM.oid extra)).
    by rewrite Hids2, Hids.
Qed.

Lemma stray_adds_into_ok self i :
  settled config pairs self -> i ∈ FamilyMatcher.refs self ->
  exists self',
    FamilyMatcher.stray_adds_into config self i = Ok self'
    /\ settled config pairs self'
    /\ mentor_ids self' ≡ₚ mentor_ids self.
Proof.
  intros Hset Hi. unfold FamilyMatcher.stray_adds_into.
  match goal with |- context [for_each ?l ?body (self, [])] =>
    destruct (collect_settled body (FamilyMatcher.stray_jms self) l)
      with (s := self) (a := @nil JM.t)
      as (s1 & extra & -> & Hs1 & Hj1 & Hsub & Hids) end.
  - intros s a x Hx Hs Hj.
    assert (Hfits : fits_all config pairs x)
      by exact (settled_stray config pairs self x Hset Hx).
    assert (Hi0 : i ∈ FamilyMatcher.refs s)
      by (by rewrite (settled_refs config pairs self s)).
    destruct (FamilyMatcher.size_satisfied config _).
    { exists s, a. split; [done|]. split; [done|]. split; [done|]. by left. }
    destruct (settled_family config pairs _ _ Hs Hi0) as [HF Hjms].
    destruct (jm_add_check_total config pairs _ x HF Hjms Hfits)
      as [fits ->].
    simpl. destruct fits.
    + destruct (call_add_ok config pairs s i x Hs Hi0 Hfits)
        as (s3 & -> & Hs3 & Hj3 & Hids3).
      simpl. exists s3, (a ++ [x]). split; [done|]. split; [done|].
      split; [congruence|]. by right.
    + exists s, a. split; [done|]. split; [done|]. split; [done|]. by left.
  - done.
  - done.
  - simpl.
    destruct (remove_strays_ok config pairs s1 extra Hs1)
      as (s2 & -> & Hs2 & Hids2); [by rewrite Hj1|].
    exists s2. split; [done|]. split; [done|].
    apply (Permutation_app_inv_r (map JM.oid extra)).
    by rewrite Hids2, Hids.
Qed.

Lemma find_stolen_total self i c :
  settled config pairs self -> i ∈ FamilyMatcher.refs self ->
  c ∈ FamilyMatcher.refs self ->
  exists stolen, FamilyMatcher.find_stolen config self i c = Ok stolen.
Proof.
  intros Hset Hi Hc. unfold FamilyMatcher.find_stolen.
  destruct (settled_family config pairs _ _ Hset Hi) as [HFi Hjmsi].
  destruct (settled_family config pairs _ _ Hset Hc) as [HFc Hjmsc].
  match goal with |- context [for_each ?l ?body ?s0] =>
    destruct (for_each_total (fun _ => True) l body s0)
      as (stolen & -> & _) end; [|done|by eexists].
  intros stolen jm Hjm _. destruct stolen; [by eexists|].
  destruct (FamilyMatcher.size_satisfied config _); [by eexists|].
  rewrite Forall_forall in Hjmsc.
  destruct (jm_add_check_total config pairs _ jm HFi Hjmsi (Hjmsc jm Hjm))
    as [fits ->].
  simpl. destruct fits; [|by eexists].
  destruct (allow_steal_total config pairs
              (FamilyMatcher.family self c) jm HFc)
    as [allowed ->]; [by apply Forall_forall|].
  by eexists.
Qed.

Lemma steal_for_ok self i complete :
  settled config pairs self -> i ∈ FamilyMatcher.refs self ->
  Forall (fun c => c ∈ FamilyMatcher.refs self) complete ->
  exists self',
    FamilyMatcher.steal_for config self i complete = Ok self'
    /\ settled config pairs self'
    /\ mentor_ids self' ≡ₚ mentor_ids self.
Proof.
  intros Hset Hi. induction 1 as [|c rest Hc Hrest IH]; simpl;
    [by exists self|].
  destruct (find_stolen_total self i c Hset Hi Hc) as [stolen Hfind].
  rewrite Hfind. simpl. destruct stolen as [jm|]; [|exact IH].
  apply find_stolen_in in Hfind.
  assert (Hjm : fits_all config pairs jm)
    by exact (settled_member config pairs self c jm Hset Hfind).
  destruct (call_add_ok config pairs self i jm Hset Hi Hjm)
    as (s1 & Hadd & Hs1 & Hj1 & Hids1).
  rewrite Hadd. simpl.
  pose proof (call_add_in config _ _ _ _ c (elem_of_jm_in _ _ Hfind) Hadd)
    as Hin.
  destruct (call_remove_ok config pairs s1 c jm Hs1)
    as (s2 & -> & Hs2 & Hj2 & Hids2);
    [by rewrite (settled_refs config pairs self s1)|done|].
  exists s2. split; [done|]. split; [done|].
  apply (Permutation_app_inv_r [JM.oid jm]). by rewrite Hids2, Hids1.
Qed.

Lemma find_swap_total self i f :
  settled config pairs self -> i ∈ FamilyMatcher.refs self ->
  f ∈ FamilyMatcher.refs self ->
  exists found, FamilyMatcher.find_swap config self i f = Ok found.
Proof.
  intros Hset Hi Hf. unfold FamilyMatcher.find_swap.
  destruct (settled_family config pairs _ _ Hset Hi) as [HFi Hjmsi].
  destruct (settled_family config pairs _ _ Hset Hf) as [HFf Hjmsf].
  match goal with |- context [for_each ?l ?body ?s0] =>
    destruct (for_each_total (fun _ => True) l body s0)
      as (found & -> & _) end; [|done|by eexists].
  intros found jm Hjm _.
  match goal with |- context [for_each ?l ?body ?s0] =>
    destruct (for_each_total (fun _ => True) l body s0)
      as (found' & -> & _) end; [|done|by eexists].
  intros found1 other Hother _. destruct found1; [by eexists|].
  pose proof Hjmsi as Hjmsi'. pose proof Hjmsf as Hjmsf'.
  rewrite Forall_forall in Hjmsi', Hjmsf'.
  destruct (allow_swap_total config pairs (FamilyMatcher.family self i)
              jm other HFi Hjmsi (Hjmsf' other Hother)) as [this_way ->].
  simpl. destruct this_way; [|by eexists].
  destruct (allow_swap_total config pairs (FamilyMatcher.family self f)
              other jm HFf Hjmsf (Hjmsi' jm Hjm)) as [that_way ->].
  by eexists.
Qed.

Lemma swap_between_ok self i f :
  settled config pairs self -> i ∈ FamilyMatcher.refs self ->
  f ∈ FamilyMatcher.refs self ->
  exists self',
    FamilyMatcher.swap_between config self i f = Ok self'
    /\ settled config pairs self'
    /\ mentor_ids self' ≡ₚ mentor_ids self.
Proof.
  intros Hset Hi Hf. unfold FamilyMatcher.swap_between.
  destruct (find_swap_total self i f Hset Hi Hf) as [found Hfind].
  rewrite Hfind. simpl.
  destruct found as [[this other]|]; [|by exists self].
  apply find_swap_in in Hfind as [Hthis Hother].
  assert (Hfthis : fits_all config pairs this)
    by exact (settled_member config pairs self i this Hset Hthis).
  assert (Hfother : fits_all config pairs other)
    by exact (settled_member config pairs self f other Hset Hother).
  destruct (call_swap_ok config pairs self i this other Hset Hi
              (elem_of_jm_in _ _ Hthis) Hfother)
    as (s1 & -> & Hs1 & Hj1 & Hids1 & Hin1 & Hrest1).
  simpl.
  assert (Hin : jm_in other (Family.jms (FamilyMatcher.family s1 f)) = true).
  { destruct (decide (f = i)) as [->|Hne]; [done|].
    rewrite Hrest1 by done. by apply elem_of_jm_in. }
  destruct (call_swap_ok config pairs s1 f other this Hs1)
    as (s2 & -> & Hs2 & Hj2 & Hids2 & _);
    [by rewrite (settled_refs config pairs self s1)|done|done|].
  exists s2. split; [done|]. split; [done|].
  apply (Permutation_app_inv_r [JM.oid other]).
  by rewrite Hids2.
Qed.

Lemma find_stray_swap_total self f :
  settled config pairs self -> f ∈ FamilyMatcher.refs self ->
  exists found, FamilyMatcher.find_stray_swap config self f = Ok found.
Proof.
  intros Hset Hf. unfold FamilyMatcher.find_stray_swap.
  destruct (settled_family config pairs _ _ Hset Hf) as [HFf Hjmsf].
  match goal with |- context [for_each ?l ?body ?s0] =>
    destruct (for_each_total (fun _ => True) l body s0)
      as (found & -> & _) end; [|done|by eexists].
  intros found jm Hjm _.
  match goal with |- context [for_each ?l ?body ?s0] =>
    destruct (for_each_total (fun _ => True) l body s0)
      as (found' & -> & _) end; [|done|by eexists].
  intros found1 stray Hstray _. destruct found1; [by eexists|].
  destruct (allow_swap_total config pairs (FamilyMatcher.family self f)
              jm stray HFf Hjmsf) as [allowed ->];
    [exact (settled_stray config pairs self stray Hset Hstray)|].
  by eexists.
Qed.

Lemma swap_with_stray_ok self f :
  settled config pairs self -> f ∈ FamilyMatcher.refs self ->
  exists self',
    FamilyMatcher.swap_with_stray config self f = Ok self'
    /\ settled config pairs self'
    /\ mentor_ids self' ≡ₚ mentor_ids self.
Proof.
  intros Hset Hf. unfold FamilyMatcher.swap_with_stray.
  destruct (find_stray_swap_total self f Hset Hf) as [found Hfind].
  rewrite Hfind. simpl.
  destruct found as [[member stray]|]; [|by exists self].
  apply find_stray_swap_in in Hfind as (Hmember & Hstray & _).
  assert (Hfm : fits_all config pairs member)
    by exact (settled_member config pairs self f member Hset Hmember).
  assert (Hfs : fits_all config pairs stray)
    by exact (settled_stray config pairs self stray Hset Hstray).
  destruct (call_swap_ok config pairs self f member stray Hset Hf
              (elem_of_jm_in _ _ Hmember) Hfs)
    as (s1 & -> & Hs1 & Hj1 & Hids1 & _).
  simpl. unfold FamilyMatcher.stray_swap.
  destruct (jms_remove_present stray (FamilyMatcher.stray_jms s1))
    as [l Hrm]; [rewrite Hj1; by apply elem_of_jm_in|].
  rewrite Hrm. eexists. split; [done|]. split.
  - apply set_stray_jms_settled; [done|].
    apply Forall_app. split; [|by constructor].
    eapply jms_remove_Forall; [exact Hrm|].
    by destruct Hs1 as (_ & [? _] & _).
  - apply (Permutation_app_inv_r [JM.oid stray]).
    assert (Hids2 :
      mentor_ids (FamilyMatcher.set_stray_jms s1 (l ++ [member]))
        ++ [JM.oid stray]
      ≡ₚ mentor_ids s1 ++ [JM.oid member]).
    { rewrite set_stray_jms_ids. unfold mentor_ids.
      rewrite (jms_remove_ids _ _ _ Hrm), map_app. simpl.
      rewrite <- !app_assoc.
      rewrite <- (Permutation_cons_append _ (JM.oid stray)).
      rewrite <- (Permutation_cons_append _ (JM.oid member)).
      simpl. rewrite <- !Permutation_middle. apply perm_swap. }
    by rewrite Hids2, Hids1.
Qed.

Lemma for_each_ok {A : Type} (l : list A)
    (step : FamilyMatcher.t -> A -> result FamilyMatcher.t) self :
  (forall s x, x ∈ l -> settled config pairs s ->
     exists s', step s x = Ok s' /\ settled config pairs s'
                /\ mentor_ids s' ≡ₚ mentor_ids s) ->
  settled config pairs self ->
  exists self',
    for_each l step self = Ok self' /\ settled config pairs self'
    /\ mentor_ids self' ≡ₚ mentor_ids self.
Proof.
  intros Hstep Hset.
  destruct (for_each_total
              (fun s => settled config pairs s
                        /\ mentor_ids s ≡ₚ mentor_ids self)
              l step self) as (s' & Hrun & Hs' & Hids); [|done|by exists s'].
  intros s x Hx [Hs Hids].
  destruct (Hstep s x Hx Hs) as (s' & -> & Hs' & Hids').
  exists s'. split; [done|]. split; [done|]. by rewrite Hids'.
Qed.

End FitsPasses.

Lemma filter_Forall {A : Type} (R : A -> Prop) (P : A -> bool) (l : list A) :
  Forall R l -> Forall R (List.filter P l).
Proof.
  rewrite !Forall_forall. intros Hl x Hx. apply Hl.
  apply list_elem_of_In, filter_In in Hx as [Hx _].
  by apply list_elem_of_In.
Qed.

Section FitsIterate.

Variable config : Config.
Variable pairs : list SMs.t.

Lemma pass_ok self :
  settled config pairs self ->
  exists self',
    FamilyMatcher.pass config self = Ok self'
    /\ settled config pairs self'
    /\ mentor_ids self' ≡ₚ mentor_ids self.
Proof.
  intros Hset. unfold FamilyMatcher.pass.
  destruct (assign_perfect_fits_ok config pairs self Hset)
    as (s1 & -> & Hs1 & I1).
  cbn [rbind].
  assert (Hrefs : forall s, settled config pairs s ->
                    FamilyMatcher.refs s = FamilyMatcher.refs s1)
    by (intros s Hs; by apply (settled_refs config pairs)).
  unfold FamilyMatcher.split_families_by_status. rewrite split_loop.
  cbn [fst snd app].
  set (inc0 := List.filter _ (FamilyMatcher.refs s1)).
  set (comp0 := List.filter _ (FamilyMatcher.refs s1)).
  assert (Hinc0 : Forall (fun r => r ∈ FamilyMatcher.refs s1) inc0)
    by (apply filter_Forall, Forall_forall; tauto).
  assert (Hcomp0 : Forall (fun r => r ∈ FamilyMatcher.refs s1) comp0)
    by (apply filter_Forall, Forall_forall; tauto).
  unfold FamilyMatcher.perfect_stray_adds.
  destruct (for_each_ok config pairs inc0
              (FamilyMatcher.stray_adds_into config) s1)
    as (s2 & -> & Hs2 & I2); [|done|].
  { intros s x Hx Hs. apply stray_adds_into_ok; [done|].
    rewrite (Hrefs s Hs). rewrite Forall_forall in Hinc0. by apply Hinc0. }
  cbn [rbind]. rewrite promote_families_by_status_lists.
  cbn [rbind fst snd].
  set (inc1 := List.filter _ inc0).
  set (comp1 := comp0 ++ List.filter _ inc0).
  assert (Hinc1 : Forall (fun r => r ∈ FamilyMatcher.refs s1) inc1)
    by by apply filter_Forall.
  assert (Hcomp1 : Forall (fun r => r ∈ FamilyMatcher.refs s1) comp1)
    by (apply Forall_app; split; [done|by apply filter_Forall]).
  unfold FamilyMatcher.perfect_steals.
  destruct (for_each_ok config pairs inc1
              (fun self i => FamilyMatcher.steal_for config self i comp1) s2)
    as (s3 & -> & Hs3 & I3); [|done|].
  { intros s x Hx Hs. rewrite Forall_forall in Hinc1.
    apply steal_for_ok; [done|rewrite (Hrefs s Hs); by apply Hinc1|].
    by rewrite (Hrefs s Hs). }
  cbn [rbind]. rewrite promote_families_by_status_lists.
  cbn [rbind fst snd].
  set (inc2 := List.filter _ inc1).
  set (comp2 := comp1 ++ List.filter _ inc1).
  assert (Hinc2 : Forall (fun r => r ∈ FamilyMatcher.refs s1) inc2)
    by by apply filter_Forall.
  unfold FamilyMatcher.perfect_swaps.
  destruct (for_each_ok config pairs inc2
              (fun self i =>
                 for_each (FamilyMatcher.refs self)
                   (fun self f => FamilyMatcher.swap_between config self i f)
                   self) s3)
    as (s4 & -> & Hs4 & I4); [|done|].
  { intros s x Hx Hs. rewrite Forall_forall in Hinc2.
    apply for_each_ok; [|done].
    intros s' f Hf Hs'. rewrite (Hrefs s Hs) in Hf.
    apply swap_between_ok; [done| |]; rewrite (Hrefs s' Hs');
      [by apply Hinc2|done]. }
  cbn [rbind]. rewrite promote_families_by_status_lists.
  cbn [rbind fst snd].
  unfold FamilyMatcher.perfect_stray_swaps.
  destruct (for_each_ok config pairs (FamilyMatcher.refs s4)
              (FamilyMatcher.swap_with_stray config) s4)
    as (s5 & -> & Hs5 & I5); [|done|].
  { intros s x Hx Hs. apply swap_with_stray_ok; [done|].
    by rewrite (Hrefs s Hs), <- (Hrefs s4 Hs4). }
  cbn [rbind]. rewrite promote_families_by_status_lists.
  cbn [rbind fst snd].
  exists s5. split; [done|]. split; [done|].
  by rewrite I5, I4, I3, I2, I1.
Qed.

Lemma passes_ok n self :
  settled config pairs self ->
  exists self',
    passes config n self = Ok self'
    /\ settled config pairs self'
    /\ mentor_ids self' ≡ₚ mentor_ids self.
Proof.
  intros Hset. unfold passes. induction n as [|n IH]; simpl.
  - by exists self.
  - destruct IH as (s & -> & Hs & Hids). simpl.
    destruct (pass_ok s Hs) as (s' & -> & Hs' & Hids').
    exists s'. split; [done|]. split; [done|]. by rewrite Hids'.
Qed.

Lemma iterate_passes self :
  FamilyMatcher.iterate config self = passes config 100 self.
Proof. unfold FamilyMatcher.iterate, passes. apply for_each_seq_iter. Qed.

End FitsIterate.

(** ** The loop of passes *)

(** C7, as stated, fails: [iterate] does not return for every input.  A
    stray mentor without a rating for the option of a family makes the
    first check raise KeyError, and the loop is left by the exception. *)
Lemma iterate_raises_on_missing_rating :
  FamilyMatcher.iterate default_config
    (matcher_of [family_of monday [] INCOMPLETE] [cat])
  = Raise KeyError.
Proof. by vm_compute. Qed.

(** C7 (amended: for the inputs on which no check raises).  When the data
    of every mentor can be checked against every pair of senior mentors,
    and the families come with a current status, [iterate] returns: it
    makes exactly [MAX_ITERS] = 100 passes, each on the result of the one
    before, with no test that ends the loop early.  What it returns has
    the families of the input, in order; every mentor of the input is in
    the list of stray mentors or in a family, none lost and none twice
    (the identities of the stray mentors and of the members are those of
    the input, up to their order); and the status of every family is the
    one that [full_check] gives to its members, COMPLETE or not. *)
Theorem iterate_returns_after_the_cap config self :
  all_mentors (fits_all config (sms_of self)) self ->
  Forall (current config) (FamilyMatcher.families self) ->
  exists self',
    FamilyMatcher.iterate config self = Ok self'
    /\ MAX_ITERS = 100%nat
    /\ passes config 100 self = Ok self'
    /\ sms_of self' = sms_of self
    /\ map JM.oid (FamilyMatcher.stray_jms self')
         ++ concat (map (fun f => map JM.oid (Family.jms f))
                        (FamilyMatcher.families self'))
       ≡ₚ map JM.oid (FamilyMatcher.stray_jms self)
            ++ concat (map (fun f => map JM.oid (Family.jms f))
                           (FamilyMatcher.families self))
    /\ Forall (fun f => Family.status f = COMPLETE
                        <-> Family.full_check config f = Ok true)
              (FamilyMatcher.families self').
Proof.
  intros Hfits Hcur.
  assert (Hset : settled config (sms_of self) self)
    by (split; [done|]; by split).
  destruct (passes_ok config (sms_of self) 100 self Hset)
    as (self' & Hrun & (Hsms & _ & Hcur') & Hids).
  exists self'. rewrite iterate_passes.
  split; [done|]. split; [done|]. split; [done|]. split; [done|].
  split; [exact Hids|exact Hcur'].
Qed.

Lemma iterate_returns_after_the_cap_witness :
  exists self',
    FamilyMatcher.iterate default_config
      (matcher_of [family_of monday [] INCOMPLETE]
         [amy; ben; eva; fin; dan])
    = Ok self'
    /\ MAX_ITERS = 100%nat
    /\ passes default_config 100
         (matcher_of [family_of monday [] INCOMPLETE]
            [amy; ben; eva; fin; dan])
       = Ok self'
    /\ sms_of self'
       = sms_of (matcher_of [family_of monday [] INCOMPLETE]
                   [amy; ben; eva; fin; dan])
    /\ map JM.oid (FamilyMatcher.stray_jms self')
         ++ concat (map (fun f => map JM.oid (Family.jms f))
                        (FamilyMatcher.families self'))
       ≡ₚ map JM.oid
            (FamilyMatcher.stray_jms
               (matcher_of [family_of monday [] INCOMPLETE]
                  [amy; ben; eva; fin; dan]))
            ++ concat
                 (map (fun f => map JM.oid (Family.jms f))
                      (FamilyMatcher.families
                         (matcher_of [family_of monday [] INCOMPLETE]
                            [amy; ben; eva; fin; dan])))
    /\ Forall (fun f => Family.status f = COMPLETE
                        <-> Family.full_check default_config f = Ok true)
              (FamilyMatcher.families self').
Proof.
  apply (iterate_returns_after_the_cap default_config
           (matcher_of [family_of monday [] INCOMPLETE]
              [amy; ben; eva; fin; dan])).
  - split; simpl.
    + repeat (constructor;
              [split; [by vm_compute|constructor; [by vm_compute|constructor]]|]).
      constructor.
    + repeat constructor.
  - constructor; [|constructor]. split; intros H; [discriminate H|].
    vm_compute in H. discriminate H.
Defined.

(** ** A mentor that no family takes *)

(** C4 (amended for the heuristic strategy: what keeps a mentor out of a
    family is a rating above the threshold, not the absence of a positive
    one).  An agent without a positive rank for any slot has the constant
    0 in every cell of the exact formulation, and [run_matcher] returns no
    mapping: it raises.  In the heuristic strategy, a stray mentor who
    rates the option of every family above the threshold is in the list of
    stray mentors of whatever [iterate] returns: no pass adds the mentor to
    a family or swaps the mentor in.  And [iterate] does return, with the
    mentor in that list, when the data of every mentor can be checked
    against every pair of senior mentors and the families come with a
    current status.  The identity of the mentor is taken to name one
    object. *)
Theorem unwanted_agent_stays_stray solve users prefs slots sizes u
    config self jm :
  u ∈ users ->
  (forall s, s ∈ slots ->
     MatcherSpec.recorded prefs (Matcher.u_id u) (Matcher.s_id s) <= 0) ->
  jm ∈ FamilyMatcher.stray_jms self ->
  all_mentors (same_object jm) self ->
  (forall sms, sms ∈ sms_of self -> rated_too_high config sms jm) ->
  (forall s, s ∈ slots ->
     Matcher.build_assignment (Matcher.preference_map prefs) users slots
       !! (Matcher.u_id u, Matcher.s_id s)
     = Some (Matcher.CpConstant 0))
  /\ (Matcher.run_matcher solve users prefs slots sizes = Raise TypeError
      \/ Matcher.run_matcher solve users prefs slots sizes
         = Raise AssertionError)
  /\ (forall self',
        FamilyMatcher.iterate config self = Ok self' ->
        jm ∈ FamilyMatcher.stray_jms self')
  /\ (all_mentors (fits_all config (sms_of self)) self ->
      Forall (current config) (FamilyMatcher.families self) ->
      exists self',
        FamilyMatcher.iterate config self = Ok self'
        /\ jm ∈ FamilyMatcher.stray_jms self').
Proof.
  intros Hu Hrank Hin Hsame Hhigh.
  destruct (MatcherProofs.run_matcher_all_constant solve users prefs slots
              sizes u Hu Hrank) as [Hcells Hraise].
  split; [done|]. split; [done|].
  assert (Hstays : forall self',
            FamilyMatcher.iterate config self = Ok self' ->
            jm ∈ FamilyMatcher.stray_jms self').
  { intros self'. by apply iterate_stays. }
  split; [done|].
  intros Hfits Hcur.
  assert (Hset : settled config (sms_of self) self)
    by (split; [done|]; by split).
  destruct (passes_ok config (sms_of self) 100 self Hset)
    as (self' & Hrun & _).
  rewrite <- iterate_passes in Hrun.
  exists self'. split; [done|]. by apply Hstays.
Qed.

Lemma unwanted_agent_stays_stray_witness :
  (forall s, s ∈ MatcherExamples.two_slots ->
     Matcher.build_assignment
       (Matcher.preference_map MatcherExamples.picky_prefs)
       MatcherExamples.picky_users MatcherExamples.two_slots
       !! (Matcher.u_id (MatcherExamples.user "b"), Matcher.s_id s)
     = Some (Matcher.CpConstant 0))
  /\ (Matcher.run_matcher Matcher.brute_solve MatcherExamples.picky_users
        MatcherExamples.picky_prefs MatcherExamples.two_slots
        (MatcherExamples.sizes 1 1) = Raise TypeError
      \/ Matcher.run_matcher Matcher.brute_solve MatcherExamples.picky_users
           MatcherExamples.picky_prefs MatcherExamples.two_slots
           (MatcherExamples.sizes 1 1) = Raise AssertionError)
  /\ exists self',
       FamilyMatcher.iterate default_config
         (matcher_of [family_of monday [] INCOMPLETE] [amy; dan])
       = Ok self'
       /\ dan ∈ FamilyMatcher.stray_jms self'.
Proof.
  destruct (unwanted_agent_stays_stray Matcher.brute_solve
              MatcherExamples.picky_users MatcherExamples.picky_prefs
              MatcherExamples.two_slots (MatcherExamples.sizes 1 1)
              (MatcherExamples.user "b") default_config
              (matcher_of [family_of monday [] INCOMPLETE] [amy; dan]) dan)
    as (Hcells & Hraise & _ & Hreturns).
  - right. left.
  - intros s Hs. apply elem_of_cons in Hs as [->|Hs]; [by vm_compute|].
    apply elem_of_cons in Hs as [->|Hs]; [by vm_compute|].
    by apply elem_of_nil in Hs.
  - right. left.
  - split; simpl.
    + constructor; [intros H; discriminate H|].
      constructor; [done|constructor].
    + repeat constructor.
  - intros sms Hsms. apply elem_of_cons in Hsms as [->|Hsms].
    + exact dan_rated_too_high.
    + by apply elem_of_nil in Hsms.
  - split; [exact Hcells|]. split; [exact Hraise|].
    apply Hreturns.
    + split; simpl.
      * repeat (constructor;
                [split; [by vm_compute
                        |constructor; [by vm_compute|constructor]]|]).
        constructor.
      * repeat constructor.
    + constructor; [|constructor]. split; intros H; [discriminate H|].
      vm_compute in H. discriminate H.
Defined.

End OldMatcherProofs.
